(** * Settlement states and chained promises of [promise.h]

    A shallow embedding of the header [promise.h] (namespace [async]) and of
    the driver that builds the reference chain.  The C++ heap is explicit:
    a [State<T...>] lives at an address of the state store (what
    [std::make_shared] returns), a [Runnable<T...>] at a pointer of the
    runnable store (what [new] returns), and every method takes the address
    of [this].  A trace records which state was settled, which continuation
    a state called and which function of the caller ran, each with its
    payload, so that "invoked exactly once" and "never invoked" are
    statements about the trace.

    What the embedding leaves out: the reference counts of the
    [std::shared_ptr]s.  A state is never reclaimed here, so its destructor
    is a function of its own ([State_destroy]) and not a step that follows
    from dropping the last handle; runnables are reclaimed only by the
    [delete]s of [Reset].  A function of the caller is a pure body that
    prints, asserts and returns a facade made on the spot; it holds no
    handle on a state of the heap. *)

From Stdlib Require Import ZArith String.
From stdpp Require Import base option list.

Open Scope Z_scope.
Open Scope string_scope.
Open Scope list_scope.
Open Scope nat_scope.

(** ** Values *)

(** [enum class status]. *)
Inductive status := pending | fulfilled | rejected.

#[global] Instance status_eq_dec : EqDecision status.
Proof. solve_decision. Defined.

(** The element types the driver instantiates [T...] with, and their
    values.  A [std::tuple<T...>] is the list of its elements. *)
Inductive ty := TInt | TString.

Inductive val := VInt (z : Z) | VStr (s : string).

Definition tuple := list val.

(** Value-initialisation of an element ([std::tuple<T...> _value;]). *)
Definition default_val (t : ty) : val :=
  match t with TInt => VInt 0 | TString => VStr "" end.

Definition default_tuple (ts : list ty) : tuple := map default_val ts.

(** What move-construction leaves behind in its source: an [int] is
    copied, a [std::string] is left empty (as libstdc++ and libc++ do). *)
Definition moved_from (v : val) : val :=
  match v with VInt z => VInt z | VStr _ => VStr "" end.

(** [std::exception] with its [what()]; [SException] is a
    [std::shared_ptr<std::exception>], [None] being [nullptr]. *)
Record exception := mk_exception { what : string }.

Definition SException := option exception.

(** ** Continuations supplied by the caller *)

(** The facade a continuation returns: one made by [MakeReadyPromise], one
    made by [MakeException], or a default-constructed [Promise<T...>()]. *)
Inductive facade :=
| Ready (v : tuple)
| Failed (e : SException)
| Unsettled.

(** What running a caller's function body does: the lines it prints, and
    its result, [None] when an [assert] of the body fails. *)
Definition effect (R : Type) : Type := list string * option R.

(** A function handed to [Then] (argument: the bundle) or to [Exception]
    (argument: the error).  [cname] only labels the trace; [cret] is the
    [T...] of the returned [Promise<T...>]. *)
Record continuation (A : Type) := mk_continuation {
  cname : string;
  cret : list ty;
  cbody : A -> effect facade }.
Arguments mk_continuation {A}.
Arguments cname {A}.
Arguments cret {A}.
Arguments cbody {A}.

(** The [std::function<void(SException)>] handed to [Finally]. *)
Record terminal := mk_terminal {
  tname : string;
  tbody : SException -> effect unit }.

(** ** The heap *)

(** Addresses of states (what a [std::shared_ptr<State<T...>>] holds) and
    pointers to runnables ([Runnable<T...> *]). *)
Abbreviation addr := nat (only parsing).
Abbreviation ptr := nat (only parsing).

(** The lambdas that [Then], [Exception] and [Finally] wrap in a
    [std::function], with what they capture: the caller's function and the
    [Deffered] called [$] (the address of its state). *)
Inductive value_func :=
| then_done (func : continuation tuple) (dollar : addr)
| finally_done (func : terminal).

Inductive error_func :=
| then_fail (dollar : addr)
| exception_fail (func : continuation SException) (dollar : addr)
| finally_fail (func : terminal).

(** The two subclasses of [Runnable<T...>] with their [_func]. *)
Inductive Runnable :=
| Resolver (_func : value_func)
| Rejecter (_func : error_func).

(** [State<T...>]; a null [Runnable*] is [None]. *)
Record State := mk_State {
  _st : status;
  _done : option ptr;
  _fail : option ptr;
  _value : tuple;
  _e : SException }.

Definition set_st (x : status) (s : State) : State :=
  mk_State x (_done s) (_fail s) (_value s) (_e s).
Definition set_done (x : option ptr) (s : State) : State :=
  mk_State (_st s) x (_fail s) (_value s) (_e s).
Definition set_fail (x : option ptr) (s : State) : State :=
  mk_State (_st s) (_done s) x (_value s) (_e s).
Definition set_value (x : tuple) (s : State) : State :=
  mk_State (_st s) (_done s) (_fail s) x (_e s).
Definition set_e (x : SException) (s : State) : State :=
  mk_State (_st s) (_done s) (_fail s) (_value s) x.

(** [State() = default]: the member initialisers of lines 133-137. *)
Definition State_default (ts : list ty) : State :=
  mk_State pending None None (default_tuple ts) None.

(** What a stage is settled with. *)
Inductive payload :=
| Bundle (v : tuple)
| Error (e : SException).

(** What the trace records. *)
Inductive event :=
| EvSettle (a : addr) (x : payload)
    (* State::SetValue or State::SetException called on the state at a *)
| EvDispatch (a : addr) (p : option ptr) (x : payload)
    (* the state at a calls p->SetValue or p->SetException with x *)
| EvThen (name : string) (args : tuple)
    (* the function given to Then called *)
| EvException (name : string) (e : SException)
    (* the function given to Exception called *)
| EvFinally (name : string) (e : SException)
    (* the function given to Finally called *)
| EvPrint (line : string).

Record Heap := mk_Heap {
  states : list State;
  runnables : list (option Runnable);   (* [None]: deleted *)
  trace : list event }.

Definition empty_heap : Heap := mk_Heap [] [] [].

(** ** The monad of the embedding *)

(** How a call can fail to return. *)
Inductive trap :=
| assert_Resolver_SetException    (* line 41 *)
| assert_Rejecter_SetValue        (* line 59 *)
| assert_caller                   (* an assert in a caller's function *)
| bad_pointer.                    (* dangling or foreign pointer, double delete *)

Inductive res (A : Type) :=
| Done (a : A)
| Trap (t : trap)
| OutOfFuel.
Arguments Done {A}.
Arguments Trap {A}.
Arguments OutOfFuel {A}.

(** A computation returns its outcome and the heap it leaves, also when it
    stops early. *)
Definition M (A : Type) : Type := Heap -> res A * Heap.

Definition ret {A} (a : A) : M A := fun h => (Done a, h).

Definition bind {A B} (m : M A) (k : A -> M B) : M B :=
  fun h =>
    match m h with
    | (Done a, h') => k a h'
    | (Trap t, h') => (Trap t, h')
    | (OutOfFuel, h') => (OutOfFuel, h')
    end.

Definition fail {A} (t : trap) : M A := fun h => (Trap t, h).
Definition out_of_fuel {A} : M A := fun h => (OutOfFuel, h).

Declare Scope promise_scope.
Delimit Scope promise_scope with promise.
Notation "x <- m ;; k" := (bind m (fun x => k))
  (at level 100, m at next level, right associativity) : promise_scope.
Notation "m ;; k" := (bind m (fun _ => k))
  (at level 100, right associativity) : promise_scope.
Open Scope promise_scope.

(** [std::make_shared<State<T...>>()]. *)
Definition new_State (ts : list ty) : M addr :=
  fun h => (Done (length (states h)),
            mk_Heap (states h ++ [State_default ts]) (runnables h) (trace h)).

(** Reading and writing the state behind a shared pointer. *)
Definition load (a : addr) : M State :=
  fun h => match states h !! a with
           | Some s => (Done s, h)
           | None => (Trap bad_pointer, h)
           end.

Definition modify (a : addr) (f : State -> State) : M unit :=
  fun h => match states h !! a with
           | Some s => (Done tt, mk_Heap (<[a := f s]> (states h)) (runnables h) (trace h))
           | None => (Trap bad_pointer, h)
           end.

(** [new ResolverType{...}], [new RejecterType{...}]. *)
Definition new_Runnable (r : Runnable) : M ptr :=
  fun h => (Done (length (runnables h)),
            mk_Heap (states h) (runnables h ++ [Some r]) (trace h)).

(** [p->...] on a [Runnable*]. *)
Definition deref (p : ptr) : M Runnable :=
  fun h => match runnables h !! p with
           | Some (Some r) => (Done r, h)
           | _ => (Trap bad_pointer, h)
           end.

(** [delete p]; deleting [nullptr] does nothing. *)
Definition delete (p : option ptr) : M unit :=
  fun h => match p with
           | None => (Done tt, h)
           | Some q =>
             match runnables h !! q with
             | Some (Some _) =>
               (Done tt, mk_Heap (states h) (<[q := None]> (runnables h)) (trace h))
             | _ => (Trap bad_pointer, h)
             end
           end.

Definition emit (ev : event) : M unit :=
  fun h => (Done tt, mk_Heap (states h) (runnables h) (trace h ++ [ev])).

Definition emit_all (evs : list event) : M unit :=
  fun h => (Done tt, mk_Heap (states h) (runnables h) (trace h ++ evs)).

(** Calling a caller's function: what it prints reaches the trace, a
    failed [assert] aborts. *)
Definition call {R} (x : effect R) : M R :=
  emit_all (map EvPrint (fst x));;
  match snd x with
  | Some r => ret r
  | None => fail assert_caller
  end.

(** ** [State]: the consuming reads *)

(** [get_value] (lines 71-74) resets the status and returns an rvalue
    reference to [_value]; nothing is moved yet.  The reference is the
    address of the state that owns the bundle. *)
Definition get_value (this : addr) : M addr :=
  modify this (set_st pending);;
  ret this.

(** Move-construction of a bundle from the one behind such a reference:
    what [Promise::GetValue] does by returning by value, and what
    [std::function<void(T...)>] does with its by-value parameters. *)
Definition move_tuple (ref : addr) : M tuple :=
  s <- load ref;;
  modify ref (set_value (map moved_from (_value s)));;
  ret (_value s).

(** [get_exception] (lines 76-79) returns by value: [_e] is moved out and
    left null. *)
Definition get_exception (this : addr) : M SException :=
  modify this (set_st pending);;
  s <- load this;;
  modify this (set_e None);;
  ret (_e s).

(** ** Everything a continuation runs

    The methods of this section call [State::SetValue] and
    [State::SetException] on later stages; they take them as
    [SetValue_next] and [SetException_next]. *)
Section Runnables.
Variable SetValue_next : addr -> tuple -> M unit.
Variable SetException_next : addr -> SException -> M unit.

(** [Deffered<T...>] is the address of its [_state]. *)
Definition Deffered_new (ts : list ty) : M addr := new_State ts.
Definition Deffered_GetPromise (d : addr) : addr := d.
Definition Deffered_SetValue (d : addr) (value : tuple) : M unit :=
  SetValue_next d value.
Definition Deffered_SetException (d : addr) (e : SException) : M unit :=
  SetException_next d e.

(** [Promise<T...>] is the address of its [_state] too. *)
Definition Promise_new (ts : list ty) : M addr := new_State ts.

Definition Promise_GetStatus (this : addr) : M status :=
  s <- load this;;
  ret (_st s).

Definition Promise_GetValue (this : addr) : M tuple :=
  ref <- get_value this;;
  move_tuple ref.

Definition Promise_GetException (this : addr) : M SException :=
  get_exception this.

(** The factories (lines 225-245). *)
Definition MakeReadyPromise (ts : list ty) (values : tuple) : M addr :=
  dollar <- Deffered_new ts;;
  Deffered_SetValue dollar values;;
  ret (Deffered_GetPromise dollar).

Definition MakeException (ts : list ty) (e : SException) : M addr :=
  dollar <- Deffered_new ts;;
  Deffered_SetException dollar e;;
  ret (Deffered_GetPromise dollar).

(** The facade a caller's function returns, built the way it says. *)
Definition make_facade (ts : list ty) (f : facade) : M addr :=
  match f with
  | Ready v => MakeReadyPromise ts v
  | Failed e => MakeException ts e
  | Unsettled => Promise_new ts
  end.

(** The [switch (r.GetStatus())] of lines 181-187 and 201-207. *)
Definition forward (r dollar : addr) : M unit :=
  st <- Promise_GetStatus r;;
  match st with
  | fulfilled =>
    v <- Promise_GetValue r;;
    Deffered_SetValue dollar v
  | rejected =>
    e <- Promise_GetException r;;
    Deffered_SetException dollar e
  | pending => ret tt
  end.

(** The bodies of the lambdas. *)
Definition run_value_func (f : value_func) (args : tuple) : M unit :=
  match f with
  | then_done func dollar =>
    emit (EvThen (cname func) args);;
    x <- call (cbody func args);;
    r <- make_facade (cret func) x;;
    forward r dollar
  | finally_done func =>
    emit (EvFinally (tname func) None);;
    call (tbody func None)
  end.

Definition run_error_func (f : error_func) (e : SException) : M unit :=
  match f with
  | then_fail dollar => Deffered_SetException dollar e
  | exception_fail func dollar =>
    emit (EvException (cname func) e);;
    x <- call (cbody func e);;
    r <- make_facade (cret func) x;;
    forward r dollar
  | finally_fail func =>
    emit (EvFinally (tname func) e);;
    call (tbody func e)
  end.

(** The virtual calls [p->SetValue(value)] and [p->SetException(e)]
    (lines 41-44 and 58-59).  [value] is the reference [get_value]
    returned; calling [_func] moves the bundle out of it. *)
Definition Runnable_SetValue (p : option ptr) (value : addr) : M unit :=
  match p with
  | None => fail bad_pointer
  | Some q =>
    r <- deref q;;
    match r with
    | Resolver _func =>
      args <- move_tuple value;;
      run_value_func _func args
    | Rejecter _ => fail assert_Rejecter_SetValue
    end
  end.

Definition Runnable_SetException (p : option ptr) (e : SException) : M unit :=
  match p with
  | None => fail bad_pointer
  | Some q =>
    r <- deref q;;
    match r with
    | Resolver _ => fail assert_Resolver_SetException
    | Rejecter _func => run_error_func _func e
    end
  end.
End Runnables.

(** ** [State]: settling and registering

    [fuel] bounds how deep settling one stage may reach into settling the
    next ones. *)
Fixpoint State_SetValue (fuel : nat) (this : addr) (value : tuple) {struct fuel} : M unit :=
  match fuel with
  | O => out_of_fuel
  | S k =>
    emit (EvSettle this (Bundle value));;
    modify this (set_st fulfilled);;
    modify this (set_value value);;
    s <- load this;;
    match _done s with
    | Some _ =>
      ref <- get_value this;;
      emit (EvDispatch this (_done s) (Bundle value));;
      Runnable_SetValue (State_SetValue k) (State_SetException k) (_done s) ref
    | None => ret tt
    end
  end
with State_SetException (fuel : nat) (this : addr) (e : SException) {struct fuel} : M unit :=
  match fuel with
  | O => out_of_fuel
  | S k =>
    emit (EvSettle this (Error e));;
    modify this (set_st rejected);;
    modify this (set_e e);;
    s <- load this;;
    match _fail s with
    | Some _ =>
      x <- get_exception this;;
      emit (EvDispatch this (_fail s) (Error x));;
      Runnable_SetException (State_SetValue k) (State_SetException k) (_fail s) x
    | None => ret tt
    end
  end.

Definition State_SetDone (fuel : nat) (this : addr) (done : option ptr) : M unit :=
  modify this (set_done done);;
  s <- load this;;
  match _st s with
  | fulfilled =>
    ref <- get_value this;;
    emit (EvDispatch this (_done s) (Bundle (_value s)));;
    Runnable_SetValue (State_SetValue fuel) (State_SetException fuel) (_done s) ref
  | _ => ret tt
  end.

Definition State_SetFail (fuel : nat) (this : addr) (fail : option ptr) : M unit :=
  modify this (set_fail fail);;
  s <- load this;;
  match _st s with
  | rejected =>
    x <- get_exception this;;
    emit (EvDispatch this (_fail s) (Error x));;
    Runnable_SetException (State_SetValue fuel) (State_SetException fuel) (_fail s) x
  | _ => ret tt
  end.

Definition State_SetFunc (fuel : nat) (this : addr) (done fail : option ptr) : M unit :=
  modify this (set_done done);;
  modify this (set_fail fail);;
  s <- load this;;
  match _st s with
  | fulfilled =>
    ref <- get_value this;;
    emit (EvDispatch this (_done s) (Bundle (_value s)));;
    Runnable_SetValue (State_SetValue fuel) (State_SetException fuel) (_done s) ref
  | rejected =>
    x <- get_exception this;;
    emit (EvDispatch this (_fail s) (Error x));;
    Runnable_SetException (State_SetValue fuel) (State_SetException fuel) (_fail s) x
  | pending => ret tt
  end.

Definition State_Reset (this : addr) : M unit :=
  s <- load this;;
  delete (_done s);;
  delete (_fail s);;
  modify this (set_st pending);;
  modify this (set_done None);;
  modify this (set_fail None);;
  modify this (set_e None).

(** [~State() { Reset(); }] *)
Definition State_destroy (this : addr) : M unit := State_Reset this.

Definition Deffered_Reset (d : addr) : M unit := State_Reset d.

(** ** [Promise]: the chaining operators (lines 176-218) *)

Definition Promise_Then (fuel : nat) (this : addr) (func : continuation tuple) : M addr :=
  dollar <- Deffered_new (cret func);;
  done <- new_Runnable (Resolver (then_done func dollar));;
  fail <- new_Runnable (Rejecter (then_fail dollar));;
  State_SetFunc fuel this (Some done) (Some fail);;
  ret (Deffered_GetPromise dollar).

Definition Promise_Exception (fuel : nat) (this : addr) (func : continuation SException) : M addr :=
  dollar <- Deffered_new (cret func);;
  fail <- new_Runnable (Rejecter (exception_fail func dollar));;
  State_SetFail fuel this (Some fail);;
  ret (Deffered_GetPromise dollar).

Definition Promise_Finally (fuel : nat) (this : addr) (func : terminal) : M unit :=
  done <- new_Runnable (Resolver (finally_done func));;
  fail <- new_Runnable (Rejecter (finally_fail func));;
  State_SetFunc fuel this (Some done) (Some fail).

(** ** The driver: [TestException] and [main] *)

Definition TestException (s : string) : exception := mk_exception s.

(** [assert(c); rest] inside a caller's function. *)
Definition assert {R} (c : bool) (rest : effect R) : effect R :=
  if c then rest else ([], None).

Definition returns {R} (r : R) : effect R := ([], Some r).

Definition prints {R} (line : string) (rest : effect R) : effect R :=
  (line :: fst rest, snd rest).

Definition is_int (z : Z) (v : val) : bool :=
  match v with VInt x => Z.eqb x z | VStr _ => false end.

Definition is_str (s : string) (v : val) : bool :=
  match v with VStr x => String.eqb x s | VInt _ => false end.

Definition what_is (s : string) (e : SException) : bool :=
  match e with Some x => String.eqb (what x) s | None => false end.

Definition present (e : SException) : bool :=
  match e with Some _ => true | None => false end.

(** The six lambdas of [main], in the order of the chain.  The driver
    writes the parameter of the last two as [std::exception *e], the
    interface of the header before [SException]; here they take the
    [SException] that lines 58 and 200 pass, with [e] for "not null" and
    [e->what()] read through it.  The line the third one would print ends
    with the number it was given; that number is left out. *)
Definition lambda1 : continuation tuple :=
  mk_continuation "then1" [TInt; TInt]
    (fun args =>
       match args with
       | [num; str] =>
         assert (is_int 100 num) (assert (is_str "PromiseDemo" str)
           (returns (Ready [VInt 100; VInt 200])))
       | _ => ([], None)
       end).

Definition lambda2 : continuation tuple :=
  mk_continuation "then2" [TInt]
    (fun args =>
       match args with
       | [x; y] =>
         assert (is_int 100 x) (assert (is_int 200 y)
           (returns (Failed (Some (TestException "NonExcep")))))
       | _ => ([], None)
       end).

Definition lambda3 : continuation tuple :=
  mk_continuation "then3" [TInt]
    (fun args =>
       prints "should not get here" (assert false (returns (Ready args)))).

Definition lambda4 : continuation SException :=
  mk_continuation "exception4" []
    (fun e =>
       assert (present e) (assert (what_is "NonExcep" e) (returns (Ready [])))).

Definition lambda5 : continuation tuple :=
  mk_continuation "then5" []
    (fun _ => returns (Failed (Some (TestException "TestString Exception")))).

Definition lambda6 : terminal :=
  mk_terminal "finally6"
    (fun e =>
       assert (present e)
         (if present e
          then assert (what_is "TestString Exception" e)
                 (prints "test succ" (returns tt))
          else prints "Finally No exception" (prints "test fail" (returns tt)))).

Definition main (fuel : nat) : M unit :=
  fut <- MakeReadyPromise (State_SetValue fuel) [TInt; TString]
           [VInt 100; VStr "PromiseDemo"];;
  p1 <- Promise_Then fuel fut lambda1;;
  p2 <- Promise_Then fuel p1 lambda2;;
  p3 <- Promise_Then fuel p2 lambda3;;
  p4 <- Promise_Exception fuel p3 lambda4;;
  p5 <- Promise_Then fuel p4 lambda5;;
  Promise_Finally fuel p5 lambda6.


(** ** Reading the trace *)

(** The arguments of the calls of the caller's functions of a given name,
    in the order of the calls. *)
Definition then_calls (name : string) (tr : list event) : list tuple :=
  omap (fun ev => match ev with
                  | EvThen n args => if String.eqb n name then Some args else None
                  | _ => None
                  end) tr.

Definition exception_calls (name : string) (tr : list event) : list SException :=
  omap (fun ev => match ev with
                  | EvException n e => if String.eqb n name then Some e else None
                  | _ => None
                  end) tr.

Definition finally_calls (name : string) (tr : list event) : list SException :=
  omap (fun ev => match ev with
                  | EvFinally n e => if String.eqb n name then Some e else None
                  | _ => None
                  end) tr.

Definition printed (tr : list event) : list string :=
  omap (fun ev => match ev with EvPrint s => Some s | _ => None end) tr.

(** The payloads the runnable behind a pointer was called with. *)
Definition dispatches (q : ptr) (tr : list event) : list payload :=
  omap (fun ev => match ev with
                  | EvDispatch _ (Some p) x => if Nat.eqb p q then Some x else None
                  | _ => None
                  end) tr.

(** The payloads the state at an address was settled with. *)
Definition settlements (a : addr) (tr : list event) : list payload :=
  omap (fun ev => match ev with
                  | EvSettle b x => if Nat.eqb b a then Some x else None
                  | _ => None
                  end) tr.

(** The calls the state at an address made to its continuations. *)
Definition calls_of (a : addr) (tr : list event) : list (option ptr * payload) :=
  omap (fun ev => match ev with
                  | EvDispatch b p x => if Nat.eqb b a then Some (p, x) else None
                  | _ => None
                  end) tr.

(** ** Outcomes and sample heaps used in the statements *)

(** The outcome of a caller's function body. *)
Definition outcome_of {R} (x : effect R) : res R :=
  match snd x with Some r => Done r | None => Trap assert_caller end.

(** A stage made ready with the bundle (100, 200). *)
Definition ready_ints : Heap :=
  snd (MakeReadyPromise (State_SetValue 1) [TInt; TInt] [VInt 100; VInt 200] empty_heap).

(** A stage made ready with an error. *)
Definition ready_error : Heap :=
  snd (MakeException (State_SetException 1) [TInt] (Some (TestException "E")) empty_heap).

(** The heap [h] with the state at [a] replaced. *)
Definition with_state (h : Heap) (a : addr) (s : State) : Heap :=
  mk_Heap (<[a := s]> (states h)) (runnables h) (trace h).

(** A stage made ready with the bundle (1). *)
Definition ready_one : Heap :=
  snd (MakeReadyPromise (State_SetValue 1) [TInt] [VInt 1] empty_heap).

(** A terminal function that does nothing. *)
Definition ignore (name : string) : terminal :=
  mk_terminal name (fun _ => returns tt).

(** The runnable store after [delete] of a slot. *)
Definition freed (slot : option ptr) (rs : list (option Runnable)) :
  list (option Runnable) :=
  match slot with Some q => <[q := None]> rs | None => rs end.

(** A slot is null or points to a runnable that was not deleted. *)
Definition live (rs : list (option Runnable)) (slot : option ptr) : Prop :=
  match slot with
  | Some q => exists r, rs !! q = Some (Some r)
  | None => True
  end.

(** A runnable that is allocated, not deleted, and in no slot of any
    state: nothing can call or delete it any more. *)
Definition referenced (h : Heap) (q : ptr) : bool :=
  existsb (fun s => bool_decide (_done s = Some q) || bool_decide (_fail s = Some q))
          (states h).

Definition allocated (h : Heap) (q : ptr) : bool :=
  match runnables h !! q with Some (Some _) => true | _ => false end.

Definition leaked (h : Heap) (q : ptr) : bool :=
  allocated h q && negb (referenced h q).

(** A pending stage on which [Finally] was called twice. *)
Definition finally_twice : Heap :=
  snd ((p <- Promise_new [TInt];;
        Promise_Finally 0 p (ignore "first");;
        Promise_Finally 0 p (ignore "second")) empty_heap).

(** ** Programs over the public interface *)

(** One call of the interface of the header; facades and producer handles
    are the addresses of their states. *)
Inductive op :=
| OpDeffered (ts : list ty)
| OpMakeReadyPromise (ts : list ty) (values : tuple)
| OpMakeException (ts : list ty) (e : SException)
| OpSetValue (d : addr) (value : tuple)
| OpSetException (d : addr) (e : SException)
| OpReset (d : addr)
| OpGetStatus (p : addr)
| OpGetValue (p : addr)
| OpGetException (p : addr)
| OpThen (p : addr) (func : continuation tuple)
| OpException (p : addr) (func : continuation SException)
| OpFinally (p : addr) (func : terminal).

(** A handle is a shared pointer to a state that exists: a call through
    an address that is not allocated is not run. *)
Definition handle (a : addr) : M unit :=
  _ <- load a;;
  ret tt.

Definition run_op (fuel : nat) (o : op) : M unit :=
  match o with
  | OpDeffered ts => _ <- Deffered_new ts;; ret tt
  | OpMakeReadyPromise ts values =>
    _ <- MakeReadyPromise (State_SetValue fuel) ts values;; ret tt
  | OpMakeException ts e =>
    _ <- MakeException (State_SetException fuel) ts e;; ret tt
  | OpSetValue d value =>
    handle d;; Deffered_SetValue (State_SetValue fuel) d value
  | OpSetException d e =>
    handle d;; Deffered_SetException (State_SetException fuel) d e
  | OpReset d => handle d;; Deffered_Reset d
  | OpGetStatus p => handle p;; _ <- Promise_GetStatus p;; ret tt
  | OpGetValue p => handle p;; _ <- Promise_GetValue p;; ret tt
  | OpGetException p => handle p;; _ <- Promise_GetException p;; ret tt
  | OpThen p func => handle p;; _ <- Promise_Then fuel p func;; ret tt
  | OpException p func => handle p;; _ <- Promise_Exception fuel p func;; ret tt
  | OpFinally p func => handle p;; Promise_Finally fuel p func
  end.

Fixpoint run_ops (fuel : nat) (os : list op) : M unit :=
  match os with
  | [] => ret tt
  | o :: os' => run_op fuel o;; run_ops fuel os'
  end.

(** ** Well-formed heaps *)

(** The stage a lambda settles, if any. *)
Definition target_of_value (f : value_func) : option addr :=
  match f with
  | then_done _ dollar => Some dollar
  | finally_done _ => None
  end.

Definition target_of_error (f : error_func) : option addr :=
  match f with
  | then_fail dollar | exception_fail _ dollar => Some dollar
  | finally_fail _ => None
  end.

(** A target lies after the state that holds the runnable, and exists. *)
Definition later (h : Heap) (a : addr) (t : option addr) : Prop :=
  forall d, t = Some d -> a < d /\ d < length (states h).

(** What a success slot may hold: null, or a pointer the store knows,
    behind which there is, unless it was deleted, a [Resolver] whose
    target lies later; likewise a failure slot and [Rejecter]. *)
Definition done_ok (h : Heap) (a : addr) (slot : option ptr) : Prop :=
  forall q, slot = Some q ->
  exists x, runnables h !! q = Some x /\
    forall r, x = Some r ->
    exists f, r = Resolver f /\ later h a (target_of_value f).

Definition fail_ok (h : Heap) (a : addr) (slot : option ptr) : Prop :=
  forall q, slot = Some q ->
  exists x, runnables h !! q = Some x /\
    forall r, x = Some r ->
    exists f, r = Rejecter f /\ later h a (target_of_error f).

Definition wf (h : Heap) : Prop :=
  forall a s, states h !! a = Some s ->
  done_ok h a (_done s) /\ fail_ok h a (_fail s).

(** A trap that is one of the two [assert(0)] of the runnables. *)
Definition library_assert (t : trap) : Prop :=
  t = assert_Resolver_SetException \/ t = assert_Rejecter_SetValue.

(** A slot of the state at [a] holds the pointer [p], which is not null. *)
Definition holds (h : Heap) (a : addr) (p : option ptr) : Prop :=
  exists s q, states h !! a = Some s /\ p = Some q /\ (_done s = p \/ _fail s = p).

(** An event that settling the state at [b] may cause in heap [h]: it is
    about a state at [b] or later, and a call of a continuation is a call
    of what a slot of the calling state holds. *)
Definition legit (h : Heap) (b : addr) (ev : event) : Prop :=
  match ev with
  | EvSettle a _ => b <= a
  | EvDispatch a p _ => b <= a /\ holds h a p
  | _ => True
  end.

(** What settling the state at [b] may change: states before [b] and all
    slots and runnables stay, new states have null slots, and the trace
    grows by legitimate events. *)
Record frame (b : addr) (h h' : Heap) : Prop := mk_frame {
  frame_length : length (states h) <= length (states h');
  frame_runnables : runnables h' = runnables h;
  frame_below : forall a, a < b -> states h' !! a = states h !! a;
  frame_slots : forall a s, states h !! a = Some s ->
    exists s', states h' !! a = Some s' /\ _done s' = _done s /\ _fail s' = _fail s;
  frame_fresh : forall a s', length (states h) <= a -> states h' !! a = Some s' ->
    _done s' = None /\ _fail s' = None;
  frame_trace : exists evs, trace h' = trace h ++ evs /\ Forall (legit h b) evs }.

(** ** Specifications

    [ends I Q out]: a run that returned left a heap and a value in [Q];
    a run that stopped left a heap in [I] and did not stop at an
    [assert(0)] of the library. *)
Definition ends {A} (I : Heap -> Prop) (Q : A -> Heap -> Prop)
    (out : res A * Heap) : Prop :=
  match out with
  | (Done x, h) => Q x h
  | (Trap t, h) => I h /\ ~ library_assert t
  | (OutOfFuel, h) => I h
  end.

Definition triple {A} (I P : Heap -> Prop) (c : M A) (Q : A -> Heap -> Prop) : Prop :=
  forall h, P h -> ends I Q (c h).

(** A fact about a heap that settling the state at [b] cannot undo. *)
Definition stable (b : addr) (F : Heap -> Prop) : Prop :=
  forall h h', frame b h h' -> F h -> F h'.

(** Behind the pointer [q] there is, unless it was deleted, a [Resolver]
    (a [Rejecter]) whose target exists and is at [b] or later. *)
Definition calls_value (h : Heap) (b : addr) (q : ptr) : Prop :=
  forall r, runnables h !! q = Some (Some r) ->
  exists f, r = Resolver f /\
    forall d, target_of_value f = Some d -> b <= d /\ d < length (states h).

Definition calls_error (h : Heap) (b : addr) (q : ptr) : Prop :=
  forall r, runnables h !! q = Some (Some r) ->
  exists f, r = Rejecter f /\
    forall d, target_of_error f = Some d -> b <= d /\ d < length (states h).

(** [sound b P c Q]: from a well-formed heap in [P], the run of [c]
    leaves a well-formed heap, changes it as settling the state at [b]
    may, does not stop at an [assert(0)] of the library, and returns
    values in [Q]. *)
Definition sound {A} (b : addr) (P : Heap -> Prop) (c : M A)
    (Q : A -> Heap -> Prop) : Prop :=
  forall h, wf h -> P h ->
  wf (snd (c h)) /\ frame b h (snd (c h)) /\
  match fst (c h) with
  | Done x => Q x (snd (c h))
  | Trap t => ~ library_assert t
  | OutOfFuel => True
  end.

(** Heaps after one primitive step. *)
Definition with_events (h : Heap) (evs : list event) : Heap :=
  mk_Heap (states h) (runnables h) (trace h ++ evs).

Definition with_new_state (h : Heap) (s : State) : Heap :=
  mk_Heap (states h ++ [s]) (runnables h) (trace h).

Definition with_new_runnable (h : Heap) (r : Runnable) : Heap :=
  mk_Heap (states h) (runnables h ++ [Some r]) (trace h).

(** The heap in which a continuation of the state at [this] starts: the
    state is pending again, with the given slots, its bundle moved from
    (or its error moved out), and the trace has grown by [evs]. *)
Definition consumed_value (h : Heap) (this : addr) (s : State)
    (done fail : option ptr) (v : tuple) (evs : list event) : Heap :=
  mk_Heap
    (<[this := mk_State pending done fail (map moved_from v) (_e s)]> (states h))
    (runnables h) (trace h ++ evs).

Definition consumed_error (h : Heap) (this : addr) (s : State)
    (done fail : option ptr) (evs : list event) : Heap :=
  mk_Heap
    (<[this := mk_State pending done fail (_value s) None]> (states h))
    (runnables h) (trace h ++ evs).

(** A pending stage on which [Finally] was called once. *)
Definition finally_once : Heap :=
  snd ((p <- Promise_new [TInt];; Promise_Finally 0 p (ignore "first")) empty_heap).

(** ** A stalled stage *)

(** An event that neither settles the state at [n] nor calls the runnable
    behind [pw]. *)
Definition calm (n : addr) (pw : ptr) (ev : event) : Prop :=
  match ev with
  | EvSettle a _ => a <> n
  | EvDispatch _ p _ => p <> Some pw
  | _ => True
  end.

(** The state [s] holds a success continuation (a failure continuation)
    that settles the stage at [t]. *)
Definition resolves (h : Heap) (s : State) (t : addr) : Prop :=
  exists q f, _done s = Some q /\ runnables h !! q = Some (Some (Resolver f)) /\
              target_of_value f = Some t.

Definition rejects (h : Heap) (s : State) (t : addr) : Prop :=
  exists q f, _fail s = Some q /\ runnables h !! q = Some (Some (Rejecter f)) /\
              target_of_error f = Some t.

Definition aims (h : Heap) (s : State) (t : addr) : Prop :=
  resolves h s t \/ rejects h s t.

(** A set [Q] of stages that settles only its own: no continuation of a
    stage of [Q] settles a stage outside [Q]. *)
Definition closed (Q : addr -> Prop) (h : Heap) : Prop :=
  forall a s t, states h !! a = Some s -> Q a -> aims h s t -> Q t.

(** The stages apart from the one at [n]: those made after it, and those
    of [Q] made before it. *)
Definition apart (Q : addr -> Prop) (n : addr) (a : addr) : Prop :=
  n < a \/ (a < n /\ Q a).

(** The stage at [n] was made by [Exception] on the stage at [c], which
    did not reject: [n] is pending, the runnable [pw] that would settle it
    is at most in the failure slot of [c], the stages apart, which leave
    out [c], settle only stages apart, and since the trace was [tr0]
    nothing settled [n] or called [pw]. *)
Record stalled (Q : addr -> Prop) (c n : addr) (pw : ptr) (tr0 : list event)
    (h : Heap) : Prop := mk_stalled {
  stalled_wf : wf h;
  stalled_order : c < n;
  stalled_pending : exists sn, states h !! n = Some sn /\ _st sn = pending;
  stalled_source : exists sc,
    states h !! c = Some sc /\ _st sc <> rejected /\ _done sc <> Some pw;
  stalled_slots : forall a sa, states h !! a = Some sa -> a <> c ->
    _done sa <> Some pw /\ _fail sa <> Some pw;
  stalled_ptr : pw < length (runnables h);
  stalled_out : ~ Q c;
  stalled_apart : closed (apart Q n) h;
  stalled_trace : exists evs, trace h = tr0 ++ evs /\ Forall (calm n pw) evs }.

(** The calls that leave the stall alone: every call but a [Deffered]
    settling a stage that is not apart. *)
Definition leaves (Q : addr -> Prop) (n : addr) (o : op) : Prop :=
  match o with
  | OpSetValue d _ | OpSetException d _ => apart Q n d
  | _ => True
  end.

(** The heap after [Exception(func)] was called on the stage at [c],
    where the state at [c] is then [s']: a new default state, a new
    [Rejecter] holding [func], and the trace grown by [evs]. *)
Definition registered (h : Heap) (c : addr) (s' : State)
    (func : continuation SException) (evs : list event) : Heap :=
  with_events
    (with_state
       (with_new_runnable
          (with_new_state h (State_default (cret func)))
          (Rejecter (exception_fail func (length (states h)))))
       c s')
    evs.

(** A function that only returns an empty ready facade. *)
Definition recover : continuation SException :=
  mk_continuation "recover" [] (fun _ => returns (Ready [])).

(** Two chains that do not meet: a pending [Deffered] with a [Then]
    stage after it (the states at 0 and 1), and a stage made ready with
    (100, 200) (the state at 2). *)
Definition two_chains : Heap :=
  snd (run_ops 1
         [OpDeffered [TInt];
          OpThen 0 (mk_continuation "next" [] (fun _ => returns (Ready [])));
          OpMakeReadyPromise [TInt; TInt] [VInt 100; VInt 200]]
         empty_heap).

(** ** Runs that end well *)

(** A slot of the state holds the pointer. *)
Definition slot_of (s : State) (q : ptr) : Prop :=
  _done s = Some q \/ _fail s = Some q.

(** Every continuation that a state holds is allocated: no slot points
    to a deleted runnable or outside the store. *)
Definition alive (h : Heap) : Prop :=
  forall a s q, states h !! a = Some s -> slot_of s q ->
  exists r, runnables h !! q = Some (Some r).

(** No continuation that a state holds settles a stage at [L] or later. *)
Definition bounded (L : nat) (h : Heap) : Prop :=
  forall a s t, states h !! a = Some s -> aims h s t -> t < L.

Definition chain_ok (L : nat) (h : Heap) : Prop :=
  alive h /\ bounded L h /\ L <= length (states h).

(** Behind [q] there is a [Resolver] (a [Rejecter]) whose target, if it
    has one, exists and lies from [lo] on and before [L]. *)
Definition resolver_in (h : Heap) (q : ptr) (lo L : nat) : Prop :=
  exists f, runnables h !! q = Some (Some (Resolver f)) /\
    forall d, target_of_value f = Some d ->
    lo <= d /\ d < L /\ d < length (states h).

Definition rejecter_in (h : Heap) (q : ptr) (lo L : nat) : Prop :=
  exists f, runnables h !! q = Some (Some (Rejecter f)) /\
    forall d, target_of_error f = Some d ->
    lo <= d /\ d < L /\ d < length (states h).

(** [total fine b P c Q]: from a well-formed heap in [P], the run of [c]
    leaves a well-formed heap, changes it as settling the state at [b]
    may, and either returns a value in [Q], or stops at an [assert] of a
    caller's function, or, but only if [fine] does not hold, runs out of
    fuel.  It does not stop at a bad pointer or at an [assert(0)] of the
    library. *)
Definition total {A} (fine : Prop) (b : addr) (P : Heap -> Prop) (c : M A)
    (Q : A -> Heap -> Prop) : Prop :=
  forall h, wf h -> P h ->
  wf (snd (c h)) /\ frame b h (snd (c h)) /\
  match fst (c h) with
  | Done x => Q x (snd (c h))
  | Trap t => t = assert_caller
  | OutOfFuel => ~ fine
  end.

(** Each runnable that a slot holds is allocated and is held by that slot
    alone. *)
Definition owned (h : Heap) : Prop :=
  alive h /\
  (forall a s q, states h !! a = Some s -> _done s = Some q -> _fail s <> Some q) /\
  (forall a a' s s' q, states h !! a = Some s -> states h !! a' = Some s' ->
     slot_of s q -> slot_of s' q -> a = a').

(** How a call of the interface may end: it returns, or an [assert] of a
    caller's function fails, or, but only if [fine] does not hold, it
    runs out of fuel. *)
Definition ends_well {A} (fine : Prop) (Q : A -> Heap -> Prop)
    (out : res A * Heap) : Prop :=
  match out with
  | (Done x, h) => Q x h
  | (Trap t, _) => t = assert_caller
  | (OutOfFuel, _) => ~ fine
  end.

(** The handle a call goes through, and the number of states it
    allocates at least. *)
Definition handle_of (o : op) : option addr :=
  match o with
  | OpDeffered _ | OpMakeReadyPromise _ _ | OpMakeException _ _ => None
  | OpSetValue d _ | OpSetException d _ | OpReset d => Some d
  | OpGetStatus p | OpGetValue p | OpGetException p => Some p
  | OpThen p _ | OpException p _ | OpFinally p _ => Some p
  end.

Definition makes (o : op) : nat :=
  match o with
  | OpDeffered _ | OpMakeReadyPromise _ _ | OpMakeException _ _
  | OpThen _ _ | OpException _ _ => 1
  | _ => 0
  end.

(** Every call of the program goes through the handle of a state that
    an earlier call has made for sure, [known] states being there at the
    start. *)
Fixpoint handles_ok (known : nat) (os : list op) : bool :=
  match os with
  | [] => true
  | o :: os' =>
    match handle_of o with Some d => d <? known | None => true end
    && handles_ok (known + makes o) os'
  end.

(** What a call of the interface keeps: the heap is well formed, its
    slots own their runnables, and the [known] states are there. *)
Definition kept (known : nat) (h : Heap) : Prop :=
  wf h /\ owned h /\ known <= length (states h).

(** The handle of the call is the address of a state. *)
Definition valid_handle (h : Heap) (o : op) : Prop :=
  match handle_of o with Some d => d < length (states h) | None => True end.

(** Fuel that is enough for a call: settling through a [Deffered] may
    go through every state from the settled one to the end of the store;
    a factory and an operator settle, at most, states they have just
    allocated; the other calls settle nothing. *)
Definition fuel_for (h : Heap) (o : op) : nat :=
  match o with
  | OpSetValue d _ | OpSetException d _ => Nat.max 1 (length (states h) - d)
  | OpMakeReadyPromise _ _ | OpMakeException _ _
  | OpThen _ _ | OpException _ _ | OpFinally _ _ => 1
  | _ => 0
  end.

(** * Reasoning about runs *)

(** ** Running a computation step by step *)

Lemma bind_run {A B} (m : M A) (k : A -> M B) h a h' :
  m h = (Done a, h') -> bind m k h = k a h'.
Proof. intros E. unfold bind. now rewrite E. Qed.

Lemma bind_assoc {A B C} (m : M A) (k1 : A -> M B) (k2 : B -> M C) h :
  bind (bind m k1) k2 h = bind m (fun x => bind (k1 x) k2) h.
Proof. unfold bind. destruct (m h) as [[a| |] h']; reflexivity. Qed.

Lemma run_load h a s : states h !! a = Some s -> load a h = (Done s, h).
Proof. intros E. unfold load. now rewrite E. Qed.

Lemma run_modify h a s f :
  states h !! a = Some s ->
  modify a f h = (Done tt, mk_Heap (<[a := f s]> (states h)) (runnables h) (trace h)).
Proof. intros E. unfold modify. now rewrite E. Qed.

Lemma run_deref h p r : runnables h !! p = Some (Some r) -> deref p h = (Done r, h).
Proof. intros E. unfold deref. now rewrite E. Qed.

Lemma run_delete h q r :
  runnables h !! q = Some (Some r) ->
  delete (Some q) h = (Done tt, mk_Heap (states h) (<[q := None]> (runnables h)) (trace h)).
Proof. intros E. unfold delete. now rewrite E. Qed.

Lemma run_call {R} (x : effect R) h :
  call x h =
    (outcome_of x, mk_Heap (states h) (runnables h) (trace h ++ map EvPrint (fst x))).
Proof. unfold call, outcome_of. destruct x as [out [r|]]; reflexivity. Qed.

(** The equations of the two settling methods. *)
Lemma State_SetValue_eq k this value :
  State_SetValue (S k) this value =
  (emit (EvSettle this (Bundle value));;
   modify this (set_st fulfilled);;
   modify this (set_value value);;
   s <- load this;;
   match _done s with
   | Some _ =>
     ref <- get_value this;;
     emit (EvDispatch this (_done s) (Bundle value));;
     Runnable_SetValue (State_SetValue k) (State_SetException k) (_done s) ref
   | None => ret tt
   end).
Proof. reflexivity. Qed.

Lemma State_SetException_eq k this e :
  State_SetException (S k) this e =
  (emit (EvSettle this (Error e));;
   modify this (set_st rejected);;
   modify this (set_e e);;
   s <- load this;;
   match _fail s with
   | Some _ =>
     x <- get_exception this;;
     emit (EvDispatch this (_fail s) (Error x));;
     Runnable_SetException (State_SetValue k) (State_SetException k) (_fail s) x
   | None => ret tt
   end).
Proof. reflexivity. Qed.

(** Objects allocated last sit at the end of their store. *)
Section fresh.
Context {A : Type}.
Implicit Types l k : list A.

Lemma lookup_fresh0 l k x n : n = length l -> (l ++ x :: k) !! n = Some x.
Proof. apply list_lookup_middle. Qed.

Lemma lookup_fresh1 l k x y n :
  n = length l -> (l ++ x :: y :: k) !! S n = Some y.
Proof.
  intros ->. change (l ++ x :: y :: k) with (l ++ [x] ++ y :: k).
  rewrite app_assoc. apply list_lookup_middle. rewrite length_app. simpl. lia.
Qed.

Lemma insert_fresh0 l k x y n :
  n = length l -> <[n := y]> (l ++ x :: k) = l ++ y :: k.
Proof.
  intros ->. replace (length l) with (length l + 0) by lia.
  now rewrite insert_app_r.
Qed.

Lemma insert_fresh1 l k x y z n :
  n = length l -> <[S n := z]> (l ++ x :: y :: k) = l ++ x :: z :: k.
Proof.
  intros ->. replace (S (length l)) with (length l + 1) by lia.
  now rewrite insert_app_r.
Qed.
End fresh.

Ltac len :=
  repeat (rewrite length_insert || rewrite length_app); simpl length; lia.

Ltac look :=
  repeat first
    [ rewrite list_lookup_insert_eq by len
    | rewrite list_lookup_insert_ne by lia
    | rewrite lookup_fresh0 by (symmetry; len)
    | rewrite lookup_fresh1 by (symmetry; len)
    | rewrite lookup_app_l by len ].

Ltac solve_lookup :=
  cbn [states runnables trace]; look; first [reflexivity | eassumption].

Ltac prim :=
  first [ apply run_load; solve_lookup
        | apply run_modify; solve_lookup
        | apply run_deref; solve_lookup
        | eapply run_delete; solve_lookup
        | reflexivity ].

Ltac tidy :=
  cbv beta iota delta
    [states runnables trace fst snd _st _done _fail _value _e
     set_st set_done set_fail set_value set_e State_default];
  repeat first
    [ rewrite list_insert_insert_eq
    | rewrite insert_app_l by len
    | rewrite insert_fresh0 by (symmetry; len)
    | rewrite insert_fresh1 by (symmetry; len)
    | rewrite <- app_assoc
    | rewrite length_app
    | rewrite Nat.add_succ_r
    | rewrite Nat.add_0_r ];
  cbn [app length].

Ltac step :=
  first [ rewrite bind_assoc
        | erewrite bind_run by prim
        | rewrite State_SetValue_eq
        | rewrite State_SetException_eq
        | erewrite run_modify by solve_lookup
        | erewrite run_load by solve_lookup
        | erewrite run_deref by solve_lookup
        | erewrite run_delete by solve_lookup ];
  tidy.

Ltac run := repeat step.

(** The methods that are plain sequences of other calls. *)
Create HintDb promise.
#[local] Hint Unfold
  get_value get_exception move_tuple
  Deffered_new Deffered_GetPromise Deffered_SetValue Deffered_SetException
  Deffered_Reset Promise_new Promise_GetStatus Promise_GetValue
  Promise_GetException MakeReadyPromise MakeException make_facade forward
  run_value_func run_error_func Runnable_SetValue Runnable_SetException
  State_SetDone State_SetFail State_SetFunc State_Reset State_destroy
  Promise_Then Promise_Exception Promise_Finally : promise.

Ltac exec := repeat (progress (autounfold with promise; run)).

(** Records that the indices of the lookups at hand are in range. *)
Ltac bounds :=
  repeat match goal with
         | H : ?l !! ?a = Some _ |- _ =>
           lazymatch goal with
           | _ : a < length l |- _ => fail
           | _ => pose proof (lookup_lt_Some _ _ _ H)
           end
         end.

(** Opens a heap and a state of it, keeping the methods folded. *)
Ltac open h s :=
  let sts := fresh "sts" in
  let rs := fresh "rs" in
  let tr := fresh "tr" in
  destruct h as [sts rs tr];
  destruct s as [? ? ? ? ?];
  cbn [states runnables trace _st _done _fail _value _e] in *;
  subst;
  bounds.

(** ** Settling a state that has no continuation, and the factories *)

Lemma State_SetValue_idle k h this s value :
  states h !! this = Some s -> _done s = None ->
  State_SetValue (S k) this value h =
    (Done tt, mk_Heap (<[this := set_value value (set_st fulfilled s)]> (states h))
                (runnables h) (trace h ++ [EvSettle this (Bundle value)])).
Proof.
  intros Hs Hd. open h s.
  run. reflexivity.
Qed.

Lemma State_SetException_idle k h this s e :
  states h !! this = Some s -> _fail s = None ->
  State_SetException (S k) this e h =
    (Done tt, mk_Heap (<[this := set_e e (set_st rejected s)]> (states h))
                (runnables h) (trace h ++ [EvSettle this (Error e)])).
Proof.
  intros Hs Hd. open h s.
  run. reflexivity.
Qed.

Lemma MakeReadyPromise_run k ts values h :
  MakeReadyPromise (State_SetValue (S k)) ts values h =
    (Done (length (states h)),
     mk_Heap (states h ++ [mk_State fulfilled None None values None])
       (runnables h) (trace h ++ [EvSettle (length (states h)) (Bundle values)])).
Proof.
  destruct h as [sts rs tr].
  unfold MakeReadyPromise, Deffered_new, Deffered_SetValue, Deffered_GetPromise.
  run. reflexivity.
Qed.

Lemma MakeException_run k ts e h :
  MakeException (State_SetException (S k)) ts e h =
    (Done (length (states h)),
     mk_Heap (states h ++ [mk_State rejected None None (default_tuple ts) e])
       (runnables h) (trace h ++ [EvSettle (length (states h)) (Error e)])).
Proof.
  destruct h as [sts rs tr].
  unfold MakeException, Deffered_new, Deffered_SetException, Deffered_GetPromise.
  run. reflexivity.
Qed.

(** ** The reads *)

Lemma Promise_GetValue_run h this s :
  states h !! this = Some s ->
  Promise_GetValue this h =
    (Done (_value s),
     mk_Heap (<[this := set_value (map moved_from (_value s)) (set_st pending s)]> (states h))
       (runnables h) (trace h)).
Proof.
  intros Hs. open h s.
  unfold Promise_GetValue, get_value, move_tuple. run. reflexivity.
Qed.

Lemma Promise_GetException_run h this s :
  states h !! this = Some s ->
  Promise_GetException this h =
    (Done (_e s),
     mk_Heap (<[this := set_e None (set_st pending s)]> (states h))
       (runnables h) (trace h)).
Proof.
  intros Hs. open h s.
  unfold Promise_GetException, get_exception. run. reflexivity.
Qed.

Lemma moved_from_twice v : moved_from (moved_from v) = moved_from v.
Proof. now destruct v. Qed.

Lemma map_moved_from_twice (v : tuple) :
  map moved_from (map moved_from v) = map moved_from v.
Proof.
  induction v as [|x v IH]; simpl; [reflexivity|].
  now rewrite moved_from_twice, IH.
Qed.

(** ** The reference chain *)

(** C1.  The driver's chain, run from the empty heap with any fuel that is
    not zero, returns (so every [assert] of the six lambdas held); the body
    of the third [Then] is never executed, the body of the zero-arity
    [Then] is executed exactly once, the function given to [Exception] is
    called once, with an error whose [what()] is "NonExcep", and the one
    given to [Finally] is called once, with a present error whose [what()]
    is "TestString Exception". *)
Theorem reference_chain fuel :
  let out := main (S fuel) empty_heap in
  fst out = Done tt /\
  then_calls "then3" (trace (snd out)) = [] /\
  then_calls "then5" (trace (snd out)) = [[]] /\
  exception_calls "exception4" (trace (snd out)) =
    [Some (TestException "NonExcep")] /\
  finally_calls "finally6" (trace (snd out)) =
    [Some (TestException "TestString Exception")] /\
  printed (trace (snd out)) = ["test succ"].
Proof.
  vm_compute. repeat split; reflexivity.
Qed.

(** ** Single consumption *)

(** C2, as stated, fails for a bundle of integers: after a first read of
    the value the stored bundle is still (100, 200), and a second read
    returns (100, 200) again, not an absent (value-initialised or empty)
    bundle. *)
Lemma second_value_read_sees_the_bundle :
  let h1 := snd (Promise_GetValue 0 ready_ints) in
  fst (Promise_GetValue 0 ready_ints) = Done [VInt 100; VInt 200] /\
  _value <$> states h1 !! 0 = Some [VInt 100; VInt 200] /\
  fst (Promise_GetValue 0 h1) = Done [VInt 100; VInt 200] /\
  [VInt 100; VInt 200] <> default_tuple [TInt; TInt] /\
  [VInt 100; VInt 200] <> [].
Proof. vm_compute. repeat split; congruence. Qed.

(** C2, amended.  Reading the error of a state returns the stored error,
    resets the status to pending and leaves the stored error null, so a
    second read returns null from a pending state.  Reading the value
    returns the stored bundle and resets the status to pending; the stored
    bundle is left moved-from (integers as they were, strings empty), and
    that is what a second read returns, from a pending state. *)
Theorem consuming_reads h this s :
  states h !! this = Some s ->
  let he := snd (Promise_GetException this h) in
  let hv := snd (Promise_GetValue this h) in
  fst (Promise_GetException this h) = Done (_e s) /\
  states he !! this = Some (set_e None (set_st pending s)) /\
  Promise_GetException this he = (Done None, he) /\
  fst (Promise_GetValue this h) = Done (_value s) /\
  states hv !! this =
    Some (set_value (map moved_from (_value s)) (set_st pending s)) /\
  Promise_GetValue this hv = (Done (map moved_from (_value s)), hv).
Proof.
  intros Hs he hv. subst he hv.
  rewrite (Promise_GetException_run h this s Hs), (Promise_GetValue_run h this s Hs).
  cbn [fst snd].
  pose proof (lookup_lt_Some _ _ _ Hs) as Hlt.
  repeat split.
  - cbn [states]. now rewrite list_lookup_insert_eq.
  - erewrite Promise_GetException_run
      by (cbn [states]; now rewrite list_lookup_insert_eq).
    cbn [states runnables trace]. rewrite list_insert_insert_eq.
    destruct s; reflexivity.
  - cbn [states]. now rewrite list_lookup_insert_eq.
  - erewrite Promise_GetValue_run
      by (cbn [states]; now rewrite list_lookup_insert_eq).
    cbn [states runnables trace]. rewrite list_insert_insert_eq.
    destruct s as [st d f v e].
    cbn [_value _st _done _fail _e set_value set_st].
    now rewrite map_moved_from_twice.
Qed.

Lemma consuming_reads_witness :
  fst (Promise_GetException 0 ready_error) = Done (Some (TestException "E")).
Proof.
  exact (proj1 (consuming_reads ready_error 0
                  (mk_State rejected None None [VInt 0] (Some (TestException "E")))
                  eq_refl)).
Defined.

(** ** [Then] on a rejected stage *)

Lemma Promise_Then_pending fuel h this s func :
  states h !! this = Some s -> _st s = pending ->
  Promise_Then fuel this func h =
    (Done (length (states h)),
     mk_Heap
       (<[this := set_fail (Some (S (length (runnables h))))
                    (set_done (Some (length (runnables h))) s)]> (states h)
        ++ [State_default (cret func)])
       (runnables h ++ [Some (Resolver (then_done func (length (states h))));
                        Some (Rejecter (then_fail (length (states h))))])
       (trace h)).
Proof.
  intros Hs Hst. open h s.
  exec. reflexivity.
Qed.

(** C3.  [Then(func)] on a stage that rejects with [E], whether the stage
    is already rejected when [Then] is called or is pending then and is
    rejected afterwards, returns a new stage (the state allocated last)
    that is settled once, with the error [E], and is left rejected with
    [E]; the stage calls the pass-through [Rejecter] with [E], and as no
    [EvThen] is recorded [func] is never called. *)
Theorem Then_passes_rejection fuel k h this s func E :
  states h !! this = Some s ->
  let n := length (states h) in
  let p := length (runnables h) in
  let after (evs : list event) :=
    (Done n,
     mk_Heap
       (<[this := mk_State pending (Some p) (Some (S p)) (_value s) None]> (states h)
        ++ [mk_State rejected None None (default_tuple (cret func)) E])
       (runnables h ++ [Some (Resolver (then_done func n));
                        Some (Rejecter (then_fail n))])
       (trace h ++ evs ++ [EvDispatch this (Some (S p)) (Error E);
                           EvSettle n (Error E)])) in
  (_st s = rejected -> _e s = E ->
   Promise_Then (S fuel) this func h = after []) /\
  (_st s = pending ->
   (r <- Promise_Then fuel this func;;
    State_SetException (S (S k)) this E;;
    ret r) h = after [EvSettle this (Error E)]).
Proof.
  intros Hs n p after. subst n p after. cbv beta. split.
  - intros Hst He. open h s. exec. reflexivity.
  - intros Hst.
    erewrite bind_run by (eapply Promise_Then_pending; eauto).
    open h s. exec. reflexivity.
Qed.

Lemma Then_passes_rejection_witness :
  let f := mk_continuation "f" [TInt] (fun _ => returns (Ready [VInt 7])) in
  then_calls "f" (trace (snd (Promise_Then 1 0 f ready_error))) = [] /\
  settlements 1 (trace (snd (Promise_Then 1 0 f ready_error))) =
    [Error (Some (TestException "E"))] /\
  _st <$> states (snd (Promise_Then 1 0 f ready_error)) !! 1 = Some rejected /\
  _e <$> states (snd (Promise_Then 1 0 f ready_error)) !! 1 =
    Some (Some (TestException "E")).
Proof.
  intros f.
  rewrite (proj1 (Then_passes_rejection 0 0 ready_error 0
                    (mk_State rejected None None [VInt 0] (Some (TestException "E")))
                    f (Some (TestException "E")) eq_refl) eq_refl eq_refl).
  vm_compute. repeat split; reflexivity.
Defined.

(** ** [Finally] *)

(** C5.  [Finally(func)] calls [func] exactly once whatever the outcome of
    the stage: with null, the bundle being dropped, when the stage is
    fulfilled, and with the error itself when it is rejected; this holds
    when the stage is settled already and when it is settled after
    [Finally] was called.  The trace grows by the one call the stage makes
    to its continuation, the one call of [func] and what [func] prints,
    and the result is the outcome of [func]. *)
Theorem Finally_fires_once fuel k h this s func :
  states h !! this = Some s ->
  let p := length (runnables h) in
  let rs' := runnables h ++ [Some (Resolver (finally_done func));
                             Some (Rejecter (finally_fail func))] in
  let after_value (evs : list event) (v : tuple) :=
    (outcome_of (tbody func None),
     mk_Heap
       (<[this := mk_State pending (Some p) (Some (S p)) (map moved_from v) (_e s)]>
          (states h))
       rs'
       (trace h ++ evs ++ EvDispatch this (Some p) (Bundle v)
                  :: EvFinally (tname func) None
                  :: map EvPrint (fst (tbody func None)))) in
  let after_error (evs : list event) (e : SException) :=
    (outcome_of (tbody func e),
     mk_Heap
       (<[this := mk_State pending (Some p) (Some (S p)) (_value s) None]> (states h))
       rs'
       (trace h ++ evs ++ EvDispatch this (Some (S p)) (Error e)
                  :: EvFinally (tname func) e
                  :: map EvPrint (fst (tbody func e)))) in
  (_st s = fulfilled ->
   Promise_Finally fuel this func h = after_value [] (_value s)) /\
  (_st s = rejected ->
   Promise_Finally fuel this func h = after_error [] (_e s)) /\
  (_st s = pending -> forall v,
   (Promise_Finally fuel this func;; State_SetValue (S k) this v) h =
   after_value [EvSettle this (Bundle v)] v) /\
  (_st s = pending -> forall e,
   (Promise_Finally fuel this func;; State_SetException (S k) this e) h =
   after_error [EvSettle this (Error e)] e).
Proof.
  intros Hs p rs' after_value after_error.
  subst p rs' after_value after_error. cbv beta.
  repeat split; intros Hst; intros; open h s; exec;
    rewrite run_call; tidy; reflexivity.
Qed.

Lemma Finally_fires_once_witness :
  let f := mk_terminal "h" (fun _ => returns tt) in
  finally_calls "h" (trace (snd (Promise_Finally 0 0 f ready_ints))) = [None] /\
  finally_calls "h" (trace (snd (Promise_Finally 0 0 f ready_error))) =
    [Some (TestException "E")].
Proof.
  intros f. split.
  - rewrite (proj1 (Finally_fires_once 0 0 ready_ints 0
                      (mk_State fulfilled None None [VInt 100; VInt 200] None)
                      f eq_refl) eq_refl).
    reflexivity.
  - rewrite (proj1 (proj2 (Finally_fires_once 0 0 ready_error 0
                      (mk_State rejected None None [VInt 0] (Some (TestException "E")))
                      f eq_refl)) eq_refl).
    reflexivity.
Defined.

(** ** Settling twice *)

(** C7, as stated, fails: settling a state that is fulfilled already
    returns normally, with no assertion, and overwrites the outcome. *)
Lemma second_settle_overwrites :
  states ready_one = [mk_State fulfilled None None [VInt 1] None] /\
  State_SetValue 1 0 [VInt 2] ready_one =
    (Done tt,
     mk_Heap [mk_State fulfilled None None [VInt 2] None] []
       [EvSettle 0 (Bundle [VInt 1]); EvSettle 0 (Bundle [VInt 2])]) /\
  State_SetException 1 0 (Some (TestException "E")) ready_one =
    (Done tt,
     mk_Heap [mk_State rejected None None [VInt 1] (Some (TestException "E"))] []
       [EvSettle 0 (Bundle [VInt 1]); EvSettle 0 (Error (Some (TestException "E")))]).
Proof. vm_compute. repeat split; reflexivity. Qed.

(** C7, amended.  Settling is not checked against the current status:
    what [SetValue] does is the same whatever status and bundle the state
    had, what [SetException] does is the same whatever status and error it
    had, and on a state without a continuation of that side both return
    normally with the new outcome stored. *)
Theorem settling_is_unchecked k h this s s' value e :
  states h !! this = Some s ->
  _done s' = _done s -> _fail s' = _fail s ->
  (_e s' = _e s ->
   State_SetValue (S k) this value (with_state h this s') =
   State_SetValue (S k) this value h) /\
  (_value s' = _value s ->
   State_SetException (S k) this e (with_state h this s') =
   State_SetException (S k) this e h) /\
  (_done s = None ->
   State_SetValue (S k) this value h =
   (Done tt,
    mk_Heap (<[this := mk_State fulfilled None (_fail s) value (_e s)]> (states h))
      (runnables h) (trace h ++ [EvSettle this (Bundle value)]))) /\
  (_fail s = None ->
   State_SetException (S k) this e h =
   (Done tt,
    mk_Heap (<[this := mk_State rejected (_done s) None (_value s) e]> (states h))
      (runnables h) (trace h ++ [EvSettle this (Error e)]))).
Proof.
  intros Hs Hd Hf. unfold with_state.
  destruct s' as [st' d' f' v' e']. cbn [_done _fail _e _value] in Hd, Hf.
  open h s.
  repeat split; intros Heq; cbn [_e _value] in Heq; subst; cbn [states runnables trace].
  - rewrite !State_SetValue_eq. run. reflexivity.
  - rewrite !State_SetException_eq. run. reflexivity.
  - run. reflexivity.
  - run. reflexivity.
Qed.

Lemma settling_is_unchecked_witness :
  State_SetValue 1 0 [VInt 2] ready_one =
    (Done tt,
     mk_Heap (<[0 := mk_State fulfilled None None [VInt 2] None]> (states ready_one))
       (runnables ready_one) (trace ready_one ++ [EvSettle 0 (Bundle [VInt 2])])).
Proof.
  exact (proj1 (proj2 (proj2
           (settling_is_unchecked 0 ready_one 0
              (mk_State fulfilled None None [VInt 1] None)
              (mk_State pending None None [] None)
              [VInt 2] None eq_refl eq_refl eq_refl))) eq_refl).
Defined.

(** ** Registering *)

Lemma State_SetDone_pending fuel h this s done :
  states h !! this = Some s -> _st s = pending ->
  State_SetDone fuel this done h = (Done tt, with_state h this (set_done done s)).
Proof. intros Hs Hst. unfold with_state. open h s. exec. reflexivity. Qed.

Lemma State_SetFail_pending fuel h this s fail :
  states h !! this = Some s -> _st s = pending ->
  State_SetFail fuel this fail h = (Done tt, with_state h this (set_fail fail s)).
Proof. intros Hs Hst. unfold with_state. open h s. exec. reflexivity. Qed.

Lemma State_SetFail_store fuel h this s fail :
  states h !! this = Some s -> _st s <> rejected ->
  State_SetFail fuel this fail h = (Done tt, with_state h this (set_fail fail s)).
Proof.
  intros Hs Hst. unfold with_state. open h s.
  destruct _st0; try congruence; exec; reflexivity.
Qed.

Lemma State_SetFunc_pending fuel h this s done fail :
  states h !! this = Some s -> _st s = pending ->
  State_SetFunc fuel this done fail h =
    (Done tt, with_state h this (set_fail fail (set_done done s))).
Proof. intros Hs Hst. unfold with_state. open h s. exec. reflexivity. Qed.

(** ** [Reset] *)

Lemma freed_lookup rs d f q :
  live rs d -> live (freed d rs) f ->
  d = Some q \/ f = Some q ->
  freed f (freed d rs) !! q = Some None.
Proof.
  intros Hd Hf Hq.
  destruct f as [f0|]; cbn [live freed] in Hf |- *.
  - destruct Hf as [x Hx].
    destruct (decide (f0 = q)) as [->|Hne].
    + apply list_lookup_insert_eq. eapply lookup_lt_Some; eauto.
    + rewrite list_lookup_insert_ne by exact Hne.
      destruct Hq as [->|Hq]; [|congruence].
      cbn [live freed] in Hd |- *. destruct Hd as [y Hy].
      apply list_lookup_insert_eq. eapply lookup_lt_Some; eauto.
  - destruct Hq as [->|Hq]; [|discriminate].
    cbn [live freed] in Hd |- *. destruct Hd as [y Hy].
    apply list_lookup_insert_eq. eapply lookup_lt_Some; eauto.
Qed.

(** C8, as stated, fails: [Reset] leaves the stored bundle as it was.
    After it the state made ready with (100, 200) is pending with both
    slots and the error null, and still stores (100, 200), which is not
    the value-initialised bundle. *)
Lemma Reset_keeps_the_bundle :
  fst (State_Reset 0 ready_ints) = Done tt /\
  states (snd (State_Reset 0 ready_ints)) =
    [mk_State pending None None [VInt 100; VInt 200] None] /\
  [VInt 100; VInt 200] <> default_tuple [TInt; TInt] /\
  [VInt 100; VInt 200] <> [].
Proof. vm_compute. repeat split; congruence. Qed.

(** C8, amended.  After [Reset] the status is pending, both slots are
    null, the runnables they pointed to are deleted and the stored error
    is null; the stored bundle is as it was, and so are the other states
    and the trace.  The destructor of the state does the same, being a
    call of [Reset]. *)
Theorem Reset_effect h this s :
  states h !! this = Some s ->
  live (runnables h) (_done s) ->
  live (freed (_done s) (runnables h)) (_fail s) ->
  let h' :=
    mk_Heap (<[this := mk_State pending None None (_value s) None]> (states h))
      (freed (_fail s) (freed (_done s) (runnables h))) (trace h) in
  State_Reset this h = (Done tt, h') /\
  State_destroy this h = (Done tt, h') /\
  states h' !! this = Some (mk_State pending None None (_value s) None) /\
  (forall q, _done s = Some q \/ _fail s = Some q -> runnables h' !! q = Some None).
Proof.
  intros Hs Hd Hf h'. subst h'.
  assert (HR : State_Reset this h =
    (Done tt,
     mk_Heap (<[this := mk_State pending None None (_value s) None]> (states h))
       (freed (_fail s) (freed (_done s) (runnables h))) (trace h))).
  { open h s.
    destruct _done0 as [d|], _fail0 as [f|]; cbn [live freed] in *;
      repeat match goal with H : exists _, _ |- _ => destruct H end;
      exec; reflexivity. }
  split; [exact HR|]. split; [exact HR|]. split.
  - cbn [states]. apply list_lookup_insert_eq. eapply lookup_lt_Some; eauto.
  - intros q Hq. cbn [runnables]. now apply freed_lookup.
Qed.

Lemma Reset_effect_witness :
  State_Reset 0 finally_twice =
    (Done tt,
     mk_Heap [mk_State pending None None [VInt 0] None]
       (freed (Some 3) (freed (Some 2) (runnables finally_twice))) []).
Proof.
  apply (Reset_effect finally_twice 0 (mk_State pending (Some 2) (Some 3) [VInt 0] None)).
  - reflexivity.
  - simpl. eexists. reflexivity.
  - simpl. eexists. reflexivity.
Defined.

(** ** Replacing a continuation *)

(** C9 at its failing input.  After a second [Finally] on the same
    pending stage the state holds the two runnables of the second call,
    and the two of the first call are still allocated although no slot of
    any state points to them: lines 112 and 113 overwrote the pointers
    without a [delete], and the [Reset] that follows deletes the runnables
    of the second call only. *)
Theorem replaced_continuations_leak :
  fst ((p <- Promise_new [TInt];;
        Promise_Finally 0 p (ignore "first");;
        Promise_Finally 0 p (ignore "second")) empty_heap) = Done tt /\
  states finally_twice = [mk_State pending (Some 2) (Some 3) [VInt 0] None] /\
  leaked finally_twice 0 = true /\
  leaked finally_twice 1 = true /\
  leaked finally_twice 2 = false /\
  leaked finally_twice 3 = false /\
  allocated (snd (State_Reset 0 finally_twice)) 0 = true /\
  allocated (snd (State_Reset 0 finally_twice)) 2 = false.
Proof. vm_compute. repeat split; reflexivity. Qed.

(** ** Specifications of the primitives *)

Lemma triple_bind {A B} I P (c : M A) (k : A -> M B) R Q :
  triple I P c R -> (forall x, triple I (R x) (k x) Q) ->
  triple I P (x <- c;; k x) Q.
Proof.
  intros Hc Hk h HP. specialize (Hc h HP). unfold bind.
  destruct (c h) as [[x|t|] h']; cbn in *; auto. now apply Hk.
Qed.

Lemma triple_weaken {A} I (P P' : Heap -> Prop) (c : M A) (Q Q' : A -> Heap -> Prop) :
  triple I P c Q ->
  (forall h, P' h -> P h) -> (forall x h, Q x h -> Q' x h) ->
  triple I P' c Q'.
Proof.
  intros Hc HP HQ h Hh. specialize (Hc h (HP h Hh)).
  destruct (c h) as [[x|t|] h']; cbn in *; auto.
Qed.

Lemma triple_ret {A} I (P : Heap -> Prop) (x : A) (Q : A -> Heap -> Prop) :
  (forall h, P h -> Q x h) -> triple I P (ret x) Q.
Proof. intros H h HP. cbn. auto. Qed.

Lemma triple_fail {A} I (P : Heap -> Prop) t (Q : A -> Heap -> Prop) :
  (forall h, P h -> I h) -> ~ library_assert t -> triple I P (fail t) Q.
Proof. intros H Ht h HP. cbn. auto. Qed.

Lemma bad_pointer_no_assert : ~ library_assert bad_pointer.
Proof. intros [H|H]; discriminate. Qed.

Lemma assert_caller_no_assert : ~ library_assert assert_caller.
Proof. intros [H|H]; discriminate. Qed.

Lemma triple_load I (P : Heap -> Prop) a (Q : State -> Heap -> Prop) :
  (forall h, P h -> I h) ->
  (forall h s, P h -> states h !! a = Some s -> Q s h) ->
  triple I P (load a) Q.
Proof.
  intros HI HQ h HP. unfold load.
  destruct (states h !! a) as [s|] eqn:E; cbn; auto using bad_pointer_no_assert.
Qed.

Lemma triple_modify I (P : Heap -> Prop) a f (Q : unit -> Heap -> Prop) :
  (forall h, P h -> I h) ->
  (forall h s, P h -> states h !! a = Some s -> Q tt (with_state h a (f s))) ->
  triple I P (modify a f) Q.
Proof.
  intros HI HQ h HP. unfold modify.
  destruct (states h !! a) as [s|] eqn:E; cbn; auto using bad_pointer_no_assert.
  now apply HQ.
Qed.

Lemma triple_emit I (P : Heap -> Prop) ev (Q : unit -> Heap -> Prop) :
  (forall h, P h -> Q tt (with_events h [ev])) ->
  triple I P (emit ev) Q.
Proof. intros HQ h HP. cbn. now apply HQ. Qed.

Lemma triple_new_State I (P : Heap -> Prop) ts (Q : addr -> Heap -> Prop) :
  (forall h, P h -> Q (length (states h)) (with_new_state h (State_default ts))) ->
  triple I P (new_State ts) Q.
Proof. intros HQ h HP. cbn. now apply HQ. Qed.

Lemma triple_new_Runnable I (P : Heap -> Prop) r (Q : ptr -> Heap -> Prop) :
  (forall h, P h -> Q (length (runnables h)) (with_new_runnable h r)) ->
  triple I P (new_Runnable r) Q.
Proof. intros HQ h HP. cbn. now apply HQ. Qed.

(** ** Frames and well-formed heaps *)

Lemma done_ok_ext h h' a slot :
  runnables h' = runnables h -> length (states h) <= length (states h') ->
  done_ok h a slot -> done_ok h' a slot.
Proof.
  intros Hr Hl H q Hq. destruct (H q Hq) as (x & Hx & Hk).
  exists x. rewrite Hr. split; [exact Hx|].
  intros r Er. destruct (Hk r Er) as (f & -> & Hf).
  exists f. split; [reflexivity|].
  intros d Hd. destruct (Hf d Hd). split; lia.
Qed.

Lemma fail_ok_ext h h' a slot :
  runnables h' = runnables h -> length (states h) <= length (states h') ->
  fail_ok h a slot -> fail_ok h' a slot.
Proof.
  intros Hr Hl H q Hq. destruct (H q Hq) as (x & Hx & Hk).
  exists x. rewrite Hr. split; [exact Hx|].
  intros r Er. destruct (Hk r Er) as (f & -> & Hf).
  exists f. split; [reflexivity|].
  intros d Hd. destruct (Hf d Hd). split; lia.
Qed.

Lemma wf_with_events h evs : wf h -> wf (with_events h evs).
Proof.
  intros H a s Hs. destruct (H a s Hs) as [Hd Hf]. split.
  - apply (done_ok_ext h); [reflexivity | reflexivity | assumption].
  - apply (fail_ok_ext h); [reflexivity | reflexivity | assumption].
Qed.

Lemma wf_with_state h a s s' :
  wf h -> states h !! a = Some s ->
  done_ok h a (_done s') -> fail_ok h a (_fail s') ->
  wf (with_state h a s').
Proof.
  intros H Hs Hd Hf c sc Hc. cbn [with_state states] in Hc.
  assert (Hlen : length (states h) <= length (states (with_state h a s')))
    by (cbn; now rewrite length_insert).
  destruct (decide (a = c)) as [<-|Hne].
  - rewrite list_lookup_insert_eq in Hc by (eapply lookup_lt_Some; eauto).
    injection Hc as <-. split.
    + apply (done_ok_ext h); [reflexivity | exact Hlen | assumption].
    + apply (fail_ok_ext h); [reflexivity | exact Hlen | assumption].
  - rewrite list_lookup_insert_ne in Hc by exact Hne.
    destruct (H c sc Hc). split.
    + apply (done_ok_ext h); [reflexivity | exact Hlen | assumption].
    + apply (fail_ok_ext h); [reflexivity | exact Hlen | assumption].
Qed.

Lemma done_ok_None h a : done_ok h a None.
Proof. intros q Hq. discriminate. Qed.

Lemma fail_ok_None h a : fail_ok h a None.
Proof. intros q Hq. discriminate. Qed.

Lemma wf_with_new_state h s :
  wf h -> _done s = None -> _fail s = None -> wf (with_new_state h s).
Proof.
  intros H Hd Hf c sc Hc. cbn [with_new_state states] in Hc.
  assert (Hlen : length (states h) <= length (states (with_new_state h s)))
    by (cbn; rewrite length_app; lia).
  apply lookup_app_Some in Hc as [Hc|[Hge Hc]].
  - destruct (H c sc Hc). split.
    + apply (done_ok_ext h); [reflexivity | exact Hlen | assumption].
    + apply (fail_ok_ext h); [reflexivity | exact Hlen | assumption].
  - destruct (c - length (states h)) as [|i]; [|now destruct i].
    injection Hc as <-. rewrite Hd, Hf.
    split; [apply done_ok_None | apply fail_ok_None].
Qed.

Lemma wf_empty : wf empty_heap.
Proof. intros a s Hs. destruct a; discriminate. Qed.

Lemma frame_refl b h : frame b h h.
Proof.
  split; auto.
  - intros a s Hs. eauto.
  - intros a s' Hge Hs. apply lookup_lt_Some in Hs. lia.
  - exists []. split; [now rewrite app_nil_r | constructor].
Qed.

Lemma legit_back b h0 h ev :
  frame b h0 h -> legit h b ev -> legit h0 b ev.
Proof.
  intros F. destruct ev as [a x|a p x| | | |]; cbn; auto.
  intros (Hb & s & q & Hs & -> & Hslot). split; [exact Hb|]. unfold holds.
  destruct (states h0 !! a) as [s0|] eqn:E0.
  - destruct (frame_slots _ _ _ F a s0 E0) as (s' & Hs' & Hd & Hf).
    rewrite Hs in Hs'. injection Hs' as <-.
    exists s0, q. rewrite <- Hd, <- Hf. auto.
  - apply lookup_ge_None in E0.
    destruct (frame_fresh _ _ _ F a s E0 Hs) as [Hd Hf].
    rewrite Hd, Hf in Hslot. destruct Hslot; discriminate.
Qed.

Lemma legit_mono h b b' ev : b <= b' -> legit h b' ev -> legit h b ev.
Proof.
  intros Hb. destruct ev as [a x|a p x| | | |]; cbn; auto.
  - lia.
  - intros [H1 H2]. split; [lia | exact H2].
Qed.

Lemma frame_trans b b' h0 h1 h2 :
  b <= b' -> frame b h0 h1 -> frame b' h1 h2 -> frame b h0 h2.
Proof.
  intros Hb F1 F2. split.
  - pose proof (frame_length _ _ _ F1). pose proof (frame_length _ _ _ F2). lia.
  - rewrite (frame_runnables _ _ _ F2). apply (frame_runnables _ _ _ F1).
  - intros a Ha. rewrite (frame_below _ _ _ F2) by lia.
    now apply (frame_below _ _ _ F1).
  - intros a s Hs.
    destruct (frame_slots _ _ _ F1 a s Hs) as (s1 & Hs1 & Hd1 & Hf1).
    destruct (frame_slots _ _ _ F2 a s1 Hs1) as (s2 & Hs2 & Hd2 & Hf2).
    exists s2. repeat split; congruence.
  - intros a s2 Hge Hs2.
    destruct (states h1 !! a) as [s1|] eqn:E1.
    + destruct (frame_fresh _ _ _ F1 a s1 Hge E1) as [Hd Hf].
      destruct (frame_slots _ _ _ F2 a s1 E1) as (s' & Hs' & Hd' & Hf').
      rewrite Hs2 in Hs'. injection Hs' as <-. split; congruence.
    + apply lookup_ge_None in E1. now apply (frame_fresh _ _ _ F2 a s2).
  - destruct (frame_trace _ _ _ F1) as (evs1 & Ht1 & Hl1).
    destruct (frame_trace _ _ _ F2) as (evs2 & Ht2 & Hl2).
    exists (evs1 ++ evs2). split.
    + rewrite Ht2, Ht1. now rewrite app_assoc.
    + apply Forall_app. split; [exact Hl1|].
      eapply Forall_impl; [exact Hl2|]. intros ev Hev. cbv beta in Hev.
      eapply legit_back; [exact F1|]. eapply legit_mono; eauto.
Qed.

(** ** Settling keeps heaps well formed *)

Lemma frame_mono b b' h h' : b <= b' -> frame b' h h' -> frame b h h'.
Proof. intros Hb F. eapply frame_trans; [exact Hb | apply frame_refl | exact F]. Qed.

Lemma sound_bind {A B} b P (c : M A) (k : A -> M B) R Q :
  sound b P c R -> (forall x, sound b (R x) (k x) Q) ->
  sound b P (x <- c;; k x) Q.
Proof.
  intros Hc Hk h Hwf HP. destruct (Hc h Hwf HP) as (W1 & F1 & O1).
  unfold bind. destruct (c h) as [[x|t|] h1]; cbn [fst snd] in *; auto.
  destruct (Hk x h1 W1 O1) as (W2 & F2 & O2).
  split; [exact W2|]. split; [|exact O2].
  eapply frame_trans; [reflexivity | exact F1 | exact F2].
Qed.

Lemma sound_weaken {A} b (P P' : Heap -> Prop) (c : M A) (Q Q' : A -> Heap -> Prop) :
  sound b P c Q ->
  (forall h, wf h -> P' h -> P h) ->
  (forall x h, wf h -> Q x h -> Q' x h) ->
  sound b P' c Q'.
Proof.
  intros Hc HP HQ h Hwf Hh. destruct (Hc h Hwf (HP h Hwf Hh)) as (W & F & O).
  split; [exact W|]. split; [exact F|].
  destruct (fst (c h)); auto.
Qed.

Lemma sound_pre {A} b (P P' : Heap -> Prop) (c : M A) (Q : A -> Heap -> Prop) :
  sound b P c Q -> (forall h, wf h -> P' h -> P h) -> sound b P' c Q.
Proof. intros Hc HP. eapply sound_weaken; eauto. Qed.

Lemma sound_lower {A} b b' P (c : M A) Q :
  b <= b' -> sound b' P c Q -> sound b P c Q.
Proof.
  intros Hb Hc h Hwf HP. destruct (Hc h Hwf HP) as (W & F & O).
  split; [exact W|]. split; [|exact O]. eapply frame_mono; eauto.
Qed.

(** The frame rule: a stable fact survives a sound run. *)
Lemma sound_frame {A} b P (c : M A) Q F :
  stable b F -> sound b P c Q ->
  sound b (fun h => P h /\ F h) c (fun x h => Q x h /\ F h).
Proof.
  intros HF Hc h Hwf [HP Hh]. destruct (Hc h Hwf HP) as (W & Fr & O).
  split; [exact W|]. split; [exact Fr|].
  destruct (fst (c h)); auto. split; [exact O|].
  eapply HF; eauto.
Qed.

(** Sequencing under a stable precondition, which the second part may
    still rely on. *)
Lemma sound_seq {A B} b P (c : M A) (k : A -> M B) R Q :
  stable b P -> sound b P c R ->
  (forall x, sound b (fun h => R x h /\ P h) (k x) Q) ->
  sound b P (x <- c;; k x) Q.
Proof.
  intros HP Hc Hk. eapply sound_bind; [|exact Hk].
  eapply sound_weaken; [apply (sound_frame b P c R P HP Hc)| |]; cbv beta; tauto.
Qed.

(** A fact that follows from the precondition may be assumed. *)
Lemma sound_assume {A} b (P : Heap -> Prop) (c : M A) Q (fact : Prop) :
  (forall h, wf h -> P h -> fact) -> (fact -> sound b P c Q) -> sound b P c Q.
Proof. intros Hf Hc h Hwf HP. exact (Hc (Hf h Hwf HP) h Hwf HP). Qed.

Lemma sound_ret {A} b (P : Heap -> Prop) (x : A) (Q : A -> Heap -> Prop) :
  (forall h, wf h -> P h -> Q x h) -> sound b P (ret x) Q.
Proof.
  intros H h Hwf HP. cbn. split; [exact Hwf|]. split; [apply frame_refl|]. auto.
Qed.

Lemma sound_out_of_fuel {A} b (P : Heap -> Prop) (Q : A -> Heap -> Prop) :
  sound b P out_of_fuel Q.
Proof.
  intros h Hwf HP. cbn. split; [exact Hwf|]. split; [apply frame_refl|]. auto.
Qed.

Lemma sound_load b a :
  sound b (fun _ => True) (load a) (fun s h => states h !! a = Some s).
Proof.
  intros h Hwf _. unfold load.
  destruct (states h !! a) as [s|] eqn:E; cbn;
    (split; [exact Hwf|]); (split; [apply frame_refl|]);
    auto using bad_pointer_no_assert.
Qed.

Lemma sound_deref b q :
  sound b (fun _ => True) (deref q) (fun r h => runnables h !! q = Some (Some r)).
Proof.
  intros h Hwf _. unfold deref.
  destruct (runnables h !! q) as [[r|]|] eqn:E; cbn;
    (split; [exact Hwf|]); (split; [apply frame_refl|]);
    auto using bad_pointer_no_assert.
Qed.

Lemma frame_with_events b h evs :
  Forall (legit h b) evs -> frame b h (with_events h evs).
Proof.
  intros H. split; auto.
  - intros a s Hs. eauto.
  - intros a s' Hge Hs. apply lookup_lt_Some in Hs. cbn in Hs. lia.
  - exists evs. auto.
Qed.

Lemma sound_emit b ev :
  sound b (fun h => legit h b ev) (emit ev) (fun _ _ => True).
Proof.
  intros h Hwf HP. cbn [emit fst snd].
  split; [now apply (wf_with_events h [ev])|]. split; [|exact I].
  apply (frame_with_events b h [ev]). now constructor.
Qed.

Lemma sound_call {R} b (x : effect R) :
  sound b (fun _ => True) (call x) (fun _ _ => True).
Proof.
  intros h Hwf _. rewrite run_call. cbn [fst snd].
  split; [now apply wf_with_events|]. split.
  - apply frame_with_events. apply Forall_forall.
    intros ev Hev. apply list_elem_of_fmap in Hev as (l & -> & _). exact I.
  - unfold outcome_of. destruct (snd x); auto using assert_caller_no_assert.
Qed.

Lemma frame_with_state b h a s s' :
  states h !! a = Some s -> b <= a ->
  _done s' = _done s -> _fail s' = _fail s ->
  frame b h (with_state h a s').
Proof.
  intros Hs Hb Hd Hf. pose proof (lookup_lt_Some _ _ _ Hs) as Hlt. split.
  - cbn. now rewrite length_insert.
  - reflexivity.
  - intros c Hc. cbn. apply list_lookup_insert_ne. lia.
  - intros c sc Hc. cbn. destruct (decide (a = c)) as [<-|Hne].
    + exists s'. rewrite list_lookup_insert_eq by exact Hlt.
      rewrite Hs in Hc. injection Hc as <-. auto.
    + exists sc. rewrite list_lookup_insert_ne by exact Hne. auto.
  - intros c sc Hge Hc. apply lookup_lt_Some in Hc. cbn in Hc.
    rewrite length_insert in Hc. lia.
  - exists []. split; [cbn; now rewrite app_nil_r | constructor].
Qed.

(** A write to a state at [b] or later that keeps the slots. *)
Lemma sound_modify b a f :
  b <= a ->
  (forall s, _done (f s) = _done s /\ _fail (f s) = _fail s) ->
  sound b (fun _ => True) (modify a f) (fun _ _ => True).
Proof.
  intros Hb Hf h Hwf _. unfold modify.
  destruct (states h !! a) as [s|] eqn:E; cbn [fst snd].
  - destruct (Hf s) as [Hd Hfl]. destruct (Hwf a s E) as [Od Of].
    split; [|split; [|exact I]].
    + apply (wf_with_state h a s (f s)); auto; [now rewrite Hd | now rewrite Hfl].
    + now apply (frame_with_state b h a s (f s)).
  - split; [exact Hwf|]. split; [apply frame_refl | apply bad_pointer_no_assert].
Qed.

Lemma frame_with_new_state b h s :
  b <= length (states h) -> _done s = None -> _fail s = None ->
  frame b h (with_new_state h s).
Proof.
  intros Hb Hd Hf. split.
  - cbn. rewrite length_app. lia.
  - reflexivity.
  - intros c Hc. cbn. apply lookup_app_l. lia.
  - intros c sc Hc. exists sc. cbn. rewrite lookup_app_l by (eapply lookup_lt_Some; eauto).
    auto.
  - intros c sc Hge Hc. cbn in Hc.
    apply lookup_app_Some in Hc as [Hc|[_ Hc]].
    + apply lookup_lt_Some in Hc. lia.
    + destruct (c - length (states h)) as [|i]; [|now destruct i].
      injection Hc as <-. auto.
  - exists []. split; [cbn; now rewrite app_nil_r | constructor].
Qed.

Lemma sound_new_State b ts :
  sound b (fun h => b <= length (states h)) (new_State ts)
    (fun r h => b <= r /\ r < length (states h)).
Proof.
  intros h Hwf HP. cbn [new_State fst snd].
  split; [now apply (wf_with_new_state h (State_default ts))|]. split.
  - now apply (frame_with_new_state b h (State_default ts)).
  - split; [exact HP|]. cbn [with_new_state states]. rewrite length_app. cbn. lia.
Qed.

(** Stable facts. *)
Lemma stable_and b (F G : Heap -> Prop) :
  stable b F -> stable b G -> stable b (fun h => F h /\ G h).
Proof. intros HF HG h h' Fr [H1 H2]. split; eauto. Qed.

Lemma stable_pure b (fact : Prop) : stable b (fun _ => fact).
Proof. intros h h' _ H. exact H. Qed.

Lemma stable_valid b a : stable b (fun h => a < length (states h)).
Proof. intros h h' Fr H. pose proof (frame_length _ _ _ Fr). lia. Qed.

Lemma stable_room b c : stable b (fun h => c <= length (states h)).
Proof. intros h h' Fr H. pose proof (frame_length _ _ _ Fr). lia. Qed.

Lemma stable_calls_value b c q : stable b (fun h => calls_value h c q).
Proof.
  intros h h' Fr H r Hr. rewrite (frame_runnables _ _ _ Fr) in Hr.
  destruct (H r Hr) as (f & -> & Hf). exists f. split; [reflexivity|].
  intros d Hd. destruct (Hf d Hd). pose proof (frame_length _ _ _ Fr). lia.
Qed.

Lemma stable_calls_error b c q : stable b (fun h => calls_error h c q).
Proof.
  intros h h' Fr H r Hr. rewrite (frame_runnables _ _ _ Fr) in Hr.
  destruct (H r Hr) as (f & -> & Hf). exists f. split; [reflexivity|].
  intros d Hd. destruct (Hf d Hd). pose proof (frame_length _ _ _ Fr). lia.
Qed.

Lemma stable_holds b a p : stable b (fun h => holds h a p).
Proof.
  intros h h' Fr (s & q & Hs & Hp & Hslot).
  destruct (frame_slots _ _ _ Fr a s Hs) as (s' & Hs' & Hd & Hf).
  exists s', q. rewrite Hd, Hf. auto.
Qed.

Lemma stable_target_value b c f :
  stable b (fun h => forall d, target_of_value f = Some d ->
                               c <= d /\ d < length (states h)).
Proof.
  intros h h' Fr H d Hd. destruct (H d Hd). pose proof (frame_length _ _ _ Fr). lia.
Qed.

Lemma stable_target_error b c f :
  stable b (fun h => forall d, target_of_error f = Some d ->
                               c <= d /\ d < length (states h)).
Proof.
  intros h h' Fr H d Hd. destruct (H d Hd). pose proof (frame_length _ _ _ Fr). lia.
Qed.

Ltac stab :=
  repeat first
    [ apply stable_valid | apply stable_room | apply stable_calls_value
    | apply stable_calls_error | apply stable_holds
    | apply stable_target_value | apply stable_target_error
    | apply stable_pure | apply stable_and ].

Ltac side :=
  cbv beta; intros; cbn [legit];
  repeat match goal with
         | H : _ /\ _ |- _ => destruct H
         | H : forall d, _ = Some d -> _ /\ _ |- _ < _ =>
           let H1 := fresh in
           pose proof (H _ eq_refl) as H1; clear H; destruct H1
         end;
  first [ exact I | assumption | tauto | lia | eauto ].

(** Uses a specification under a stronger precondition (and, for [use],
    for a weaker postcondition). *)
Ltac spec H := eapply sound_pre; [apply H | side].
Ltac use H := eapply sound_weaken; [apply H | side | side].

(** The reads, on a state at [b] or later. *)
Lemma modify_sound b a f (P : Heap -> Prop) :
  b <= a ->
  (forall s, _done (f s) = _done s /\ _fail (f s) = _fail s) ->
  sound b P (modify a f) (fun _ _ => True).
Proof. intros Hb Hf. spec (sound_modify b a f Hb Hf). Qed.

Lemma get_value_sound b this :
  b <= this ->
  sound b (fun _ => True) (get_value this) (fun ref _ => ref = this).
Proof.
  intros Hb. unfold get_value.
  eapply sound_bind; [apply (modify_sound b this); [exact Hb | now intros []]|].
  intros ?. apply sound_ret. auto.
Qed.

Lemma move_tuple_sound b ref :
  b <= ref ->
  sound b (fun _ => True) (move_tuple ref) (fun _ _ => True).
Proof.
  intros Hb. unfold move_tuple.
  eapply sound_bind; [apply sound_load|]. intros s.
  eapply sound_bind; [apply (modify_sound b ref); [exact Hb | now intros []]|].
  intros ?. apply sound_ret. auto.
Qed.

Lemma get_exception_sound b this :
  b <= this ->
  sound b (fun _ => True) (get_exception this) (fun _ _ => True).
Proof.
  intros Hb. unfold get_exception.
  eapply sound_bind; [apply (modify_sound b this); [exact Hb | now intros []]|].
  intros ?. eapply sound_bind; [spec sound_load|].
  intros s. eapply sound_bind; [apply (modify_sound b this); [exact Hb | now intros []]|].
  intros ?. apply sound_ret. auto.
Qed.

Lemma Promise_GetValue_sound b this :
  b <= this ->
  sound b (fun _ => True) (Promise_GetValue this) (fun _ _ => True).
Proof.
  intros Hb. unfold Promise_GetValue.
  eapply sound_bind; [apply (get_value_sound b this Hb)|].
  intros ref. apply (sound_assume _ _ _ _ (ref = this)); [auto|]. intros ->.
  spec (move_tuple_sound b this Hb).
Qed.

(** What the lambdas run, given that settling a later state is sound. *)
Section closures.
Variable SetValue_next : addr -> tuple -> M unit.
Variable SetException_next : addr -> SException -> M unit.
Hypothesis SetValue_next_sound : forall a v,
  sound a (fun h => a < length (states h)) (SetValue_next a v) (fun _ _ => True).
Hypothesis SetException_next_sound : forall a e,
  sound a (fun h => a < length (states h)) (SetException_next a e) (fun _ _ => True).

Lemma MakeReadyPromise_sound b ts values :
  sound b (fun h => b <= length (states h))
    (MakeReadyPromise SetValue_next ts values)
    (fun r h => b <= r /\ r < length (states h)).
Proof.
  unfold MakeReadyPromise, Deffered_new, Deffered_SetValue, Deffered_GetPromise.
  eapply sound_bind; [apply sound_new_State|]. intros d. cbv beta.
  apply (sound_assume _ _ _ _ (b <= d)); [tauto|]. intros Hbd.
  apply sound_seq with (R := fun _ _ => True); [stab| |].
  - apply (sound_lower b d); [exact Hbd|]. spec SetValue_next_sound.
  - intros ?. apply sound_ret. side.
Qed.

Lemma MakeException_sound b ts e :
  sound b (fun h => b <= length (states h))
    (MakeException SetException_next ts e)
    (fun r h => b <= r /\ r < length (states h)).
Proof.
  unfold MakeException, Deffered_new, Deffered_SetException, Deffered_GetPromise.
  eapply sound_bind; [apply sound_new_State|]. intros d. cbv beta.
  apply (sound_assume _ _ _ _ (b <= d)); [tauto|]. intros Hbd.
  apply sound_seq with (R := fun _ _ => True); [stab| |].
  - apply (sound_lower b d); [exact Hbd|]. spec SetException_next_sound.
  - intros ?. apply sound_ret. side.
Qed.

Lemma make_facade_sound b ts x :
  sound b (fun h => b <= length (states h))
    (make_facade SetValue_next SetException_next ts x)
    (fun r h => b <= r /\ r < length (states h)).
Proof.
  destruct x as [v|e|]; cbn [make_facade].
  - apply MakeReadyPromise_sound.
  - apply MakeException_sound.
  - apply sound_new_State.
Qed.

Lemma forward_sound b r dollar :
  b <= r -> b <= dollar ->
  sound b (fun h => dollar < length (states h))
    (forward SetValue_next SetException_next r dollar)
    (fun _ _ => True).
Proof.
  intros Hr Hd. unfold forward, Promise_GetStatus, Promise_GetException,
    Deffered_SetValue, Deffered_SetException.
  apply sound_seq with (R := fun _ _ => True); [stab| |].
  - eapply sound_bind; [spec sound_load|].
    intros s. apply sound_ret. auto.
  - intros [| |].
    + apply sound_ret. auto.
    + apply sound_seq with (R := fun _ _ => True); [stab| |].
      * spec (Promise_GetValue_sound b r Hr).
      * intros v. apply (sound_lower b dollar); [exact Hd|].
        spec SetValue_next_sound.
    + apply sound_seq with (R := fun _ _ => True); [stab| |].
      * spec (get_exception_sound b r Hr).
      * intros e. apply (sound_lower b dollar); [exact Hd|].
        spec SetException_next_sound.
Qed.

(** Calling the caller's function, building its facade and forwarding. *)
Lemma graft_sound {X} b (func : continuation X) (x : X) dollar :
  b <= dollar ->
  sound b (fun h => dollar < length (states h))
    (y <- call (cbody func x);;
     r <- make_facade SetValue_next SetException_next (cret func) y;;
     forward SetValue_next SetException_next r dollar)
    (fun _ _ => True).
Proof.
  intros Hd.
  apply sound_seq with (R := fun _ _ => True); [stab| |].
  - spec (@sound_call facade b).
  - intros y. apply sound_seq with (R := fun r h => b <= r /\ r < length (states h)).
    + stab.
    + spec make_facade_sound.
    + intros r. apply (sound_assume _ _ _ _ (b <= r)); [tauto|]. intros Hr.
      spec (forward_sound b r dollar Hr Hd).
Qed.

Lemma run_value_func_sound b f args :
  sound b (fun h => forall d, target_of_value f = Some d ->
                              b <= d /\ d < length (states h))
    (run_value_func SetValue_next SetException_next f args)
    (fun _ _ => True).
Proof.
  destruct f as [func dollar|func]; cbn [run_value_func].
  - apply (sound_assume _ _ _ _ (b <= dollar)).
    { intros h _ H. now destruct (H dollar eq_refl). }
    intros Hd.
    apply sound_seq with (R := fun _ _ => True); [stab| |].
    + spec sound_emit.
    + intros ?. spec (graft_sound b func args dollar Hd).
  - eapply sound_bind.
    + spec sound_emit.
    + intros ?. spec (@sound_call unit b).
Qed.

Lemma run_error_func_sound b f e :
  sound b (fun h => forall d, target_of_error f = Some d ->
                              b <= d /\ d < length (states h))
    (run_error_func SetValue_next SetException_next f e)
    (fun _ _ => True).
Proof.
  destruct f as [dollar|func dollar|func]; cbn [run_error_func].
  - apply (sound_assume _ _ _ _ (b <= dollar)).
    { intros h _ H. now destruct (H dollar eq_refl). }
    intros Hd. unfold Deffered_SetException.
    apply (sound_lower b dollar); [exact Hd|].
    spec SetException_next_sound.
  - apply (sound_assume _ _ _ _ (b <= dollar)).
    { intros h _ H. now destruct (H dollar eq_refl). }
    intros Hd.
    apply sound_seq with (R := fun _ _ => True); [stab| |].
    + spec sound_emit.
    + intros ?. spec (graft_sound b func e dollar Hd).
  - eapply sound_bind.
    + spec sound_emit.
    + intros ?. spec (@sound_call unit b).
Qed.

Lemma Runnable_SetValue_sound b q ref :
  b <= ref ->
  sound b (fun h => calls_value h b q)
    (Runnable_SetValue SetValue_next SetException_next (Some q) ref)
    (fun _ _ => True).
Proof.
  intros Hr. cbn [Runnable_SetValue].
  apply sound_seq with (R := fun r h => runnables h !! q = Some (Some r)); [stab| |].
  - spec sound_deref.
  - intros r.
    apply (sound_assume _ _ _ _ (exists f, r = Resolver f)).
    { intros h _ [Hq Hc]. destruct (Hc r Hq) as (f & -> & _). eauto. }
    intros [f ->].
    apply sound_pre with
      (P := fun h => True /\ forall d, target_of_value f = Some d ->
                                       b <= d /\ d < length (states h)).
    + eapply sound_bind.
      * apply sound_frame; [stab | apply (move_tuple_sound b ref Hr)].
      * intros args. spec run_value_func_sound.
    + cbv beta. intros h _ [Hq Hc]. split; [exact I|].
      destruct (Hc _ Hq) as (f' & Ef & Hf). injection Ef as <-. exact Hf.
Qed.

Lemma Runnable_SetException_sound b q e :
  sound b (fun h => calls_error h b q)
    (Runnable_SetException SetValue_next SetException_next (Some q) e)
    (fun _ _ => True).
Proof.
  cbn [Runnable_SetException].
  apply sound_seq with (R := fun r h => runnables h !! q = Some (Some r)); [stab| |].
  - spec sound_deref.
  - intros r.
    apply (sound_assume _ _ _ _ (exists f, r = Rejecter f)).
    { intros h _ [Hq Hc]. destruct (Hc r Hq) as (f & -> & _). eauto. }
    intros [f ->].
    eapply sound_pre; [apply run_error_func_sound|].
    cbv beta. intros h _ [Hq Hc].
    destruct (Hc _ Hq) as (f' & Ef & Hf). injection Ef as <-. exact Hf.
Qed.
End closures.

Lemma wf_calls_value h a s q :
  wf h -> states h !! a = Some s -> _done s = Some q -> calls_value h a q.
Proof.
  intros Hwf Hs Hd r Hr. destruct (Hwf a s Hs) as [Od _].
  destruct (Od q Hd) as (x & Hx & Hk). rewrite Hx in Hr. injection Hr as ->.
  destruct (Hk r eq_refl) as (f & -> & Hl). exists f. split; [reflexivity|].
  intros d Hd'. destruct (Hl d Hd'). lia.
Qed.

Lemma wf_calls_error h a s q :
  wf h -> states h !! a = Some s -> _fail s = Some q -> calls_error h a q.
Proof.
  intros Hwf Hs Hd r Hr. destruct (Hwf a s Hs) as [_ Of].
  destruct (Of q Hd) as (x & Hx & Hk). rewrite Hx in Hr. injection Hr as ->.
  destruct (Hk r eq_refl) as (f & -> & Hl). exists f. split; [reflexivity|].
  intros d Hd'. destruct (Hl d Hd'). lia.
Qed.

(** Settling a state of a well-formed heap, with any fuel: the heap stays
    well formed, only the state and later ones change, and no
    [assert(0)] of the library is reached. *)
Lemma settle_sound k :
  (forall a v, sound a (fun h => a < length (states h))
                 (State_SetValue k a v) (fun _ _ => True)) /\
  (forall a e, sound a (fun h => a < length (states h))
                 (State_SetException k a e) (fun _ _ => True)).
Proof.
  induction k as [|k [IHv IHe]]; split; intros a x;
    try apply sound_out_of_fuel.
  - rewrite State_SetValue_eq.
    apply sound_seq with (R := fun _ _ => True); [stab | spec sound_emit |].
    intros ?. eapply sound_bind; [apply (modify_sound a a); [lia | now intros []]|].
    intros ?. eapply sound_bind; [apply (modify_sound a a); [lia | now intros []]|].
    intros ?. eapply sound_bind; [spec sound_load|].
    intros s. destruct (_done s) as [q|] eqn:Ed; [|apply sound_ret; auto].
    apply sound_pre with (P := fun h => holds h a (Some q) /\ calls_value h a q).
    2:{ cbv beta. intros h Hwf Hs. split.
        - exists s, q. auto.
        - eapply wf_calls_value; eauto. }
    apply sound_seq with (R := fun ref _ => ref = a); [stab | |].
    { spec (get_value_sound a a (le_n a)). }
    intros ref. apply (sound_assume _ _ _ _ (ref = a)); [tauto|]. intros ->.
    apply sound_seq with (R := fun _ _ => True); [stab | |].
    { spec sound_emit. }
    intros ?. spec (Runnable_SetValue_sound _ _ IHv IHe a q a (le_n a)).
  - rewrite State_SetException_eq.
    apply sound_seq with (R := fun _ _ => True); [stab | spec sound_emit |].
    intros ?. eapply sound_bind; [apply (modify_sound a a); [lia | now intros []]|].
    intros ?. eapply sound_bind; [apply (modify_sound a a); [lia | now intros []]|].
    intros ?. eapply sound_bind; [spec sound_load|].
    intros s. destruct (_fail s) as [q|] eqn:Ed; [|apply sound_ret; auto].
    apply sound_pre with (P := fun h => holds h a (Some q) /\ calls_error h a q).
    2:{ cbv beta. intros h Hwf Hs. split.
        - exists s, q. auto.
        - eapply wf_calls_error; eauto. }
    apply sound_seq with (R := fun _ _ => True); [stab | |].
    { spec (get_exception_sound a a (le_n a)). }
    intros e.
    apply sound_seq with (R := fun _ _ => True); [stab | |].
    { spec sound_emit. }
    intros ?. spec (Runnable_SetException_sound _ _ IHv IHe a q e).
Qed.

(** ** The operators keep heaps well formed *)

(** A sound run, seen as a run that keeps the heap well formed. *)
Lemma sound_triple {A} b (P : Heap -> Prop) (c : M A) (Q : A -> Heap -> Prop) :
  sound b P c Q ->
  triple wf (fun h => wf h /\ P h) c (fun x h => wf h /\ Q x h).
Proof.
  intros Hc h [Hwf HP]. destruct (Hc h Hwf HP) as (W & _ & O).
  destruct (c h) as [[x|t|] h']; cbn in *; auto.
Qed.

Lemma State_SetValue_wf k a v :
  triple wf (fun h => wf h /\ a < length (states h))
    (State_SetValue k a v) (fun _ h => wf h).
Proof.
  eapply triple_weaken; [apply (sound_triple a), (proj1 (settle_sound k))| |];
    cbv beta; tauto.
Qed.

Lemma State_SetException_wf k a e :
  triple wf (fun h => wf h /\ a < length (states h))
    (State_SetException k a e) (fun _ h => wf h).
Proof.
  eapply triple_weaken; [apply (sound_triple a), (proj2 (settle_sound k))| |];
    cbv beta; tauto.
Qed.

Lemma done_ok_calls_value h a q : done_ok h a (Some q) -> calls_value h a q.
Proof.
  intros Od r Hr. destruct (Od q eq_refl) as (x & Hx & Hk).
  rewrite Hx in Hr. injection Hr as ->.
  destruct (Hk r eq_refl) as (f & -> & Hl). exists f. split; [reflexivity|].
  intros d Hd. destruct (Hl d Hd). lia.
Qed.

Lemma fail_ok_calls_error h a q : fail_ok h a (Some q) -> calls_error h a q.
Proof.
  intros Od r Hr. destruct (Od q eq_refl) as (x & Hx & Hk).
  rewrite Hx in Hr. injection Hr as ->.
  destruct (Hk r eq_refl) as (f & -> & Hl). exists f. split; [reflexivity|].
  intros d Hd. destruct (Hl d Hd). lia.
Qed.

(** The call a registering method makes when the state is settled. *)
Lemma dispatch_value_sound fuel this q x :
  sound this (fun h => calls_value h this q /\ holds h this (Some q))
    (ref <- get_value this;;
     emit (EvDispatch this (Some q) x);;
     Runnable_SetValue (State_SetValue fuel) (State_SetException fuel) (Some q) ref)
    (fun _ _ => True).
Proof.
  destruct (settle_sound fuel) as [Hv He].
  apply sound_seq with (R := fun ref _ => ref = this); [stab | |].
  { spec (get_value_sound this this (le_n this)). }
  intros ref. apply (sound_assume _ _ _ _ (ref = this)); [tauto|]. intros ->.
  apply sound_seq with (R := fun _ _ => True); [stab | |].
  { spec sound_emit. }
  intros ?. spec (Runnable_SetValue_sound _ _ Hv He this q this (le_n this)).
Qed.

Lemma dispatch_error_sound fuel this q :
  sound this (fun h => calls_error h this q /\ holds h this (Some q))
    (x <- get_exception this;;
     emit (EvDispatch this (Some q) (Error x));;
     Runnable_SetException (State_SetValue fuel) (State_SetException fuel) (Some q) x)
    (fun _ _ => True).
Proof.
  destruct (settle_sound fuel) as [Hv He].
  apply sound_seq with (R := fun _ _ => True); [stab | |].
  { spec (get_exception_sound this this (le_n this)). }
  intros e.
  apply sound_seq with (R := fun _ _ => True); [stab | |].
  { spec sound_emit. }
  intros ?. spec (Runnable_SetException_sound _ _ Hv He this q e).
Qed.

Lemma dispatch_value_wf fuel this slot x :
  triple wf (fun h => wf h /\ done_ok h this slot /\ (slot <> None -> holds h this slot))
    (ref <- get_value this;;
     emit (EvDispatch this slot x);;
     Runnable_SetValue (State_SetValue fuel) (State_SetException fuel) slot ref)
    (fun _ h => wf h).
Proof.
  destruct slot as [q|].
  - eapply triple_weaken; [apply (sound_triple this), dispatch_value_sound | |].
    + cbv beta. intros h (W & O & H). split; [exact W|]. split.
      * now apply done_ok_calls_value.
      * now apply H.
    + cbv beta. tauto.
  - eapply triple_bind with (R := fun _ h => wf h).
    + eapply triple_weaken;
        [apply (sound_triple this), (get_value_sound this this (le_n this)) | |];
        cbv beta; tauto.
    + intros ref. eapply triple_bind with (R := fun _ h => wf h).
      * apply triple_emit. intros h W. now apply wf_with_events.
      * intros ?. apply triple_fail; [auto | apply bad_pointer_no_assert].
Qed.

Lemma dispatch_error_wf fuel this slot :
  triple wf (fun h => wf h /\ fail_ok h this slot /\ (slot <> None -> holds h this slot))
    (x <- get_exception this;;
     emit (EvDispatch this slot (Error x));;
     Runnable_SetException (State_SetValue fuel) (State_SetException fuel) slot x)
    (fun _ h => wf h).
Proof.
  destruct slot as [q|].
  - eapply triple_weaken; [apply (sound_triple this), dispatch_error_sound | |].
    + cbv beta. intros h (W & O & H). split; [exact W|]. split.
      * now apply fail_ok_calls_error.
      * now apply H.
    + cbv beta. tauto.
  - eapply triple_bind with (R := fun _ h => wf h).
    + eapply triple_weaken;
        [apply (sound_triple this), (get_exception_sound this this (le_n this)) | |];
        cbv beta; tauto.
    + intros ref. eapply triple_bind with (R := fun _ h => wf h).
      * apply triple_emit. intros h W. now apply wf_with_events.
      * intros ?. apply triple_fail; [auto | apply bad_pointer_no_assert].
Qed.

Lemma lookup_with_state h a s s' :
  states h !! a = Some s -> states (with_state h a s') !! a = Some s'.
Proof.
  intros Hs. cbn. apply list_lookup_insert_eq. eapply lookup_lt_Some; eauto.
Qed.

Lemma fail_ok_with_state h a s c slot :
  fail_ok h c slot -> fail_ok (with_state h a s) c slot.
Proof.
  apply fail_ok_ext; [reflexivity | cbn; now rewrite length_insert].
Qed.

Lemma State_SetFunc_wf fuel this done fail :
  triple wf (fun h => wf h /\ done_ok h this done /\ fail_ok h this fail)
    (State_SetFunc fuel this done fail) (fun _ h => wf h).
Proof.
  unfold State_SetFunc.
  eapply triple_bind with
    (R := fun _ h => wf h /\ fail_ok h this fail /\
                     exists s, states h !! this = Some s /\ _done s = done).
  { apply triple_modify; [tauto|].
    intros h s (W & Od & Of) Hs. destruct (W this s Hs) as [_ Of'].
    split; [|split].
    - apply (wf_with_state h this s); auto.
    - now apply fail_ok_with_state.
    - exists (set_done done s). split; [now apply (lookup_with_state h this s)|].
      reflexivity. }
  intros ?. eapply triple_bind with
    (R := fun _ h => wf h /\
                     exists s, states h !! this = Some s /\ _done s = done /\ _fail s = fail).
  { apply triple_modify; [tauto|].
    intros h s (W & Of & s0 & Hs0 & Hd) Hs.
    rewrite Hs in Hs0. injection Hs0 as <-.
    destruct (W this s Hs) as [Od' _].
    split.
    - apply (wf_with_state h this s); auto.
    - exists (set_fail fail s). split; [now apply (lookup_with_state h this s)|].
      split; [exact Hd | reflexivity]. }
  intros ?. eapply triple_bind with
    (R := fun s h => wf h /\ states h !! this = Some s /\ _done s = done /\ _fail s = fail).
  { apply triple_load; [tauto|].
    intros h s (W & s0 & Hs0 & Hd & Hf) Hs.
    rewrite Hs in Hs0. injection Hs0 as <-. auto. }
  intros s. destruct (_st s).
  - apply triple_ret. tauto.
  - eapply triple_weaken; [apply dispatch_value_wf | | cbv beta; tauto].
    cbv beta. intros h (W & Hs & Hd & Hf). destruct (W this s Hs) as [Od _].
    split; [exact W|]. split; [exact Od|].
    intros Hne. destruct (_done s) as [q|] eqn:E; [|congruence].
    exists s, q. rewrite E. auto.
  - eapply triple_weaken; [apply dispatch_error_wf | | cbv beta; tauto].
    cbv beta. intros h (W & Hs & Hd & Hf). destruct (W this s Hs) as [_ Of].
    split; [exact W|]. split; [exact Of|].
    intros Hne. destruct (_fail s) as [q|] eqn:E; [|congruence].
    exists s, q. rewrite E. auto.
Qed.

Lemma State_SetFail_wf fuel this fail :
  triple wf (fun h => wf h /\ fail_ok h this fail)
    (State_SetFail fuel this fail) (fun _ h => wf h).
Proof.
  unfold State_SetFail.
  eapply triple_bind with (R := fun _ h => wf h).
  { apply triple_modify; [tauto|].
    intros h s (W & Of) Hs. destruct (W this s Hs) as [Od' _].
    apply (wf_with_state h this s); auto. }
  intros ?. eapply triple_bind with
    (R := fun s h => wf h /\ states h !! this = Some s).
  { apply triple_load; auto. }
  intros s. destruct (_st s).
  - apply triple_ret. tauto.
  - apply triple_ret. tauto.
  - eapply triple_weaken; [apply dispatch_error_wf | | cbv beta; tauto].
    cbv beta. intros h (W & Hs). destruct (W this s Hs) as [_ Of].
    split; [exact W|]. split; [exact Of|].
    intros Hne. destruct (_fail s) as [q|] eqn:E; [|congruence].
    exists s, q. rewrite E. auto.
Qed.

Lemma State_SetDone_wf fuel this done :
  triple wf (fun h => wf h /\ done_ok h this done)
    (State_SetDone fuel this done) (fun _ h => wf h).
Proof.
  unfold State_SetDone.
  eapply triple_bind with (R := fun _ h => wf h).
  { apply triple_modify; [tauto|].
    intros h s (W & Of) Hs. destruct (W this s Hs) as [_ Of'].
    apply (wf_with_state h this s); auto. }
  intros ?. eapply triple_bind with
    (R := fun s h => wf h /\ states h !! this = Some s).
  { apply triple_load; auto. }
  intros s. destruct (_st s).
  - apply triple_ret. tauto.
  - eapply triple_weaken; [apply dispatch_value_wf | | cbv beta; tauto].
    cbv beta. intros h (W & Hs). destruct (W this s Hs) as [Od _].
    split; [exact W|]. split; [exact Od|].
    intros Hne. destruct (_done s) as [q|] eqn:E; [|congruence].
    exists s, q. rewrite E. auto.
  - apply triple_ret. tauto.
Qed.

Lemma done_ok_with_new_runnable h r a slot :
  done_ok h a slot -> done_ok (with_new_runnable h r) a slot.
Proof.
  intros H q Hq. destruct (H q Hq) as (x & Hx & Hk). exists x. split.
  - cbn. now apply lookup_app_l_Some.
  - exact Hk.
Qed.

Lemma fail_ok_with_new_runnable h r a slot :
  fail_ok h a slot -> fail_ok (with_new_runnable h r) a slot.
Proof.
  intros H q Hq. destruct (H q Hq) as (x & Hx & Hk). exists x. split.
  - cbn. now apply lookup_app_l_Some.
  - exact Hk.
Qed.

Lemma wf_with_new_runnable h r : wf h -> wf (with_new_runnable h r).
Proof.
  intros H a s Hs. destruct (H a s Hs) as [Od Of]. split.
  - now apply done_ok_with_new_runnable.
  - now apply fail_ok_with_new_runnable.
Qed.

(** A runnable allocated last fits a slot of any state before its target. *)
Lemma done_ok_new h f a :
  later h a (target_of_value f) ->
  done_ok (with_new_runnable h (Resolver f)) a (Some (length (runnables h))).
Proof.
  intros Hl q Hq. injection Hq as <-. exists (Some (Resolver f)). split.
  - cbn. now apply list_lookup_middle.
  - intros r Hr. injection Hr as <-. exists f. auto.
Qed.

Lemma fail_ok_new h f a :
  later h a (target_of_error f) ->
  fail_ok (with_new_runnable h (Rejecter f)) a (Some (length (runnables h))).
Proof.
  intros Hl q Hq. injection Hq as <-. exists (Some (Rejecter f)). split.
  - cbn. now apply list_lookup_middle.
  - intros r Hr. injection Hr as <-. exists f. auto.
Qed.

Lemma Promise_Then_wf fuel this func :
  triple wf (fun h => wf h /\ this < length (states h))
    (Promise_Then fuel this func) (fun _ h => wf h).
Proof.
  unfold Promise_Then, Deffered_new, Deffered_GetPromise.
  eapply triple_bind with
    (R := fun d h => wf h /\ this < d /\ d < length (states h)).
  { apply triple_new_State. intros h [W Hv]. split; [|split].
    - now apply (wf_with_new_state h (State_default _)).
    - exact Hv.
    - cbn. rewrite length_app. cbn. lia. }
  intros d. eapply triple_bind with
    (R := fun p h => wf h /\ this < d /\ d < length (states h) /\ done_ok h this (Some p)).
  { apply triple_new_Runnable. intros h (W & H1 & H2).
    split; [now apply wf_with_new_runnable|]. split; [exact H1|]. split; [exact H2|].
    apply done_ok_new. intros t Ht. injection Ht as <-. auto. }
  intros p. eapply triple_bind with
    (R := fun q h => wf h /\ done_ok h this (Some p) /\ fail_ok h this (Some q)).
  { apply triple_new_Runnable. intros h (W & H1 & H2 & H3).
    split; [now apply wf_with_new_runnable|].
    split; [now apply done_ok_with_new_runnable|].
    apply fail_ok_new. intros t Ht. injection Ht as <-. auto. }
  intros q. eapply triple_bind with (R := fun _ h => wf h).
  { apply State_SetFunc_wf. }
  intros ?. apply triple_ret. auto.
Qed.

Lemma Promise_Exception_wf fuel this func :
  triple wf (fun h => wf h /\ this < length (states h))
    (Promise_Exception fuel this func) (fun _ h => wf h).
Proof.
  unfold Promise_Exception, Deffered_new, Deffered_GetPromise.
  eapply triple_bind with
    (R := fun d h => wf h /\ this < d /\ d < length (states h)).
  { apply triple_new_State. intros h [W Hv]. split; [|split].
    - now apply (wf_with_new_state h (State_default _)).
    - exact Hv.
    - cbn. rewrite length_app. cbn. lia. }
  intros d. eapply triple_bind with
    (R := fun q h => wf h /\ fail_ok h this (Some q)).
  { apply triple_new_Runnable. intros h (W & H1 & H2).
    split; [now apply wf_with_new_runnable|].
    apply fail_ok_new. intros t Ht. injection Ht as <-. auto. }
  intros q. eapply triple_bind with (R := fun _ h => wf h).
  { apply State_SetFail_wf. }
  intros ?. apply triple_ret. auto.
Qed.

Lemma Promise_Finally_wf fuel this func :
  triple wf wf (Promise_Finally fuel this func) (fun _ h => wf h).
Proof.
  unfold Promise_Finally.
  eapply triple_bind with (R := fun p h => wf h /\ done_ok h this (Some p)).
  { apply triple_new_Runnable. intros h W.
    split; [now apply wf_with_new_runnable|].
    apply done_ok_new. intros t Ht. discriminate. }
  intros p. eapply triple_bind with
    (R := fun q h => wf h /\ done_ok h this (Some p) /\ fail_ok h this (Some q)).
  { apply triple_new_Runnable. intros h (W & H1).
    split; [now apply wf_with_new_runnable|].
    split; [now apply done_ok_with_new_runnable|].
    apply fail_ok_new. intros t Ht. discriminate. }
  intros q. apply State_SetFunc_wf.
Qed.

(** [delete] keeps the heap well formed: a slot may point to a deleted
    runnable. *)
Lemma delete_wf slot :
  triple wf wf (delete slot) (fun _ h => wf h).
Proof.
  intros h W. unfold delete. destruct slot as [q|]; [|exact W].
  destruct (runnables h !! q) as [[r|]|] eqn:E; cbn;
    auto using bad_pointer_no_assert.
  intros a s Hs. destruct (W a s Hs) as [Od Of]. split.
  - intros p Hp. destruct (Od p Hp) as (x & Hx & Hk).
    destruct (decide (q = p)) as [<-|Hne].
    + exists None. split.
      * cbn. apply list_lookup_insert_eq. eapply lookup_lt_Some; eauto.
      * discriminate.
    + exists x. split; [cbn; now rewrite list_lookup_insert_ne | exact Hk].
  - intros p Hp. destruct (Of p Hp) as (x & Hx & Hk).
    destruct (decide (q = p)) as [<-|Hne].
    + exists None. split.
      * cbn. apply list_lookup_insert_eq. eapply lookup_lt_Some; eauto.
      * discriminate.
    + exists x. split; [cbn; now rewrite list_lookup_insert_ne | exact Hk].
Qed.

Lemma modify_wf this f :
  (forall h s, wf h -> states h !! this = Some s ->
     done_ok h this (_done (f s)) /\ fail_ok h this (_fail (f s))) ->
  triple wf wf (modify this f) (fun _ h => wf h).
Proof.
  intros Hok. apply triple_modify; [auto|].
  intros h s Hwf Hs. destruct (Hok h s Hwf Hs) as [Od Of].
  now apply (wf_with_state h this s).
Qed.

Lemma State_Reset_wf this :
  triple wf wf (State_Reset this) (fun _ h => wf h).
Proof.
  unfold State_Reset.
  eapply triple_bind with (R := fun _ h => wf h); [apply triple_load; auto|].
  intros s.
  eapply triple_bind with (R := fun _ h => wf h); [apply delete_wf|]. intros ?.
  eapply triple_bind with (R := fun _ h => wf h); [apply delete_wf|]. intros ?.
  eapply triple_bind with (R := fun _ h => wf h).
  { apply modify_wf. intros h s0 W Hs. exact (W this s0 Hs). }
  intros ?. eapply triple_bind with (R := fun _ h => wf h).
  { apply modify_wf. intros h s0 W Hs. destruct (W this s0 Hs).
    split; [apply done_ok_None | assumption]. }
  intros ?. eapply triple_bind with (R := fun _ h => wf h).
  { apply modify_wf. intros h s0 W Hs. destruct (W this s0 Hs).
    split; [assumption | apply fail_ok_None]. }
  intros ?. apply modify_wf. intros h s0 W Hs. exact (W this s0 Hs).
Qed.

Lemma handle_wf a :
  triple wf wf (handle a) (fun _ h => wf h /\ a < length (states h)).
Proof.
  unfold handle. eapply triple_bind with
    (R := fun _ h => wf h /\ a < length (states h)).
  - apply triple_load; [auto|]. intros h s W Hs.
    split; [exact W | eapply lookup_lt_Some; eauto].
  - intros ?. apply triple_ret. auto.
Qed.

Lemma triple_then_ret {A} I P (c : M A) (Q : Heap -> Prop) :
  triple I P c (fun _ h => Q h) ->
  triple I P (_ <- c;; ret tt) (fun _ h => Q h).
Proof.
  intros H. eapply triple_bind; [exact H|]. intros ?. apply triple_ret. auto.
Qed.

Lemma run_op_wf fuel o :
  triple wf wf (run_op fuel o) (fun _ h => wf h).
Proof.
  destruct (settle_sound fuel) as [Hv He].
  destruct o; cbn [run_op].
  - apply triple_then_ret. apply triple_new_State.
    intros h W. now apply (wf_with_new_state h (State_default _)).
  - apply triple_then_ret.
    eapply triple_weaken;
      [apply (sound_triple 0), (MakeReadyPromise_sound _ Hv) | |]; cbv beta.
    + intros h W. split; [exact W | lia].
    + tauto.
  - apply triple_then_ret.
    eapply triple_weaken;
      [apply (sound_triple 0), (MakeException_sound _ He) | |]; cbv beta.
    + intros h W. split; [exact W | lia].
    + tauto.
  - eapply triple_bind; [apply handle_wf|]. intros ?.
    apply State_SetValue_wf.
  - eapply triple_bind; [apply handle_wf|]. intros ?.
    apply State_SetException_wf.
  - eapply triple_bind with (R := fun _ h => wf h).
    + eapply triple_weaken; [apply handle_wf | auto | cbv beta; tauto].
    + intros ?. apply State_Reset_wf.
  - eapply triple_bind with (R := fun _ h => wf h).
    + eapply triple_weaken; [apply handle_wf | auto | cbv beta; tauto].
    + intros ?. apply triple_then_ret. unfold Promise_GetStatus.
      eapply triple_bind with (R := fun _ h => wf h); [apply triple_load; auto|].
      intros s. apply triple_ret. auto.
  - eapply triple_bind with (R := fun _ h => wf h).
    + eapply triple_weaken; [apply handle_wf | auto | cbv beta; tauto].
    + intros ?. apply triple_then_ret.
      eapply triple_weaken;
        [apply (sound_triple p), (Promise_GetValue_sound p p (le_n p)) | |];
        cbv beta; tauto.
  - eapply triple_bind with (R := fun _ h => wf h).
    + eapply triple_weaken; [apply handle_wf | auto | cbv beta; tauto].
    + intros ?. apply triple_then_ret.
      eapply triple_weaken;
        [apply (sound_triple p), (get_exception_sound p p (le_n p)) | |];
        cbv beta; tauto.
  - eapply triple_bind; [apply handle_wf|]. intros ?.
    apply triple_then_ret. apply Promise_Then_wf.
  - eapply triple_bind; [apply handle_wf|]. intros ?.
    apply triple_then_ret. apply Promise_Exception_wf.
  - eapply triple_bind with (R := fun _ h => wf h).
    + eapply triple_weaken; [apply handle_wf | auto | cbv beta; tauto].
    + intros ?. apply Promise_Finally_wf.
Qed.

Lemma run_ops_wf fuel os :
  triple wf wf (run_ops fuel os) (fun _ h => wf h).
Proof.
  induction os as [|o os IH]; cbn [run_ops].
  - apply triple_ret. auto.
  - eapply triple_bind; [apply run_op_wf|]. intros ?. exact IH.
Qed.

(** Whatever the interface builds is well-formed. *)
Lemma built_wf fuel os : wf (snd (run_ops fuel os empty_heap)).
Proof.
  pose proof (run_ops_wf fuel os empty_heap wf_empty) as H.
  destruct (run_ops fuel os empty_heap) as [[x|t|] h]; cbn in *; tauto.
Qed.

(** ** The two [assert(0)] are unreachable *)

(** C10.  A program of any calls of the public interface (the
    factories, settling through a [Deffered], [Reset], the reads, [Then],
    [Exception], [Finally]), run from the empty heap with any fuel, never
    stops at the [assert(0)] of [Resolver::SetException] or of
    [Rejecter::SetValue]; and in the heap it leaves, what a success slot
    points to is a [Resolver] and what a failure slot points to is a
    [Rejecter]. *)
Theorem library_asserts_unreachable fuel os :
  let out := run_ops fuel os empty_heap in
  fst out <> Trap assert_Resolver_SetException /\
  fst out <> Trap assert_Rejecter_SetValue /\
  (forall a s q r, states (snd out) !! a = Some s ->
     runnables (snd out) !! q = Some (Some r) ->
     (_done s = Some q -> exists f, r = Resolver f) /\
     (_fail s = Some q -> exists f, r = Rejecter f)).
Proof.
  intros out. subst out.
  pose proof (run_ops_wf fuel os empty_heap wf_empty) as H.
  destruct (run_ops fuel os empty_heap) as [[[]|t|] h]; cbn [ends fst snd] in *.
  - split; [discriminate|]. split; [discriminate|].
    intros a s q r Hs Hr. destruct (H a s Hs) as [Od Of]. split; intros Hq.
    + destruct (Od q Hq) as (x & Hx & Hk). rewrite Hx in Hr. injection Hr as ->.
      destruct (Hk r eq_refl) as (f & -> & _). eauto.
    + destruct (Of q Hq) as (x & Hx & Hk). rewrite Hx in Hr. injection Hr as ->.
      destruct (Hk r eq_refl) as (f & -> & _). eauto.
  - destruct H as [W Ht]. unfold library_assert in Ht.
    split; [intros E; injection E as ->; tauto|].
    split; [intros E; injection E as ->; tauto|].
    intros a s q r Hs Hr. destruct (W a s Hs) as [Od Of]. split; intros Hq.
    + destruct (Od q Hq) as (x & Hx & Hk). rewrite Hx in Hr. injection Hr as ->.
      destruct (Hk r eq_refl) as (f & -> & _). eauto.
    + destruct (Of q Hq) as (x & Hx & Hk). rewrite Hx in Hr. injection Hr as ->.
      destruct (Hk r eq_refl) as (f & -> & _). eauto.
  - split; [discriminate|]. split; [discriminate|].
    intros a s q r Hs Hr. destruct (H a s Hs) as [Od Of]. split; intros Hq.
    + destruct (Od q Hq) as (x & Hx & Hk). rewrite Hx in Hr. injection Hr as ->.
      destruct (Hk r eq_refl) as (f & -> & _). eauto.
    + destruct (Of q Hq) as (x & Hx & Hk). rewrite Hx in Hr. injection Hr as ->.
      destruct (Hk r eq_refl) as (f & -> & _). eauto.
Qed.

(** ** Dispatch *)

(** Settling a state that holds a continuation of the matching side: the
    continuation is run inside the settling call, with the payload, in a
    heap where the state is pending again. *)
Lemma State_SetValue_dispatch k h this s q f v :
  states h !! this = Some s -> _done s = Some q ->
  runnables h !! q = Some (Some (Resolver f)) ->
  State_SetValue (S k) this v h =
  run_value_func (State_SetValue k) (State_SetException k) f v
    (mk_Heap
       (<[this := mk_State pending (Some q) (_fail s) (map moved_from v) (_e s)]>
          (states h))
       (runnables h)
       (trace h ++ [EvSettle this (Bundle v); EvDispatch this (Some q) (Bundle v)])).
Proof.
  intros Hs Hd Hq. open h s.
  run. unfold get_value. run. unfold Runnable_SetValue. run.
  unfold move_tuple. run. reflexivity.
Qed.

Lemma State_SetException_dispatch k h this s q f e :
  states h !! this = Some s -> _fail s = Some q ->
  runnables h !! q = Some (Some (Rejecter f)) ->
  State_SetException (S k) this e h =
  run_error_func (State_SetValue k) (State_SetException k) f e
    (mk_Heap
       (<[this := mk_State pending (_done s) (Some q) (_value s) None]> (states h))
       (runnables h)
       (trace h ++ [EvSettle this (Error e); EvDispatch this (Some q) (Error e)])).
Proof.
  intros Hs Hd Hq. open h s.
  run. unfold get_exception. run. unfold Runnable_SetException. run.
  reflexivity.
Qed.

(** Registering on a state that is settled with the matching outcome: the
    continuation is run inside the registering call, with the stored
    payload. *)
Lemma State_SetDone_dispatch fuel h this s q f :
  states h !! this = Some s -> _st s = fulfilled ->
  runnables h !! q = Some (Some (Resolver f)) ->
  State_SetDone fuel this (Some q) h =
  run_value_func (State_SetValue fuel) (State_SetException fuel) f (_value s)
    (mk_Heap
       (<[this := mk_State pending (Some q) (_fail s) (map moved_from (_value s)) (_e s)]>
          (states h))
       (runnables h)
       (trace h ++ [EvDispatch this (Some q) (Bundle (_value s))])).
Proof.
  intros Hs Hd Hq. open h s.
  unfold State_SetDone. run. unfold get_value. run. unfold Runnable_SetValue. run.
  unfold move_tuple. run. reflexivity.
Qed.

Lemma State_SetFail_dispatch fuel h this s q f :
  states h !! this = Some s -> _st s = rejected ->
  runnables h !! q = Some (Some (Rejecter f)) ->
  State_SetFail fuel this (Some q) h =
  run_error_func (State_SetValue fuel) (State_SetException fuel) f (_e s)
    (mk_Heap
       (<[this := mk_State pending (_done s) (Some q) (_value s) None]> (states h))
       (runnables h)
       (trace h ++ [EvDispatch this (Some q) (Error (_e s))])).
Proof.
  intros Hs Hd Hq. open h s.
  unfold State_SetFail. run. unfold get_exception. run.
  unfold Runnable_SetException. run. reflexivity.
Qed.

Lemma State_SetFunc_dispatch_value fuel h this s q q' f :
  states h !! this = Some s -> _st s = fulfilled ->
  runnables h !! q = Some (Some (Resolver f)) ->
  State_SetFunc fuel this (Some q) q' h =
  run_value_func (State_SetValue fuel) (State_SetException fuel) f (_value s)
    (mk_Heap
       (<[this := mk_State pending (Some q) q' (map moved_from (_value s)) (_e s)]>
          (states h))
       (runnables h)
       (trace h ++ [EvDispatch this (Some q) (Bundle (_value s))])).
Proof.
  intros Hs Hd Hq. open h s.
  unfold State_SetFunc. run. unfold get_value. run. unfold Runnable_SetValue. run.
  unfold move_tuple. run. reflexivity.
Qed.

Lemma State_SetFunc_dispatch_error fuel h this s q q' f :
  states h !! this = Some s -> _st s = rejected ->
  runnables h !! q = Some (Some (Rejecter f)) ->
  State_SetFunc fuel this q' (Some q) h =
  run_error_func (State_SetValue fuel) (State_SetException fuel) f (_e s)
    (mk_Heap
       (<[this := mk_State pending q' (Some q) (_value s) None]> (states h))
       (runnables h)
       (trace h ++ [EvDispatch this (Some q) (Error (_e s))])).
Proof.
  intros Hs Hd Hq. open h s.
  unfold State_SetFunc. run. unfold get_exception. run.
  unfold Runnable_SetException. run. reflexivity.
Qed.

(** Events of later states say nothing about the state at [a]. *)
Lemma legit_later_quiet h a evs :
  Forall (legit h (S a)) evs -> calls_of a evs = [] /\ settlements a evs = [].
Proof.
  induction 1 as [|ev evs Hev _ [IH1 IH2]]; [split; reflexivity|].
  unfold calls_of, settlements in *. cbn [omap list_omap].
  destruct ev as [b x|b p x| | | |]; cbn [legit] in Hev; cbn; auto.
  - destruct (Nat.eqb_spec b a); [lia|]. auto.
  - destruct Hev as [Hb _]. destruct (Nat.eqb_spec b a); [lia|]. auto.
Qed.

Lemma calls_of_app a tr evs : calls_of a (tr ++ evs) = calls_of a tr ++ calls_of a evs.
Proof. apply omap_app. Qed.

Lemma settlements_app a tr evs :
  settlements a (tr ++ evs) = settlements a tr ++ settlements a evs.
Proof. apply omap_app. Qed.

(** On a well-formed heap a continuation whose target lies later leaves
    the state it was called by alone: the state makes no further call
    and is not settled again, and stays pending. *)
Lemma run_value_func_quiet k h this s' f v :
  wf h -> states h !! this = Some s' ->
  later h this (target_of_value f) ->
  let h' := snd (run_value_func (State_SetValue k) (State_SetException k) f v h) in
  calls_of this (trace h') = calls_of this (trace h) /\
  settlements this (trace h') = settlements this (trace h) /\
  states h' !! this = Some s'.
Proof.
  intros W Hs Hl h'. subst h'.
  destruct (settle_sound k) as [Hv He].
  destruct (run_value_func_sound _ _ Hv He (S this) f v h W) as (_ & F & _).
  { intros d Hd. destruct (Hl d Hd). lia. }
  destruct (frame_trace _ _ _ F) as (evs & -> & Hevs).
  destruct (legit_later_quiet _ _ _ Hevs) as [E1 E2].
  rewrite calls_of_app, settlements_app, E1, E2, !app_nil_r.
  rewrite (frame_below _ _ _ F) by lia. auto.
Qed.

Lemma run_error_func_quiet k h this s' f e :
  wf h -> states h !! this = Some s' ->
  later h this (target_of_error f) ->
  let h' := snd (run_error_func (State_SetValue k) (State_SetException k) f e h) in
  calls_of this (trace h') = calls_of this (trace h) /\
  settlements this (trace h') = settlements this (trace h) /\
  states h' !! this = Some s'.
Proof.
  intros W Hs Hl h'. subst h'.
  destruct (settle_sound k) as [Hv He].
  destruct (run_error_func_sound _ _ Hv He (S this) f e h W) as (_ & F & _).
  { intros d Hd. destruct (Hl d Hd). lia. }
  destruct (frame_trace _ _ _ F) as (evs & -> & Hevs).
  destruct (legit_later_quiet _ _ _ Hevs) as [E1 E2].
  rewrite calls_of_app, settlements_app, E1, E2, !app_nil_r.
  rewrite (frame_below _ _ _ F) by lia. auto.
Qed.

Lemma wf_consumed_value h this s done fail v evs :
  wf h -> states h !! this = Some s ->
  done_ok h this done -> fail_ok h this fail ->
  wf (consumed_value h this s done fail v evs).
Proof.
  intros W Hs Od Of.
  apply (wf_with_events (with_state h this _) evs).
  now apply (wf_with_state h this s).
Qed.

Lemma wf_consumed_error h this s done fail evs :
  wf h -> states h !! this = Some s ->
  done_ok h this done -> fail_ok h this fail ->
  wf (consumed_error h this s done fail evs).
Proof.
  intros W Hs Od Of.
  apply (wf_with_events (with_state h this _) evs).
  now apply (wf_with_state h this s).
Qed.

Lemma calls_of_self a p x : calls_of a [EvDispatch a p x] = [(p, x)].
Proof. unfold calls_of. cbn. now rewrite Nat.eqb_refl. Qed.

Lemma settlements_self a x : settlements a [EvSettle a x] = [x].
Proof. unfold settlements. cbn. now rewrite Nat.eqb_refl. Qed.

Lemma calls_of_settle a b x : calls_of a [EvSettle b x] = [].
Proof. reflexivity. Qed.

Lemma settlements_dispatch a b p x : settlements a [EvDispatch b p x] = [].
Proof. reflexivity. Qed.

Lemma done_ok_live h a q f :
  runnables h !! q = Some (Some (Resolver f)) ->
  later h a (target_of_value f) -> done_ok h a (Some q).
Proof.
  intros Hq Hl p Hp. injection Hp as <-. exists (Some (Resolver f)).
  split; [exact Hq|]. intros r Hr. injection Hr as <-. eauto.
Qed.

Lemma fail_ok_live h a q f :
  runnables h !! q = Some (Some (Rejecter f)) ->
  later h a (target_of_error f) -> fail_ok h a (Some q).
Proof.
  intros Hq Hl p Hp. injection Hp as <-. exists (Some (Rejecter f)).
  split; [exact Hq|]. intros r Hr. injection Hr as <-. eauto.
Qed.

Lemma later_consumed_value h this s done fail v evs a t :
  later h a t -> later (consumed_value h this s done fail v evs) a t.
Proof.
  intros H d Hd. destruct (H d Hd).
  cbn [consumed_value states]. now rewrite length_insert.
Qed.

Lemma later_consumed_error h this s done fail evs a t :
  later h a t -> later (consumed_error h this s done fail evs) a t.
Proof.
  intros H d Hd. destruct (H d Hd).
  cbn [consumed_error states]. now rewrite length_insert.
Qed.

(** One settlement, one call: on a well-formed heap, settling a state
    that holds a continuation adds exactly one call by the state and
    exactly one settlement of it to the trace, and leaves it pending. *)
Lemma State_SetValue_once k h this s q f v :
  wf h -> states h !! this = Some s -> _done s = Some q ->
  runnables h !! q = Some (Some (Resolver f)) ->
  later h this (target_of_value f) ->
  let h' := snd (State_SetValue (S k) this v h) in
  calls_of this (trace h') = calls_of this (trace h) ++ [(Some q, Bundle v)] /\
  settlements this (trace h') = settlements this (trace h) ++ [Bundle v] /\
  _st <$> states h' !! this = Some pending.
Proof.
  intros W Hs Hd Hq Hl h'. subst h'.
  rewrite (State_SetValue_dispatch k h this s q f v Hs Hd Hq).
  fold (consumed_value h this s (Some q) (_fail s) v
          [EvSettle this (Bundle v); EvDispatch this (Some q) (Bundle v)]).
  edestruct (run_value_func_quiet k) as (E1 & E2 & E3);
    [ apply (wf_consumed_value h this s (Some q) (_fail s) v); eauto;
      [ eapply done_ok_live; eauto | exact (proj2 (W this s Hs)) ]
    | apply (lookup_with_state h this s); exact Hs
    | apply later_consumed_value; exact Hl
    | ].
  rewrite E1, E2, E3. cbn [consumed_value trace].
  change [EvSettle this (Bundle v); EvDispatch this (Some q) (Bundle v)]
    with ([EvSettle this (Bundle v)] ++ [EvDispatch this (Some q) (Bundle v)]).
  rewrite !calls_of_app, !settlements_app, calls_of_self, settlements_self.
  rewrite calls_of_settle, settlements_dispatch, app_nil_r. auto.
Qed.

Lemma State_SetException_once k h this s q f e :
  wf h -> states h !! this = Some s -> _fail s = Some q ->
  runnables h !! q = Some (Some (Rejecter f)) ->
  later h this (target_of_error f) ->
  let h' := snd (State_SetException (S k) this e h) in
  calls_of this (trace h') = calls_of this (trace h) ++ [(Some q, Error e)] /\
  settlements this (trace h') = settlements this (trace h) ++ [Error e] /\
  _st <$> states h' !! this = Some pending.
Proof.
  intros W Hs Hd Hq Hl h'. subst h'.
  rewrite (State_SetException_dispatch k h this s q f e Hs Hd Hq).
  fold (consumed_error h this s (_done s) (Some q)
          [EvSettle this (Error e); EvDispatch this (Some q) (Error e)]).
  edestruct (run_error_func_quiet k) as (E1 & E2 & E3);
    [ apply (wf_consumed_error h this s (_done s) (Some q)); eauto;
      [ exact (proj1 (W this s Hs)) | eapply fail_ok_live; eauto ]
    | apply (lookup_with_state h this s); exact Hs
    | apply later_consumed_error; exact Hl
    | ].
  rewrite E1, E2, E3. cbn [consumed_error trace].
  change [EvSettle this (Error e); EvDispatch this (Some q) (Error e)]
    with ([EvSettle this (Error e)] ++ [EvDispatch this (Some q) (Error e)]).
  rewrite !calls_of_app, !settlements_app, calls_of_self, settlements_self.
  rewrite calls_of_settle, settlements_dispatch, app_nil_r. auto.
Qed.

(** One registration on a settled state, one call. *)
Lemma State_SetDone_once fuel h this s q f :
  wf h -> states h !! this = Some s -> _st s = fulfilled ->
  runnables h !! q = Some (Some (Resolver f)) ->
  later h this (target_of_value f) ->
  let h' := snd (State_SetDone fuel this (Some q) h) in
  calls_of this (trace h') = calls_of this (trace h) ++ [(Some q, Bundle (_value s))] /\
  settlements this (trace h') = settlements this (trace h) /\
  _st <$> states h' !! this = Some pending.
Proof.
  intros W Hs Hd Hq Hl h'. subst h'.
  rewrite (State_SetDone_dispatch fuel h this s q f Hs Hd Hq).
  fold (consumed_value h this s (Some q) (_fail s) (_value s)
          [EvDispatch this (Some q) (Bundle (_value s))]).
  edestruct (run_value_func_quiet fuel) as (E1 & E2 & E3);
    [ apply (wf_consumed_value h this s (Some q) (_fail s) (_value s)); eauto;
      [ eapply done_ok_live; eauto | exact (proj2 (W this s Hs)) ]
    | apply (lookup_with_state h this s); exact Hs
    | apply later_consumed_value; exact Hl
    | ].
  rewrite E1, E2, E3. cbn [consumed_value trace].
  rewrite !calls_of_app, !settlements_app, calls_of_self.
  rewrite settlements_dispatch, app_nil_r. auto.
Qed.

Lemma State_SetFail_once fuel h this s q f :
  wf h -> states h !! this = Some s -> _st s = rejected ->
  runnables h !! q = Some (Some (Rejecter f)) ->
  later h this (target_of_error f) ->
  let h' := snd (State_SetFail fuel this (Some q) h) in
  calls_of this (trace h') = calls_of this (trace h) ++ [(Some q, Error (_e s))] /\
  settlements this (trace h') = settlements this (trace h) /\
  _st <$> states h' !! this = Some pending.
Proof.
  intros W Hs Hd Hq Hl h'. subst h'.
  rewrite (State_SetFail_dispatch fuel h this s q f Hs Hd Hq).
  fold (consumed_error h this s (_done s) (Some q)
          [EvDispatch this (Some q) (Error (_e s))]).
  edestruct (run_error_func_quiet fuel) as (E1 & E2 & E3);
    [ apply (wf_consumed_error h this s (_done s) (Some q)); eauto;
      [ exact (proj1 (W this s Hs)) | eapply fail_ok_live; eauto ]
    | apply (lookup_with_state h this s); exact Hs
    | apply later_consumed_error; exact Hl
    | ].
  rewrite E1, E2, E3. cbn [consumed_error trace].
  rewrite !calls_of_app, !settlements_app, calls_of_self.
  rewrite settlements_dispatch, app_nil_r. auto.
Qed.

Lemma wf_later_value h a s q f :
  wf h -> states h !! a = Some s -> _done s = Some q ->
  runnables h !! q = Some (Some (Resolver f)) -> later h a (target_of_value f).
Proof.
  intros W Hs Hd Hq. destruct (W a s Hs) as [Od _].
  destruct (Od q Hd) as (x & Hx & Hk). rewrite Hx in Hq. injection Hq as ->.
  destruct (Hk _ eq_refl) as (f' & E & Hl). now injection E as <-.
Qed.

Lemma wf_later_error h a s q f :
  wf h -> states h !! a = Some s -> _fail s = Some q ->
  runnables h !! q = Some (Some (Rejecter f)) -> later h a (target_of_error f).
Proof.
  intros W Hs Hd Hq. destruct (W a s Hs) as [_ Of].
  destruct (Of q Hd) as (x & Hx & Hk). rewrite Hx in Hq. injection Hq as ->.
  destruct (Hk _ eq_refl) as (f' & E & Hl). now injection E as <-.
Qed.

Lemma State_SetFunc_once_value fuel h this s q f fail :
  wf h -> states h !! this = Some s -> _st s = fulfilled ->
  runnables h !! q = Some (Some (Resolver f)) ->
  later h this (target_of_value f) -> fail_ok h this fail ->
  let h' := snd (State_SetFunc fuel this (Some q) fail h) in
  calls_of this (trace h') = calls_of this (trace h) ++ [(Some q, Bundle (_value s))] /\
  settlements this (trace h') = settlements this (trace h) /\
  _st <$> states h' !! this = Some pending.
Proof.
  intros W Hs Hd Hq Lf Of h'. subst h'.
  rewrite (State_SetFunc_dispatch_value fuel h this s q fail f Hs Hd Hq).
  fold (consumed_value h this s (Some q) fail (_value s)
          [EvDispatch this (Some q) (Bundle (_value s))]).
  edestruct (run_value_func_quiet fuel) as (E1 & E2 & E3);
    [ apply (wf_consumed_value h this s (Some q) fail (_value s)); eauto;
      eapply done_ok_live; eauto
    | apply (lookup_with_state h this s); exact Hs
    | apply later_consumed_value; exact Lf
    | ].
  rewrite E1, E2, E3. cbn [consumed_value trace].
  rewrite !calls_of_app, !settlements_app, calls_of_self.
  rewrite settlements_dispatch, app_nil_r. auto.
Qed.

Lemma State_SetFunc_once_error fuel h this s done p g :
  wf h -> states h !! this = Some s -> _st s = rejected ->
  runnables h !! p = Some (Some (Rejecter g)) ->
  later h this (target_of_error g) -> done_ok h this done ->
  let h' := snd (State_SetFunc fuel this done (Some p) h) in
  calls_of this (trace h') = calls_of this (trace h) ++ [(Some p, Error (_e s))] /\
  settlements this (trace h') = settlements this (trace h) /\
  _st <$> states h' !! this = Some pending.
Proof.
  intros W Hs Hd Hp Lg Od h'. subst h'.
  rewrite (State_SetFunc_dispatch_error fuel h this s p done g Hs Hd Hp).
  fold (consumed_error h this s done (Some p)
          [EvDispatch this (Some p) (Error (_e s))]).
  edestruct (run_error_func_quiet fuel) as (E1 & E2 & E3);
    [ apply (wf_consumed_error h this s done (Some p)); eauto;
      eapply fail_ok_live; eauto
    | apply (lookup_with_state h this s); exact Hs
    | apply later_consumed_error; exact Lg
    | ].
  rewrite E1, E2, E3. cbn [consumed_error trace].
  rewrite !calls_of_app, !settlements_app, calls_of_self.
  rewrite settlements_dispatch, app_nil_r. auto.
Qed.

(** C6.  Registering on a pending state, whatever is registered, stores
    the pointer and calls nothing.  A later [SetValue] on a state that
    holds a [Resolver], or [SetException] on one that holds a
    [Rejecter], runs that continuation inside the settling call, with
    the payload the call was given.  Registering a [Resolver] on a
    fulfilled state ([SetDone], or [SetFunc] with anything in the other
    slot), or a [Rejecter] on a rejected state ([SetFail], [SetFunc]),
    runs it inside the registering call, with the stored payload.  In
    each case the continuation starts in a heap where the state is
    pending again, so that a later registration calls nothing.  Each
    part speaks of the one continuation it is about: a state that holds
    only a [Rejecter], as [Exception] leaves it, is covered.  On a
    well-formed heap settling a state that holds a continuation adds
    exactly one call by the state to the trace, however the continuation
    goes on, and leaves the state pending; so does registering, on a
    state settled with the matching outcome, a continuation whose target
    lies later (what the operators build), the other slot of [SetFunc]
    being given what a slot may hold: one dispatch per settlement. *)
Theorem dispatch_in_the_second_call fuel k h this s :
  states h !! this = Some s ->
  (_st s = pending -> forall done fail,
   State_SetDone fuel this done h =
     (Done tt, with_state h this (set_done done s)) /\
   State_SetFail fuel this fail h =
     (Done tt, with_state h this (set_fail fail s)) /\
   State_SetFunc fuel this done fail h =
     (Done tt, with_state h this (set_fail fail (set_done done s)))) /\
  (forall q f v, _done s = Some q ->
   runnables h !! q = Some (Some (Resolver f)) ->
   State_SetValue (S k) this v h =
   run_value_func (State_SetValue k) (State_SetException k) f v
     (consumed_value h this s (Some q) (_fail s) v
        [EvSettle this (Bundle v); EvDispatch this (Some q) (Bundle v)])) /\
  (forall p g e, _fail s = Some p ->
   runnables h !! p = Some (Some (Rejecter g)) ->
   State_SetException (S k) this e h =
   run_error_func (State_SetValue k) (State_SetException k) g e
     (consumed_error h this s (_done s) (Some p)
        [EvSettle this (Error e); EvDispatch this (Some p) (Error e)])) /\
  (forall q f, _st s = fulfilled ->
   runnables h !! q = Some (Some (Resolver f)) ->
   State_SetDone fuel this (Some q) h =
   run_value_func (State_SetValue fuel) (State_SetException fuel) f (_value s)
     (consumed_value h this s (Some q) (_fail s) (_value s)
        [EvDispatch this (Some q) (Bundle (_value s))]) /\
   forall fail,
   State_SetFunc fuel this (Some q) fail h =
   run_value_func (State_SetValue fuel) (State_SetException fuel) f (_value s)
     (consumed_value h this s (Some q) fail (_value s)
        [EvDispatch this (Some q) (Bundle (_value s))])) /\
  (forall p g, _st s = rejected ->
   runnables h !! p = Some (Some (Rejecter g)) ->
   State_SetFail fuel this (Some p) h =
   run_error_func (State_SetValue fuel) (State_SetException fuel) g (_e s)
     (consumed_error h this s (_done s) (Some p)
        [EvDispatch this (Some p) (Error (_e s))]) /\
   forall done,
   State_SetFunc fuel this done (Some p) h =
   run_error_func (State_SetValue fuel) (State_SetException fuel) g (_e s)
     (consumed_error h this s done (Some p)
        [EvDispatch this (Some p) (Error (_e s))])) /\
  (wf h ->
   (forall q f v, _done s = Some q ->
    runnables h !! q = Some (Some (Resolver f)) ->
    let h' := snd (State_SetValue (S k) this v h) in
    calls_of this (trace h') = calls_of this (trace h) ++ [(Some q, Bundle v)] /\
    settlements this (trace h') = settlements this (trace h) ++ [Bundle v] /\
    _st <$> states h' !! this = Some pending) /\
   (forall p g e, _fail s = Some p ->
    runnables h !! p = Some (Some (Rejecter g)) ->
    let h' := snd (State_SetException (S k) this e h) in
    calls_of this (trace h') = calls_of this (trace h) ++ [(Some p, Error e)] /\
    settlements this (trace h') = settlements this (trace h) ++ [Error e] /\
    _st <$> states h' !! this = Some pending) /\
   (forall q f, _st s = fulfilled ->
    runnables h !! q = Some (Some (Resolver f)) ->
    later h this (target_of_value f) ->
    forall h', h' = snd (State_SetDone fuel this (Some q) h) \/
               (exists fail, fail_ok h this fail /\
                  h' = snd (State_SetFunc fuel this (Some q) fail h)) ->
    calls_of this (trace h') =
      calls_of this (trace h) ++ [(Some q, Bundle (_value s))] /\
    settlements this (trace h') = settlements this (trace h) /\
    _st <$> states h' !! this = Some pending) /\
   (forall p g, _st s = rejected ->
    runnables h !! p = Some (Some (Rejecter g)) ->
    later h this (target_of_error g) ->
    forall h', h' = snd (State_SetFail fuel this (Some p) h) \/
               (exists done, done_ok h this done /\
                  h' = snd (State_SetFunc fuel this done (Some p) h)) ->
    calls_of this (trace h') =
      calls_of this (trace h) ++ [(Some p, Error (_e s))] /\
    settlements this (trace h') = settlements this (trace h) /\
    _st <$> states h' !! this = Some pending)).
Proof.
  intros Hs.
  split; [|split; [|split; [|split; [|split]]]].
  - intros Hst done fail. split; [|split].
    + now apply State_SetDone_pending.
    + now apply State_SetFail_pending.
    + now apply State_SetFunc_pending.
  - intros q f v Hd Hq. now apply State_SetValue_dispatch.
  - intros p g e Hf Hp. now apply State_SetException_dispatch.
  - intros q f Hst Hq. split.
    + now apply State_SetDone_dispatch.
    + intros fail. now apply State_SetFunc_dispatch_value.
  - intros p g Hst Hp. split.
    + now apply State_SetFail_dispatch.
    + intros done. now apply State_SetFunc_dispatch_error.
  - intros W. split; [|split; [|split]].
    + intros q f v Hd Hq.
      apply (State_SetValue_once k h this s q f v); auto.
      exact (wf_later_value h this s q f W Hs Hd Hq).
    + intros p g e Hf Hp.
      apply (State_SetException_once k h this s p g e); auto.
      exact (wf_later_error h this s p g W Hs Hf Hp).
    + intros q f Hst Hq Lf h' [->|(fail & Of & ->)].
      * now apply (State_SetDone_once fuel h this s q f).
      * now apply (State_SetFunc_once_value fuel h this s q f fail).
    + intros p g Hst Hp Lg h' [->|(done & Od & ->)].
      * now apply (State_SetFail_once fuel h this s p g).
      * now apply (State_SetFunc_once_error fuel h this s done p g).
Qed.

Lemma dispatch_in_the_second_call_witness :
  let h := snd (run_ops 0 [OpDeffered [TInt]; OpException 0 recover] empty_heap) in
  let E := Some (TestException "E") in
  let h' := snd (State_SetException 2 0 E h) in
  states h = [mk_State pending None (Some 0) [VInt 0] None; State_default []] /\
  runnables h = [Some (Rejecter (exception_fail recover 1))] /\
  calls_of 0 (trace h') = [(Some 0, Error E)] /\
  settlements 0 (trace h') = [Error E] /\
  _st <$> states h' !! 0 = Some pending.
Proof.
  intros h E h'. split; [reflexivity|]. split; [reflexivity|].
  destruct (dispatch_in_the_second_call 0 1 h 0
              (mk_State pending None (Some 0) [VInt 0] None) eq_refl)
    as (_ & _ & _ & _ & _ & Once).
  destruct (Once (built_wf 0 [OpDeffered [TInt]; OpException 0 recover]))
    as (_ & Err & _).
  exact (Err 0 (exception_fail recover 1) E eq_refl eq_refl).
Defined.

(** ** [Exception] on a fulfilled stage *)

Lemma aims_shrink h s s' t :
  (_done s' = _done s \/ _done s' = None) ->
  (_fail s' = _fail s \/ _fail s' = None) ->
  aims h s' t -> aims h s t.
Proof.
  intros Hd Hf [(q & f & Hq & Hr & Ht)|(q & f & Hq & Hr & Ht)]; [left|right];
    exists q, f; (split; [|auto]).
  - destruct Hd as [E|E]; congruence.
  - destruct Hf as [E|E]; congruence.
Qed.

Section stall.
Variables (Q : addr -> Prop) (c n : addr) (pw : ptr) (tr0 : list event).

Lemma stall_valid h : stalled Q c n pw tr0 h -> n < length (states h).
Proof.
  intros HK. destruct (stalled_pending _ _ _ _ _ _ HK) as (sn & Hn & _).
  eapply lookup_lt_Some; eauto.
Qed.

Lemma stall_source_not_apart h : stalled Q c n pw tr0 h -> ~ apart Q n c.
Proof.
  intros HK [H|[_ H]].
  - pose proof (stalled_order _ _ _ _ _ _ HK). lia.
  - exact (stalled_out _ _ _ _ _ _ HK H).
Qed.

Lemma apart_other a : apart Q n a -> a <> n.
Proof. unfold apart. lia. Qed.

Lemma stall_done_slot h a s :
  stalled Q c n pw tr0 h -> states h !! a = Some s -> _done s <> Some pw.
Proof.
  intros HK Hs. destruct (decide (a = c)) as [->|Hne].
  - destruct (stalled_source _ _ _ _ _ _ HK) as (sc & Hc & _ & Dc). congruence.
  - now apply (stalled_slots _ _ _ _ _ _ HK a s).
Qed.

Lemma stall_events h evs :
  stalled Q c n pw tr0 h -> Forall (calm n pw) evs ->
  stalled Q c n pw tr0 (with_events h evs).
Proof.
  intros [W O Pn Pc Sl Pp Qc Ap (evs0 & Ht & He)] Hevs.
  split; [now apply wf_with_events | exact O | exact Pn | exact Pc | exact Sl
         | exact Pp | exact Qc | exact Ap | ].
  exists (evs0 ++ evs). split.
  - cbn. rewrite Ht. now rewrite app_assoc.
  - now apply Forall_app.
Qed.

Lemma stall_with_state h a s s' :
  stalled Q c n pw tr0 h -> states h !! a = Some s ->
  done_ok h a (_done s') -> fail_ok h a (_fail s') ->
  _done s' <> Some pw -> (a <> c -> _fail s' <> Some pw) ->
  (a = n -> _st s' = pending) -> (a = c -> _st s' <> rejected) ->
  (apart Q n a -> forall t, aims h s' t -> apart Q n t) ->
  stalled Q c n pw tr0 (with_state h a s').
Proof.
  intros [W O (sn & Hn & Stn) (sc & Hc & Stc & Dc) Sl Pp Qc Ap Tr]
    Hs Od Of Hd Hf Hn' Hc' Ha.
  pose proof (lookup_lt_Some _ _ _ Hs) as Hlt.
  split; [ | exact O | | | | exact Pp | exact Qc | | exact Tr].
  - now apply (wf_with_state h a s).
  - cbn. destruct (decide (a = n)) as [->|Hne].
    + exists s'. rewrite list_lookup_insert_eq by exact Hlt. auto.
    + exists sn. rewrite list_lookup_insert_ne by exact Hne. auto.
  - cbn. destruct (decide (a = c)) as [->|Hne].
    + exists s'. rewrite list_lookup_insert_eq by exact Hlt. auto.
    + exists sc. rewrite list_lookup_insert_ne by exact Hne. auto.
  - intros b sb Hb Hbc. cbn in Hb. destruct (decide (a = b)) as [<-|Hne].
    + rewrite list_lookup_insert_eq in Hb by exact Hlt. injection Hb as <-. auto.
    + rewrite list_lookup_insert_ne in Hb by exact Hne. now apply (Sl b).
  - intros b sb t Hb Hab Ht. cbn in Hb. destruct (decide (a = b)) as [<-|Hne].
    + rewrite list_lookup_insert_eq in Hb by exact Hlt. injection Hb as <-.
      now apply Ha.
    + rewrite list_lookup_insert_ne in Hb by exact Hne. now apply (Ap b sb).
Qed.

(** A state that keeps or drops its continuations. *)
Lemma stall_update h a s s' :
  stalled Q c n pw tr0 h -> states h !! a = Some s ->
  (_done s' = _done s \/ _done s' = None) ->
  (_fail s' = _fail s \/ _fail s' = None) ->
  (a = n -> _st s' = pending) -> (a = c -> _st s' <> rejected) ->
  stalled Q c n pw tr0 (with_state h a s').
Proof.
  intros HK Hs Hd Hf Hn Hc.
  destruct (stalled_wf _ _ _ _ _ _ HK a s Hs) as [Od Of].
  pose proof (stall_done_slot h a s HK Hs) as Dn.
  apply (stall_with_state h a s); auto.
  - destruct Hd as [->| ->]; [exact Od | apply done_ok_None].
  - destruct Hf as [->| ->]; [exact Of | apply fail_ok_None].
  - destruct Hd as [->| ->]; [exact Dn | discriminate].
  - intros Hne. destruct Hf as [->| ->]; [|discriminate].
    now apply (stalled_slots _ _ _ _ _ _ HK a s).
  - intros Ha t Ht. apply (stalled_apart _ _ _ _ _ _ HK a s t Hs Ha).
    now apply (aims_shrink h s s').
Qed.

Lemma stall_new_state h s :
  stalled Q c n pw tr0 h -> _done s = None -> _fail s = None ->
  stalled Q c n pw tr0 (with_new_state h s).
Proof.
  intros [W O (sn & Hn & Stn) (sc & Hc & Stc & Dc) Sl Pp Qc Ap Tr] Hd Hf.
  split; [ | exact O | | | | exact Pp | exact Qc | | exact Tr].
  - now apply wf_with_new_state.
  - exists sn. cbn. split; [now apply lookup_app_l_Some | exact Stn].
  - exists sc. cbn. split; [now apply lookup_app_l_Some | auto].
  - intros a sa Ha Hac. cbn in Ha.
    apply lookup_app_Some in Ha as [Ha|[_ Ha]]; [now apply (Sl a)|].
    destruct (a - length (states h)) as [|i]; [|now destruct i].
    injection Ha as <-. rewrite Hd, Hf. split; discriminate.
  - intros a sa t Ha Haa Ht. cbn in Ha.
    apply lookup_app_Some in Ha as [Ha|[_ Ha]]; [now apply (Ap a sa)|].
    destruct (a - length (states h)) as [|i]; [|now destruct i].
    injection Ha as <-.
    destruct Ht as [(q & f & Hq & _)|(q & f & Hq & _)]; congruence.
Qed.

Lemma stall_new_runnable h r :
  stalled Q c n pw tr0 h -> stalled Q c n pw tr0 (with_new_runnable h r).
Proof.
  intros [W O Pn Pc Sl Pp Qc Ap Tr].
  split; [ | exact O | exact Pn | exact Pc | exact Sl | | exact Qc | | exact Tr].
  - now apply wf_with_new_runnable.
  - cbn. rewrite length_app. lia.
  - intros a sa t Ha Haa Ht. apply (Ap a sa t Ha Haa).
    destruct (W a sa Ha) as [Od Of].
    destruct Ht as [(q & f & Hq & Hr & Ht)|(q & f & Hq & Hr & Ht)]; [left|right];
      exists q, f; (split; [exact Hq|]); (split; [|exact Ht]); cbn in Hr.
    + destruct (Od q Hq) as (x & Hx & _).
      rewrite (lookup_app_l_Some _ _ _ _ Hx) in Hr. congruence.
    + destruct (Of q Hq) as (x & Hx & _).
      rewrite (lookup_app_l_Some _ _ _ _ Hx) in Hr. congruence.
Qed.

Lemma triple_of_ends {A} (P : Heap -> Prop) (m : M A) (Q' : A -> Heap -> Prop) :
  (forall h, P h -> ends (stalled Q c n pw tr0) Q' (m h)) ->
  triple (stalled Q c n pw tr0) P m Q'.
Proof. intros H h HP. now apply H. Qed.

Lemma modify_stall this f :
  (forall s, (_done (f s) = _done s \/ _done (f s) = None) /\
             (_fail (f s) = _fail s \/ _fail (f s) = None) /\
             (_st (f s) = _st s \/ _st (f s) = pending)) ->
  triple (stalled Q c n pw tr0) (stalled Q c n pw tr0) (modify this f)
    (fun _ h => stalled Q c n pw tr0 h).
Proof.
  intros Hf. apply triple_modify; [auto|].
  intros h s HK Hs. destruct (Hf s) as (Hd & Hfl & Hst).
  apply (stall_update h this s); auto.
  - intros ->. destruct (stalled_pending _ _ _ _ _ _ HK) as (sn & Hn' & Stn).
    destruct Hst as [->| ->]; congruence.
  - intros ->. destruct (stalled_source _ _ _ _ _ _ HK) as (sc & Hc & Stc & _).
    destruct Hst as [->| ->]; congruence.
Qed.

Lemma emit_stall ev :
  calm n pw ev ->
  triple (stalled Q c n pw tr0) (stalled Q c n pw tr0) (emit ev)
    (fun _ h => stalled Q c n pw tr0 h).
Proof.
  intros Hev. apply triple_emit. intros h HK.
  apply stall_events; [exact HK|]. now constructor.
Qed.

Lemma call_stall {R} (x : effect R) :
  triple (stalled Q c n pw tr0) (stalled Q c n pw tr0) (call x)
    (fun _ h => stalled Q c n pw tr0 h).
Proof.
  intros h HK. rewrite run_call.
  assert (HK' : stalled Q c n pw tr0 (with_events h (map EvPrint (fst x)))).
  { apply stall_events; [exact HK|]. apply Forall_forall.
    intros ev Hev. apply list_elem_of_fmap in Hev as (line & -> & _). exact I. }
  unfold outcome_of. destruct x as [out [r|]]; cbn; [exact HK'|].
  split; [exact HK' | apply assert_caller_no_assert].
Qed.

Lemma Promise_GetStatus_stall this :
  triple (stalled Q c n pw tr0) (stalled Q c n pw tr0) (Promise_GetStatus this)
    (fun _ h => stalled Q c n pw tr0 h).
Proof.
  unfold Promise_GetStatus.
  eapply triple_bind with (R := fun _ h => stalled Q c n pw tr0 h);
    [apply triple_load; auto|].
  intros s. apply triple_ret. auto.
Qed.

Lemma move_tuple_stall ref :
  triple (stalled Q c n pw tr0) (stalled Q c n pw tr0) (move_tuple ref)
    (fun _ h => stalled Q c n pw tr0 h).
Proof.
  unfold move_tuple.
  eapply triple_bind with (R := fun _ h => stalled Q c n pw tr0 h);
    [apply triple_load; auto|].
  intros s.
  eapply triple_bind with (R := fun _ h => stalled Q c n pw tr0 h);
    [apply modify_stall; intros []; cbn; auto|].
  intros ?. apply triple_ret. auto.
Qed.

Lemma get_value_stall this :
  triple (stalled Q c n pw tr0) (stalled Q c n pw tr0) (get_value this)
    (fun _ h => stalled Q c n pw tr0 h).
Proof.
  unfold get_value.
  eapply triple_bind with (R := fun _ h => stalled Q c n pw tr0 h);
    [apply modify_stall; intros []; cbn; auto|].
  intros ?. apply triple_ret. auto.
Qed.

Lemma Promise_GetValue_stall this :
  triple (stalled Q c n pw tr0) (stalled Q c n pw tr0) (Promise_GetValue this)
    (fun _ h => stalled Q c n pw tr0 h).
Proof.
  unfold Promise_GetValue.
  eapply triple_bind; [apply get_value_stall|].
  intros ref. apply move_tuple_stall.
Qed.

Lemma get_exception_stall this :
  triple (stalled Q c n pw tr0) (stalled Q c n pw tr0) (get_exception this)
    (fun _ h => stalled Q c n pw tr0 h).
Proof.
  unfold get_exception.
  eapply triple_bind with (R := fun _ h => stalled Q c n pw tr0 h);
    [apply modify_stall; intros []; cbn; auto|].
  intros ?.
  eapply triple_bind with (R := fun _ h => stalled Q c n pw tr0 h);
    [apply triple_load; auto|].
  intros s.
  eapply triple_bind with (R := fun _ h => stalled Q c n pw tr0 h);
    [apply modify_stall; intros []; cbn; auto|].
  intros ?. apply triple_ret. auto.
Qed.

(** What a continuation runs, when settling a stage apart keeps the
    stall. *)
Section cascade.
Variable SetValue_next : addr -> tuple -> M unit.
Variable SetException_next : addr -> SException -> M unit.
Hypothesis SetValue_next_stall : forall d v, apart Q n d ->
  triple (stalled Q c n pw tr0) (stalled Q c n pw tr0) (SetValue_next d v)
    (fun _ h => stalled Q c n pw tr0 h).
Hypothesis SetException_next_stall : forall d e, apart Q n d ->
  triple (stalled Q c n pw tr0) (stalled Q c n pw tr0) (SetException_next d e)
    (fun _ h => stalled Q c n pw tr0 h).

Lemma new_settled_stall {X} ts (settle : addr -> X -> M unit) (x : X) :
  (forall d, apart Q n d ->
     triple (stalled Q c n pw tr0) (stalled Q c n pw tr0) (settle d x)
       (fun _ h => stalled Q c n pw tr0 h)) ->
  triple (stalled Q c n pw tr0) (stalled Q c n pw tr0)
    (dollar <- new_State ts;; settle dollar x;; ret dollar)
    (fun _ h => stalled Q c n pw tr0 h).
Proof.
  intros Hs.
  eapply triple_bind with
    (R := fun d h => stalled Q c n pw tr0 h /\ apart Q n d).
  - apply triple_new_State. intros h HK. split.
    + now apply stall_new_state.
    + left. now apply (stall_valid h).
  - intros d h [HK Hd]. revert h HK.
    change (triple (stalled Q c n pw tr0) (stalled Q c n pw tr0)
              (settle d x;; ret d) (fun _ h => stalled Q c n pw tr0 h)).
    eapply triple_bind; [now apply Hs|].
    intros ?. apply triple_ret. auto.
Qed.

Lemma make_facade_stall ts x :
  triple (stalled Q c n pw tr0) (stalled Q c n pw tr0)
    (make_facade SetValue_next SetException_next ts x)
    (fun _ h => stalled Q c n pw tr0 h).
Proof.
  destruct x as [v|e|]; cbn [make_facade].
  - apply (new_settled_stall ts SetValue_next v).
    intros d Hd. now apply SetValue_next_stall.
  - apply (new_settled_stall ts SetException_next e).
    intros d Hd. now apply SetException_next_stall.
  - apply triple_new_State. intros h HK. now apply stall_new_state.
Qed.

Lemma forward_stall r dollar :
  apart Q n dollar ->
  triple (stalled Q c n pw tr0) (stalled Q c n pw tr0)
    (forward SetValue_next SetException_next r dollar)
    (fun _ h => stalled Q c n pw tr0 h).
Proof.
  intros Hd. unfold forward.
  eapply triple_bind; [apply Promise_GetStatus_stall|].
  intros [| |].
  - apply triple_ret. auto.
  - eapply triple_bind; [apply Promise_GetValue_stall|].
    intros v. now apply SetValue_next_stall.
  - eapply triple_bind; [apply get_exception_stall|].
    intros e. now apply SetException_next_stall.
Qed.

Lemma graft_stall {X} (func : continuation X) (x : X) dollar ev :
  calm n pw ev -> apart Q n dollar ->
  triple (stalled Q c n pw tr0) (stalled Q c n pw tr0)
    (emit ev;;
     y <- call (cbody func x);;
     r <- make_facade SetValue_next SetException_next (cret func) y;;
     forward SetValue_next SetException_next r dollar)
    (fun _ h => stalled Q c n pw tr0 h).
Proof.
  intros Hev Hd.
  eapply triple_bind; [now apply emit_stall|]. intros ?.
  eapply triple_bind; [apply call_stall|]. intros y.
  eapply triple_bind; [apply make_facade_stall|]. intros r.
  now apply forward_stall.
Qed.

Lemma run_value_func_stall f v :
  (forall t, target_of_value f = Some t -> apart Q n t) ->
  triple (stalled Q c n pw tr0) (stalled Q c n pw tr0)
    (run_value_func SetValue_next SetException_next f v)
    (fun _ h => stalled Q c n pw tr0 h).
Proof.
  intros Ht. destruct f as [func dollar|func]; cbn [run_value_func].
  - apply graft_stall; [exact I | now apply Ht].
  - eapply triple_bind; [now apply emit_stall|]. intros ?. apply call_stall.
Qed.

Lemma run_error_func_stall f e :
  (forall t, target_of_error f = Some t -> apart Q n t) ->
  triple (stalled Q c n pw tr0) (stalled Q c n pw tr0)
    (run_error_func SetValue_next SetException_next f e)
    (fun _ h => stalled Q c n pw tr0 h).
Proof.
  intros Ht. destruct f as [dollar|func dollar|func]; cbn [run_error_func].
  - apply SetException_next_stall. now apply Ht.
  - apply graft_stall; [exact I | now apply Ht].
  - eapply triple_bind; [now apply emit_stall|]. intros ?. apply call_stall.
Qed.

(** The runnable behind [p] is deleted, or a [Resolver] (a [Rejecter])
    that settles a stage apart, if any. *)
Lemma Runnable_SetValue_stall p ref :
  triple (stalled Q c n pw tr0)
    (fun h => stalled Q c n pw tr0 h /\
       forall q r, p = Some q -> runnables h !! q = Some (Some r) ->
       exists f, r = Resolver f /\
         forall t, target_of_value f = Some t -> apart Q n t)
    (Runnable_SetValue SetValue_next SetException_next p ref)
    (fun _ h => stalled Q c n pw tr0 h).
Proof.
  intros h [HK Hp]. destruct p as [q|]; cbn [Runnable_SetValue].
  - destruct (runnables h !! q) as [[r|]|] eqn:E.
    + destruct (Hp q r eq_refl E) as (f & -> & Ht).
      rewrite (bind_run (deref q) _ h (Resolver f) h (run_deref h q _ E)).
      refine (triple_bind _ _ _ _ _ _ (move_tuple_stall ref) _ h HK).
      intros args. now apply run_value_func_stall.
    + unfold bind, deref. rewrite E. cbn.
      split; [exact HK | apply bad_pointer_no_assert].
    + unfold bind, deref. rewrite E. cbn.
      split; [exact HK | apply bad_pointer_no_assert].
  - cbn. split; [exact HK | apply bad_pointer_no_assert].
Qed.

Lemma Runnable_SetException_stall p e :
  triple (stalled Q c n pw tr0)
    (fun h => stalled Q c n pw tr0 h /\
       forall q r, p = Some q -> runnables h !! q = Some (Some r) ->
       exists f, r = Rejecter f /\
         forall t, target_of_error f = Some t -> apart Q n t)
    (Runnable_SetException SetValue_next SetException_next p e)
    (fun _ h => stalled Q c n pw tr0 h).
Proof.
  intros h [HK Hp]. destruct p as [q|]; cbn [Runnable_SetException].
  - destruct (runnables h !! q) as [[r|]|] eqn:E.
    + destruct (Hp q r eq_refl E) as (f & -> & Ht).
      rewrite (bind_run (deref q) _ h (Rejecter f) h (run_deref h q _ E)).
      now apply run_error_func_stall.
    + unfold bind, deref. rewrite E. cbn.
      split; [exact HK | apply bad_pointer_no_assert].
    + unfold bind, deref. rewrite E. cbn.
      split; [exact HK | apply bad_pointer_no_assert].
  - cbn. split; [exact HK | apply bad_pointer_no_assert].
Qed.
End cascade.

(** Settling, one level of the cascade after the other. *)
Lemma triple_assume {A} (fact : Prop) (P : Heap -> Prop) (m : M A)
    (Q' : A -> Heap -> Prop) :
  (fact -> triple (stalled Q c n pw tr0) P m Q') ->
  triple (stalled Q c n pw tr0) (fun h => fact /\ P h) m Q'.
Proof. intros H h [Hf HP]. now apply H. Qed.

Lemma modify_stall_resolves d f :
  (forall s, _done (f s) = _done s /\ _fail (f s) = _fail s /\
     (_st (f s) = _st s \/ _st (f s) = pending \/
      (d <> n /\ _st (f s) = fulfilled))) ->
  triple (stalled Q c n pw tr0)
    (fun h => stalled Q c n pw tr0 h /\
       forall s t, states h !! d = Some s -> resolves h s t -> apart Q n t)
    (modify d f)
    (fun _ h => stalled Q c n pw tr0 h /\
       forall s t, states h !! d = Some s -> resolves h s t -> apart Q n t).
Proof.
  intros Hf. apply triple_modify; [tauto|].
  intros h s [HK HP] Hs. destruct (Hf s) as (Hd & Hfl & Hst). split.
  - apply (stall_update h d s); auto.
    + intros ->. destruct (stalled_pending _ _ _ _ _ _ HK) as (sn & Hn' & Stn).
      destruct Hst as [E|[E|[E _]]]; congruence.
    + intros ->. destruct (stalled_source _ _ _ _ _ _ HK) as (sc & Hc & Stc & _).
      destruct Hst as [E|[E|[_ E]]]; congruence.
  - intros s' t Hs' (q & g & Hq & Hr & Ht). cbn in Hs'.
    rewrite list_lookup_insert_eq in Hs' by (eapply lookup_lt_Some; eauto).
    injection Hs' as <-. apply (HP s t Hs). exists q, g.
    split; [congruence | auto].
Qed.

(** Steps that leave the runnables as they are keep what is known of
    them. *)
Lemma modify_stall_keeps (G : list (option Runnable) -> Prop) this f :
  (forall s, (_done (f s) = _done s \/ _done (f s) = None) /\
             (_fail (f s) = _fail s \/ _fail (f s) = None) /\
             (_st (f s) = _st s \/ _st (f s) = pending)) ->
  triple (stalled Q c n pw tr0)
    (fun h => stalled Q c n pw tr0 h /\ G (runnables h)) (modify this f)
    (fun _ h => stalled Q c n pw tr0 h /\ G (runnables h)).
Proof.
  intros Hf. apply triple_modify; [tauto|].
  intros h s [HK HG] Hs. split; [|exact HG].
  pose proof (modify_stall this f Hf h HK) as H.
  unfold modify in H. rewrite Hs in H. exact H.
Qed.

Lemma State_SetValue_step k d v :
  (forall d v, apart Q n d ->
     triple (stalled Q c n pw tr0) (stalled Q c n pw tr0) (State_SetValue k d v)
       (fun _ h => stalled Q c n pw tr0 h)) ->
  (forall d e, apart Q n d ->
     triple (stalled Q c n pw tr0) (stalled Q c n pw tr0) (State_SetException k d e)
       (fun _ h => stalled Q c n pw tr0 h)) ->
  d <> n ->
  triple (stalled Q c n pw tr0)
    (fun h => stalled Q c n pw tr0 h /\
       forall s t, states h !! d = Some s -> resolves h s t -> apart Q n t)
    (State_SetValue (S k) d v)
    (fun _ h => stalled Q c n pw tr0 h).
Proof.
  intros Hv He Hd. rewrite State_SetValue_eq.
  set (P := fun h => stalled Q c n pw tr0 h /\
       forall s t, states h !! d = Some s -> resolves h s t -> apart Q n t).
  eapply triple_bind with (R := fun _ => P).
  { apply triple_emit. intros h [HK HP]. split; [|exact HP].
    apply stall_events; [exact HK|]. constructor; [exact Hd | constructor]. }
  intros ?.
  eapply triple_bind with (R := fun _ => P).
  { apply modify_stall_resolves. intros []; cbn; tauto. }
  intros ?.
  eapply triple_bind with (R := fun _ => P).
  { apply modify_stall_resolves. intros []; cbn; tauto. }
  intros ?.
  eapply triple_bind with
    (R := fun s h =>
       _done s <> Some pw /\
       (stalled Q c n pw tr0 h /\
        forall q r, _done s = Some q -> runnables h !! q = Some (Some r) ->
        exists f, r = Resolver f /\
          forall t, target_of_value f = Some t -> apart Q n t)).
  { apply triple_load; [intros h [HK _]; exact HK|]. intros h s [HK HP] Hs.
    split; [now apply (stall_done_slot h d s)|]. split; [exact HK|].
    intros q r Hq Hr.
    destruct (stalled_wf _ _ _ _ _ _ HK d s Hs) as [Od _].
    destruct (Od q Hq) as (y & Hy & Hk). rewrite Hy in Hr. injection Hr as ->.
    destruct (Hk r eq_refl) as (f & -> & _). exists f. split; [reflexivity|].
    intros t Ht. apply (HP s t Hs). exists q, f. auto. }
  intros s. apply triple_assume. intros Hq.
  destruct (_done s) as [q|] eqn:Eq; [|apply triple_ret; tauto].
  set (G := fun h => stalled Q c n pw tr0 h /\
        forall q' r, Some q = Some q' -> runnables h !! q' = Some (Some r) ->
        exists f, r = Resolver f /\
          forall t, target_of_value f = Some t -> apart Q n t).
  eapply triple_bind with (R := fun _ => G).
  { unfold get_value. eapply triple_bind with (R := fun _ => G).
    - apply triple_modify; [intros h [HK _]; exact HK|].
      intros h s0 [HK HG] Hs0. split; [|exact HG].
      apply (stall_update h d s0); cbn; auto; intros _; discriminate.
    - intros ?. apply triple_ret. auto. }
  intros ref.
  eapply triple_bind with (R := fun _ => G);
    [|intros ?; now apply Runnable_SetValue_stall].
  apply triple_emit. intros h [HK HG]. split; [|exact HG].
  apply stall_events; [exact HK|]. constructor; [exact Hq | constructor].
Qed.

Lemma State_SetException_step k d e :
  (forall d v, apart Q n d ->
     triple (stalled Q c n pw tr0) (stalled Q c n pw tr0) (State_SetValue k d v)
       (fun _ h => stalled Q c n pw tr0 h)) ->
  (forall d e, apart Q n d ->
     triple (stalled Q c n pw tr0) (stalled Q c n pw tr0) (State_SetException k d e)
       (fun _ h => stalled Q c n pw tr0 h)) ->
  apart Q n d ->
  triple (stalled Q c n pw tr0) (stalled Q c n pw tr0)
    (State_SetException (S k) d e)
    (fun _ h => stalled Q c n pw tr0 h).
Proof.
  intros Hv He Hd. rewrite State_SetException_eq.
  pose proof (apart_other d Hd) as Hn.
  eapply triple_bind.
  { apply emit_stall. exact Hn. }
  intros ?.
  eapply triple_bind with (R := fun _ h => stalled Q c n pw tr0 h).
  { apply triple_modify; [auto|]. intros h s HK Hs.
    apply (stall_update h d s); cbn; auto; [congruence|].
    intros ->. destruct (stall_source_not_apart h HK Hd). }
  intros ?.
  eapply triple_bind.
  { apply modify_stall. intros []; cbn; auto. }
  intros ?.
  set (G := fun (p : option ptr) (rs : list (option Runnable)) =>
        forall q r, p = Some q -> rs !! q = Some (Some r) ->
        exists f, r = Rejecter f /\
          forall t, target_of_error f = Some t -> apart Q n t).
  eapply triple_bind with
    (R := fun s h => _fail s <> Some pw /\
            (stalled Q c n pw tr0 h /\ G (_fail s) (runnables h))).
  { apply triple_load; [auto|]. intros h s HK Hs.
    assert (Hc : d <> c).
    { intros ->. destruct (stall_source_not_apart h HK Hd). }
    split; [now apply (stalled_slots _ _ _ _ _ _ HK d s)|]. split; [exact HK|].
    intros q r Hq Hr.
    destruct (stalled_wf _ _ _ _ _ _ HK d s Hs) as [_ Of].
    destruct (Of q Hq) as (y & Hy & Hk). rewrite Hy in Hr. injection Hr as ->.
    destruct (Hk r eq_refl) as (f & -> & _). exists f. split; [reflexivity|].
    intros t Ht. apply (stalled_apart _ _ _ _ _ _ HK d s t Hs Hd).
    right. exists q, f. auto. }
  intros s. apply triple_assume. intros Hq.
  destruct (_fail s) as [q|] eqn:Eq; [|apply triple_ret; tauto].
  eapply triple_bind with
    (R := fun _ h => stalled Q c n pw tr0 h /\ G (Some q) (runnables h)).
  { unfold get_exception.
    eapply triple_bind with
      (R := fun _ h => stalled Q c n pw tr0 h /\ G (Some q) (runnables h)).
    { apply modify_stall_keeps. intros []; cbn; auto. }
    intros ?.
    eapply triple_bind with
      (R := fun _ h => stalled Q c n pw tr0 h /\ G (Some q) (runnables h)).
    { apply triple_load; [tauto | auto]. }
    intros s0.
    eapply triple_bind with
      (R := fun _ h => stalled Q c n pw tr0 h /\ G (Some q) (runnables h)).
    { apply modify_stall_keeps. intros []; cbn; auto. }
    intros ?. apply triple_ret. auto. }
  intros err.
  eapply triple_bind with
    (R := fun _ h => stalled Q c n pw tr0 h /\ G (Some q) (runnables h));
    [|intros ?; now apply Runnable_SetException_stall].
  apply triple_emit. intros h [HK HG]. split; [|exact HG].
  apply stall_events; [exact HK|]. constructor; [exact Hq | constructor].
Qed.

(** Settling a stage apart keeps the stall, whatever the fuel. *)
Lemma settle_stall k :
  (forall d v, apart Q n d ->
     triple (stalled Q c n pw tr0) (stalled Q c n pw tr0) (State_SetValue k d v)
       (fun _ h => stalled Q c n pw tr0 h)) /\
  (forall d e, apart Q n d ->
     triple (stalled Q c n pw tr0) (stalled Q c n pw tr0) (State_SetException k d e)
       (fun _ h => stalled Q c n pw tr0 h)).
Proof.
  induction k as [|k [Hv He]].
  - split; intros d x Hd h HK; exact HK.
  - split.
    + intros d v Hd.
      eapply triple_weaken;
        [apply (State_SetValue_step k d v Hv He (apart_other d Hd)) | | auto].
      cbv beta. intros h HK. split; [exact HK|].
      intros s t Hs Hr. apply (stalled_apart _ _ _ _ _ _ HK d s t Hs Hd).
      now left.
    + intros d e Hd. now apply State_SetException_step.
Qed.
(** What registering does when the state is settled already. *)
Lemma aims_known h s t q1 f1 q2 f2 :
  _done s = Some q1 -> _fail s = Some q2 ->
  runnables h !! q1 = Some (Some (Resolver f1)) ->
  runnables h !! q2 = Some (Some (Rejecter f2)) ->
  aims h s t -> target_of_value f1 = Some t \/ target_of_error f2 = Some t.
Proof.
  intros Hd Hf H1 H2 [(q & f & Hq & Hr & Ht)|(q & f & Hq & Hr & Ht)]; [left|right].
  - rewrite Hd in Hq. injection Hq as <-. rewrite H1 in Hr. now injection Hr as <-.
  - rewrite Hf in Hq. injection Hq as <-. rewrite H2 in Hr. now injection Hr as <-.
Qed.

Lemma stall_run_value_func k f v h :
  stalled Q c n pw tr0 h ->
  (forall d, target_of_value f = Some d -> apart Q n d) ->
  ends (stalled Q c n pw tr0) (fun _ h' => stalled Q c n pw tr0 h')
    (run_value_func (State_SetValue k) (State_SetException k) f v h).
Proof.
  intros HK Ht. destruct (settle_stall k) as [Hv He].
  exact (run_value_func_stall _ _ Hv He f v Ht h HK).
Qed.

Lemma stall_run_error_func k f e h :
  stalled Q c n pw tr0 h ->
  (forall d, target_of_error f = Some d -> apart Q n d) ->
  ends (stalled Q c n pw tr0) (fun _ h' => stalled Q c n pw tr0 h')
    (run_error_func (State_SetValue k) (State_SetException k) f e h).
Proof.
  intros HK Ht. destruct (settle_stall k) as [Hv He].
  exact (run_error_func_stall _ _ Hv He f e Ht h HK).
Qed.

Lemma stall_consumed_value h this s q fail v evs :
  stalled Q c n pw tr0 h -> states h !! this = Some s ->
  done_ok h this (Some q) -> fail_ok h this fail ->
  q <> pw -> (this <> c -> fail <> Some pw) ->
  (apart Q n this -> forall s' t,
     _done s' = Some q -> _fail s' = fail -> aims h s' t -> apart Q n t) ->
  Forall (calm n pw) evs ->
  stalled Q c n pw tr0 (consumed_value h this s (Some q) fail v evs).
Proof.
  intros HK Hs Od Of Hq Hf Ha Hevs.
  apply (stall_events (with_state h this _) evs); [|exact Hevs].
  apply (stall_with_state h this s); auto; cbn; try congruence.
  intros Hthis t Ht. eapply Ha; [exact Hthis | | | exact Ht]; reflexivity.
Qed.

Lemma stall_consumed_error h this s done q evs :
  stalled Q c n pw tr0 h -> states h !! this = Some s ->
  done_ok h this done -> fail_ok h this (Some q) ->
  done <> Some pw -> q <> pw ->
  (apart Q n this -> forall s' t,
     _done s' = done -> _fail s' = Some q -> aims h s' t -> apart Q n t) ->
  Forall (calm n pw) evs ->
  stalled Q c n pw tr0 (consumed_error h this s done (Some q) evs).
Proof.
  intros HK Hs Od Of Hd Hq Ha Hevs.
  apply (stall_events (with_state h this _) evs); [|exact Hevs].
  apply (stall_with_state h this s); auto; cbn; try congruence.
  intros Hthis t Ht. eapply Ha; [exact Hthis | | | exact Ht]; reflexivity.
Qed.

(** Registering fresh runnables whose targets lie after [n]. *)
Lemma State_SetFunc_stall fuel this s q1 f1 q2 f2 h :
  stalled Q c n pw tr0 h -> states h !! this = Some s ->
  runnables h !! q1 = Some (Some (Resolver f1)) ->
  runnables h !! q2 = Some (Some (Rejecter f2)) ->
  q1 <> pw -> q2 <> pw ->
  (forall d, target_of_value f1 = Some d ->
             this < d /\ S n <= d /\ d < length (states h)) ->
  (forall d, target_of_error f2 = Some d ->
             this < d /\ S n <= d /\ d < length (states h)) ->
  ends (stalled Q c n pw tr0) (fun _ h' => stalled Q c n pw tr0 h')
    (State_SetFunc fuel this (Some q1) (Some q2) h).
Proof.
  intros HK Hs H1 H2 N1 N2 T1 T2.
  assert (Od : done_ok h this (Some q1)).
  { eapply done_ok_live; eauto. intros d Hd. destruct (T1 d Hd) as (? & ? & ?). auto. }
  assert (Of : fail_ok h this (Some q2)).
  { eapply fail_ok_live; eauto. intros d Hd. destruct (T2 d Hd) as (? & ? & ?). auto. }
  assert (Ha : forall s' t, _done s' = Some q1 -> _fail s' = Some q2 ->
                 aims h s' t -> apart Q n t).
  { intros s' t Hd Hf Ht.
    destruct (aims_known h s' t q1 f1 q2 f2 Hd Hf H1 H2 Ht) as [E|E]; left.
    - destruct (T1 t E) as (? & ? & ?). lia.
    - destruct (T2 t E) as (? & ? & ?). lia. }
  destruct (_st s) eqn:Est.
  - rewrite (State_SetFunc_pending fuel h this s _ _ Hs Est). cbn [ends].
    apply (stall_with_state h this s); auto; cbn; try congruence.
    intros _ t Ht. eapply Ha; [ | | exact Ht]; reflexivity.
  - rewrite (State_SetFunc_dispatch_value fuel h this s q1 (Some q2) f1 Hs Est H1).
    apply stall_run_value_func.
    + apply stall_consumed_value; auto; try congruence.
      constructor; [cbn; congruence | constructor].
    + intros d Hd. destruct (T1 d Hd) as (? & ? & ?). left. lia.
  - rewrite (State_SetFunc_dispatch_error fuel h this s q2 (Some q1) f2 Hs Est H2).
    apply stall_run_error_func.
    + apply stall_consumed_error; auto; try congruence.
      constructor; [cbn; congruence | constructor].
    + intros d Hd. destruct (T2 d Hd) as (? & ? & ?). left. lia.
Qed.

Lemma State_SetFail_stall fuel this s q2 f2 h :
  stalled Q c n pw tr0 h -> states h !! this = Some s ->
  runnables h !! q2 = Some (Some (Rejecter f2)) ->
  q2 <> pw ->
  (forall d, target_of_error f2 = Some d ->
             this < d /\ S n <= d /\ d < length (states h)) ->
  ends (stalled Q c n pw tr0) (fun _ h' => stalled Q c n pw tr0 h')
    (State_SetFail fuel this (Some q2) h).
Proof.
  intros HK Hs H2 N2 T2.
  assert (Of : fail_ok h this (Some q2)).
  { eapply fail_ok_live; eauto. intros d Hd. destruct (T2 d Hd) as (? & ? & ?). auto. }
  destruct (stalled_wf _ _ _ _ _ _ HK this s Hs) as [Od _].
  pose proof (stall_done_slot h this s HK Hs) as Hd.
  assert (Ha : apart Q n this -> forall s' t,
                 _done s' = _done s -> _fail s' = Some q2 ->
                 aims h s' t -> apart Q n t).
  { intros Hthis s' t Hd' Hf' [(q & f & Hq & Hr & Ht)|(q & f & Hq & Hr & Ht)].
    - apply (stalled_apart _ _ _ _ _ _ HK this s t Hs Hthis).
      left. exists q, f. split; [congruence | auto].
    - rewrite Hf' in Hq. injection Hq as <-. rewrite H2 in Hr. injection Hr as <-.
      destruct (T2 t Ht) as (? & ? & ?). left. lia. }
  destruct (decide (_st s = rejected)) as [Est|Est].
  - rewrite (State_SetFail_dispatch fuel h this s q2 f2 Hs Est H2).
    apply stall_run_error_func.
    + apply stall_consumed_error; auto.
      constructor; [cbn; congruence | constructor].
    + intros d Hd'. destruct (T2 d Hd') as (? & ? & ?). left. lia.
  - rewrite (State_SetFail_store fuel h this s _ Hs Est). cbn [ends].
    apply (stall_with_state h this s); auto; cbn; try congruence.
    + intros ->. destruct (stalled_pending _ _ _ _ _ _ HK) as (sn & Hn & Stn).
      congruence.
    + intros Hthis t Ht. eapply Ha; [exact Hthis | | | exact Ht]; reflexivity.
Qed.

Lemma ends_then_ret {A B} (m : M A) (x : B) h :
  ends (stalled Q c n pw tr0) (fun _ h' => stalled Q c n pw tr0 h') (m h) ->
  ends (stalled Q c n pw tr0) (fun _ h' => stalled Q c n pw tr0 h') ((_ <- m;; ret x) h).
Proof. unfold bind. destruct (m h) as [[y|t|] h']; cbn; auto. Qed.


Lemma new_Runnable_second h r1 r2 :
  new_Runnable r2 (with_new_runnable h r1) =
  (Done (S (length (runnables h))), with_new_runnable (with_new_runnable h r1) r2).
Proof.
  unfold new_Runnable. cbn [with_new_runnable runnables states trace].
  rewrite length_app. cbn [length]. now rewrite Nat.add_1_r.
Qed.

Lemma Promise_Then_stall fuel this func h :
  stalled Q c n pw tr0 h -> this < length (states h) ->
  ends (stalled Q c n pw tr0) (fun _ h' => stalled Q c n pw tr0 h') (Promise_Then fuel this func h).
Proof.
  intros HK Hv. pose proof (stall_valid h HK) as Hn.
  pose proof (stalled_ptr _ _ _ _ _ _ HK) as Hp.
  destruct (lookup_lt_is_Some_2 _ _ Hv) as [s Hs].
  unfold Promise_Then, Deffered_new, Deffered_GetPromise.
  set (d := length (states h)).
  set (h1 := with_new_state h (State_default (cret func))).
  set (r1 := Resolver (then_done func d)).
  set (r2 := Rejecter (then_fail d)).
  rewrite (bind_run (new_State (cret func)) _ h d h1 eq_refl).
  rewrite (bind_run (new_Runnable r1) _ h1 (length (runnables h)) _ eq_refl).
  rewrite (bind_run (new_Runnable r2) _ (with_new_runnable h1 r1)
             (S (length (runnables h))) (with_new_runnable (with_new_runnable h1 r1) r2)
             (new_Runnable_second h1 r1 r2)).
  apply ends_then_ret.
  apply (State_SetFunc_stall fuel this s _ (then_done func d) _ (then_fail d)).
  - apply stall_new_runnable, stall_new_runnable, stall_new_state; auto.
  - cbn. now apply lookup_app_l_Some.
  - cbn. apply lookup_app_l_Some. now apply list_lookup_middle.
  - cbn. apply list_lookup_middle. rewrite length_app. cbn. lia.
  - lia.
  - lia.
  - intros t Ht. injection Ht as <-. cbn. rewrite length_app. cbn. subst d. lia.
  - intros t Ht. injection Ht as <-. cbn. rewrite length_app. cbn. subst d. lia.
Qed.

Lemma Promise_Exception_stall fuel this func h :
  stalled Q c n pw tr0 h -> this < length (states h) ->
  ends (stalled Q c n pw tr0) (fun _ h' => stalled Q c n pw tr0 h') (Promise_Exception fuel this func h).
Proof.
  intros HK Hv. pose proof (stall_valid h HK) as Hn.
  pose proof (stalled_ptr _ _ _ _ _ _ HK) as Hp.
  destruct (lookup_lt_is_Some_2 _ _ Hv) as [s Hs].
  unfold Promise_Exception, Deffered_new, Deffered_GetPromise.
  set (d := length (states h)).
  set (h1 := with_new_state h (State_default (cret func))).
  set (r2 := Rejecter (exception_fail func d)).
  rewrite (bind_run (new_State (cret func)) _ h d h1 eq_refl).
  rewrite (bind_run (new_Runnable r2) _ h1 (length (runnables h)) _ eq_refl).
  apply ends_then_ret.
  apply (State_SetFail_stall fuel this s _ (exception_fail func d)).
  - apply stall_new_runnable, stall_new_state; auto.
  - cbn. now apply lookup_app_l_Some.
  - cbn. now apply list_lookup_middle.
  - lia.
  - intros t Ht. injection Ht as <-. cbn. rewrite length_app. cbn. subst d. lia.
Qed.

Lemma Promise_Finally_stall fuel this func h :
  stalled Q c n pw tr0 h -> this < length (states h) ->
  ends (stalled Q c n pw tr0) (fun _ h' => stalled Q c n pw tr0 h') (Promise_Finally fuel this func h).
Proof.
  intros HK Hv. pose proof (stalled_ptr _ _ _ _ _ _ HK) as Hp.
  destruct (lookup_lt_is_Some_2 _ _ Hv) as [s Hs].
  unfold Promise_Finally.
  set (r1 := Resolver (finally_done func)).
  set (r2 := Rejecter (finally_fail func)).
  rewrite (bind_run (new_Runnable r1) _ h (length (runnables h)) _ eq_refl).
  rewrite (bind_run (new_Runnable r2) _ (with_new_runnable h r1)
             (S (length (runnables h))) (with_new_runnable (with_new_runnable h r1) r2)
             (new_Runnable_second h r1 r2)).
  apply (State_SetFunc_stall fuel this s _ (finally_done func) _ (finally_fail func)).
  - apply stall_new_runnable, stall_new_runnable; auto.
  - exact Hs.
  - cbn. apply lookup_app_l_Some. now apply list_lookup_middle.
  - cbn. apply list_lookup_middle. rewrite length_app. cbn. lia.
  - lia.
  - lia.
  - intros t Ht. discriminate.
  - intros t Ht. discriminate.
Qed.

(** [delete] and [Reset]. *)
Lemma delete_stall slot :
  triple (stalled Q c n pw tr0) (stalled Q c n pw tr0) (delete slot)
    (fun _ h => stalled Q c n pw tr0 h).
Proof.
  intros h HK. pose proof (delete_wf slot h (stalled_wf _ _ _ _ _ _ HK)) as Hw.
  unfold delete in *. destruct slot as [q|]; [|exact HK].
  destruct (runnables h !! q) as [[r|]|] eqn:E; cbn in *;
    auto using bad_pointer_no_assert.
  destruct HK as [W O Pn Pc Sl Pp Qc Ap Tr].
  split; [exact Hw | exact O | exact Pn | exact Pc | exact Sl | | exact Qc | | exact Tr].
  - cbn. now rewrite length_insert.
  - intros a sa t Ha Haa Ht. apply (Ap a sa t Ha Haa).
    destruct Ht as [(q' & f & Hq & Hr & Ht)|(q' & f & Hq & Hr & Ht)]; [left|right];
      exists q', f; (split; [exact Hq|]); (split; [|exact Ht]); cbn in Hr;
      (destruct (decide (q = q')) as [<-|Hne];
       [rewrite list_lookup_insert_eq in Hr by (eapply lookup_lt_Some; eauto);
        discriminate
       |now rewrite list_lookup_insert_ne in Hr by exact Hne]).
Qed.


Lemma State_Reset_stall this : triple (stalled Q c n pw tr0) (stalled Q c n pw tr0) (State_Reset this) (fun _ h => stalled Q c n pw tr0 h).
Proof.
  unfold State_Reset.
  eapply triple_bind with (R := fun _ h => stalled Q c n pw tr0 h); [apply triple_load; auto|].
  intros s.
  eapply triple_bind with (R := fun _ h => stalled Q c n pw tr0 h); [apply delete_stall|]. intros ?.
  eapply triple_bind with (R := fun _ h => stalled Q c n pw tr0 h); [apply delete_stall|]. intros ?.
  eapply triple_bind with (R := fun _ h => stalled Q c n pw tr0 h);
    [apply modify_stall; intros []; cbn; auto|]. intros ?.
  eapply triple_bind with (R := fun _ h => stalled Q c n pw tr0 h);
    [apply modify_stall; intros []; cbn; auto|]. intros ?.
  eapply triple_bind with (R := fun _ h => stalled Q c n pw tr0 h);
    [apply modify_stall; intros []; cbn; auto|]. intros ?.
  apply modify_stall; intros []; cbn; auto.
Qed.

Lemma handle_stall a :
  triple (stalled Q c n pw tr0) (stalled Q c n pw tr0) (handle a) (fun _ h => stalled Q c n pw tr0 h /\ a < length (states h)).
Proof.
  unfold handle. eapply triple_bind with
    (R := fun _ h => stalled Q c n pw tr0 h /\ a < length (states h)).
  - apply triple_load; [auto|]. intros h s W Hs.
    split; [exact W | eapply lookup_lt_Some; eauto].
  - intros ?. apply triple_ret. auto.
Qed.


Lemma run_op_stall fuel o :
  leaves Q n o ->
  triple (stalled Q c n pw tr0) (stalled Q c n pw tr0) (run_op fuel o)
    (fun _ h => stalled Q c n pw tr0 h).
Proof.
  destruct (settle_stall fuel) as [Hv He].
  intros Ho. destruct o; cbn [run_op leaves] in *.
  - apply triple_then_ret. apply triple_new_State.
    intros h HK. now apply stall_new_state.
  - apply triple_then_ret. apply (new_settled_stall ts (State_SetValue fuel) values).
    intros d Hd. now apply Hv.
  - apply triple_then_ret. apply (new_settled_stall ts (State_SetException fuel) e).
    intros d Hd. now apply He.
  - eapply triple_bind; [apply handle_stall|]. intros ?.
    eapply triple_weaken; [apply (Hv d value Ho) | cbv beta; tauto | auto].
  - eapply triple_bind; [apply handle_stall|]. intros ?.
    eapply triple_weaken; [apply (He d e Ho) | cbv beta; tauto | auto].
  - eapply triple_bind with (R := fun _ h => stalled Q c n pw tr0 h).
    + eapply triple_weaken; [apply handle_stall | auto | cbv beta; tauto].
    + intros ?. apply State_Reset_stall.
  - eapply triple_bind with (R := fun _ h => stalled Q c n pw tr0 h).
    + eapply triple_weaken; [apply handle_stall | auto | cbv beta; tauto].
    + intros ?. apply triple_then_ret. apply Promise_GetStatus_stall.
  - eapply triple_bind with (R := fun _ h => stalled Q c n pw tr0 h).
    + eapply triple_weaken; [apply handle_stall | auto | cbv beta; tauto].
    + intros ?. apply triple_then_ret. apply Promise_GetValue_stall.
  - eapply triple_bind with (R := fun _ h => stalled Q c n pw tr0 h).
    + eapply triple_weaken; [apply handle_stall | auto | cbv beta; tauto].
    + intros ?. apply triple_then_ret. apply get_exception_stall.
  - eapply triple_bind; [apply handle_stall|]. intros ?.
    apply triple_then_ret. apply triple_of_ends.
    intros h [HK Hv']. now apply Promise_Then_stall.
  - eapply triple_bind; [apply handle_stall|]. intros ?.
    apply triple_then_ret. apply triple_of_ends.
    intros h [HK Hv']. now apply Promise_Exception_stall.
  - eapply triple_bind; [apply handle_stall|]. intros ?.
    apply triple_of_ends.
    intros h [HK Hv']. now apply Promise_Finally_stall.
Qed.

Lemma run_ops_stall fuel os :
  Forall (leaves Q n) os -> triple (stalled Q c n pw tr0) (stalled Q c n pw tr0) (run_ops fuel os) (fun _ h => stalled Q c n pw tr0 h).
Proof.
  induction 1 as [|o os Ho _ IH]; cbn [run_ops].
  - apply triple_ret. auto.
  - eapply triple_bind; [now apply run_op_stall|]. intros ?. exact IH.
Qed.

(** What the stall says about the trace. *)
Lemma calm_quiet evs :
  Forall (calm n pw) evs -> settlements n evs = [] /\ dispatches pw evs = [].
Proof.
  induction 1 as [|ev evs Hev _ [IH1 IH2]]; [split; reflexivity|].
  unfold settlements, dispatches in *. cbn [omap list_omap].
  destruct ev as [b x|b p x| | | |]; cbn [calm] in Hev; cbn; auto.
  - destruct (Nat.eqb_spec b n); [congruence|]. auto.
  - destruct p as [q|]; [|auto].
    destruct (Nat.eqb_spec q pw); [congruence|]. auto.
Qed.

Lemma stall_after fuel os h :
  stalled Q c n pw tr0 h -> Forall (leaves Q n) os ->
  let h' := snd (run_ops fuel os h) in
  _st <$> states h' !! n = Some pending /\
  settlements n (trace h') = settlements n tr0 /\
  dispatches pw (trace h') = dispatches pw tr0.
Proof.
  intros HK Hos h'. subst h'.
  pose proof (run_ops_stall fuel os Hos h HK) as H.
  assert (HK' : stalled Q c n pw tr0 (snd (run_ops fuel os h))).
  { destruct (run_ops fuel os h) as [[x|t|] h']; cbn in *; tauto. }
  destruct HK' as [_ _ (sn & Hn & Stn) _ _ _ _ _ (evs & Ht & Hevs)].
  destruct (calm_quiet evs Hevs) as [E1 E2].
  rewrite Hn, Ht. unfold settlements, dispatches in *.
  rewrite !omap_app, E1, E2, !app_nil_r. cbn. rewrite Stn. auto.
Qed.
End stall.

Lemma wf_aims h a s t :
  wf h -> states h !! a = Some s -> aims h s t -> a < t /\ t < length (states h).
Proof.
  intros W Hs Ht. destruct (W a s Hs) as [Od Of].
  destruct Ht as [(q & f & Hq & Hr & Ht)|(q & f & Hq & Hr & Ht)].
  - destruct (Od q Hq) as (x & Hx & Hk). rewrite Hx in Hr. injection Hr as ->.
    destruct (Hk _ eq_refl) as (f' & E & Hl). injection E as <-. now apply Hl.
  - destruct (Of q Hq) as (x & Hx & Hk). rewrite Hx in Hr. injection Hr as ->.
    destruct (Hk _ eq_refl) as (f' & E & Hl). injection E as <-. now apply Hl.
Qed.

(** A continuation that a state of a well-formed heap holds is the same
    after a runnable was allocated. *)
Lemma aims_before h r a s t :
  wf h -> states h !! a = Some s ->
  aims (with_new_runnable h r) s t -> aims h s t.
Proof.
  intros W Hs Ht. destruct (W a s Hs) as [Od Of].
  destruct Ht as [(q & f & Hq & Hr & Ht)|(q & f & Hq & Hr & Ht)]; [left|right];
    exists q, f; (split; [exact Hq|]); (split; [|exact Ht]); cbn in Hr.
  - destruct (Od q Hq) as (x & Hx & _).
    rewrite (lookup_app_l_Some _ _ _ _ Hx) in Hr. congruence.
  - destruct (Of q Hq) as (x & Hx & _).
    rewrite (lookup_app_l_Some _ _ _ _ Hx) in Hr. congruence.
Qed.

Lemma stalled_alloc Q h c s func :
  wf h -> states h !! c = Some s -> _st s <> rejected ->
  ~ Q c -> closed Q h ->
  stalled Q c (length (states h)) (length (runnables h)) (trace h)
    (with_new_runnable
       (with_new_state h (State_default (cret func)))
       (Rejecter (exception_fail func (length (states h))))).
Proof.
  intros W Hs Hst Qc Cl. pose proof (lookup_lt_Some _ _ _ Hs) as Hlt.
  assert (Ptr : forall a sa q, states h !! a = Some sa ->
            _done sa = Some q \/ _fail sa = Some q -> q < length (runnables h)).
  { intros a sa q Ha [Hq|Hq]; destruct (W a sa Ha) as [Od Of].
    - destruct (Od q Hq) as (x & Hx & _). eapply lookup_lt_Some; eauto.
    - destruct (Of q Hq) as (x & Hx & _). eapply lookup_lt_Some; eauto. }
  split.
  - apply wf_with_new_runnable, wf_with_new_state; auto.
  - exact Hlt.
  - exists (State_default (cret func)). split; [|reflexivity].
    cbn. now apply list_lookup_middle.
  - exists s. split; [cbn; now apply lookup_app_l_Some|]. split; [exact Hst|].
    intros Hq. pose proof (Ptr c s _ Hs (or_introl Hq)). lia.
  - intros a sa Ha _. cbn in Ha.
    apply lookup_app_Some in Ha as [Ha|[_ Ha]].
    + split; intros Hq.
      * pose proof (Ptr a sa _ Ha (or_introl Hq)). lia.
      * pose proof (Ptr a sa _ Ha (or_intror Hq)). lia.
    + destruct (a - length (states h)) as [|i]; [|now destruct i].
      injection Ha as <-. split; discriminate.
  - cbn. rewrite length_app. cbn. lia.
  - exact Qc.
  - intros a sa t Ha Haa Ht. cbn in Ha.
    apply lookup_app_Some in Ha as [Ha|[_ Ha]].
    + pose proof (lookup_lt_Some _ _ _ Ha) as Hla.
      destruct Haa as [Haa|[_ Qa]]; [lia|].
      assert (Ht' : aims h sa t).
      { refine (aims_before (with_new_state h (State_default (cret func)))
                  (Rejecter (exception_fail func (length (states h)))) a sa t _ _ Ht).
        - now apply wf_with_new_state.
        - cbn. now apply lookup_app_l_Some. }
      right. split; [apply (wf_aims h a sa t W Ha Ht') | exact (Cl a sa t Ha Qa Ht')].
    + destruct (a - length (states h)) as [|i]; [|now destruct i].
      injection Ha as <-.
      destruct Ht as [(q & f & Hq & _)|(q & f & Hq & _)]; discriminate.
  - exists []. split; [cbn; now rewrite app_nil_r | constructor].
Qed.

Lemma stalled_registered Q h c s s' func evs :
  wf h -> states h !! c = Some s -> _st s <> rejected ->
  ~ Q c -> closed Q h ->
  _st s' <> rejected -> _done s' = _done s ->
  _fail s' = Some (length (runnables h)) ->
  Forall (calm (length (states h)) (length (runnables h))) evs ->
  stalled Q c (length (states h)) (length (runnables h)) (trace h)
    (registered h c s' func evs).
Proof.
  intros W Hs Hst Qc Cl Hst' Hd Hf Hevs. unfold registered.
  pose proof (stalled_alloc Q h c s func W Hs Hst Qc Cl) as HK.
  pose proof (lookup_lt_Some _ _ _ Hs) as Hlt.
  refine (stall_events _ _ _ _ _ _ _ _ Hevs).
  destruct (stalled_source _ _ _ _ _ _ HK) as (sc & Hc & _ & Dc).
  assert (Hs1 : states (with_new_runnable
                          (with_new_state h (State_default (cret func)))
                          (Rejecter (exception_fail func (length (states h)))))
                !! c = Some s) by (cbn; now apply lookup_app_l_Some).
  rewrite Hs1 in Hc. injection Hc as <-.
  apply (stall_with_state _ _ _ _ _ _ c s s' HK Hs1).
  - rewrite Hd. exact (proj1 (stalled_wf _ _ _ _ _ _ HK c s Hs1)).
  - rewrite Hf. apply (fail_ok_new (with_new_state h _)).
    intros t Ht. injection Ht as <-. cbn. rewrite length_app. cbn. lia.
  - now rewrite Hd.
  - congruence.
  - intros ->. lia.
  - auto.
  - intros Hc. destruct (stall_source_not_apart _ _ _ _ _ _ HK Hc).
Qed.

Lemma Promise_Exception_store fuel h c s func :
  states h !! c = Some s -> _st s <> rejected ->
  Promise_Exception fuel c func h =
    (Done (length (states h)),
     registered h c (set_fail (Some (length (runnables h))) s) func []).
Proof.
  intros Hs Hst. unfold registered, with_events, with_state, with_new_runnable,
    with_new_state. cbn [states runnables trace].
  open h s. rewrite insert_app_l by lia. rewrite app_nil_r.
  destruct _st0; try congruence; exec; reflexivity.
Qed.

(** C4.  [Exception(func)] on a stage [c] that has not rejected returns a
    new stage [n], pending, and registers one [Rejecter] [pw], the only
    runnable that holds [func] for this call; the call stores and runs
    nothing else.  If [c] is fulfilled then, or is pending then and is
    fulfilled afterwards (its success continuation, if it has one, then
    running a chain of its own), the new stage stalls: whatever calls of
    the interface follow, with any fuel, the new stage is still pending,
    the trace records no settlement of it, and records no call of [pw],
    so [func] is not invoked.  The calls that follow may settle the
    stages made later and, of the stages made before, those of any set
    [Q] that leaves out [c] and whose continuations settle stages of [Q]
    only; what is left out is settling [c], or a stage that settles [c],
    once more, and settling [n] by hand, for which the interface gives
    no handle.  Fulfilling a pending [c] that has no success continuation
    leaves it fulfilled with the bundle, and calls nothing. *)
Theorem Exception_stalls_on_fulfilment fuel (Q : addr -> Prop) h c s func :
  wf h -> states h !! c = Some s -> _st s <> rejected ->
  ~ Q c -> closed Q h ->
  let n := length (states h) in
  let pw := length (runnables h) in
  let h0 := registered h c (set_fail (Some pw) s) func [] in
  let stays (h1 : Heap) :=
    stalled Q c n pw (trace h) h1 /\
    forall fuel' os, Forall (leaves Q n) os ->
      let h2 := snd (run_ops fuel' os h1) in
      _st <$> states h2 !! n = Some pending /\
      settlements n (trace h2) = settlements n (trace h) /\
      dispatches pw (trace h2) = dispatches pw (trace h) in
  Promise_Exception fuel c func h = (Done n, h0) /\
  (_st s = fulfilled -> stays h0) /\
  (_st s = pending -> (forall t, resolves h s t -> Q t) ->
   forall k v, stays (snd (State_SetValue k c v h0))) /\
  (_st s = pending -> _done s = None -> forall k v,
   State_SetValue (S k) c v h0 =
     (Done tt,
      registered h c (mk_State fulfilled None (Some pw) v (_e s)) func
        [EvSettle c (Bundle v)])).
Proof.
  intros W Hs Hst Qc Cl n pw h0 stays. subst stays. cbv beta.
  pose proof (lookup_lt_Some _ _ _ Hs) as Hlt.
  assert (HK : stalled Q c n pw (trace h) h0).
  { apply (stalled_registered Q h c s); auto; try constructor;
      destruct s; cbn in *; congruence. }
  split; [now apply Promise_Exception_store|].
  split; [|split].
  - intros _. split; [exact HK|].
    intros fuel' os Hos. now apply (stall_after Q c).
  - intros Hp Hr k v.
    assert (HK' : stalled Q c n pw (trace h) (snd (State_SetValue k c v h0))).
    { destruct k as [|k]; [exact HK|].
      destruct (settle_stall Q c n pw (trace h) k) as [Hv He].
      assert (Hcn : c <> n) by (subst n; lia).
      pose proof (State_SetValue_step Q c n pw (trace h) k c v Hv He Hcn h0) as H.
      cbv beta in H.
      assert (HP : forall s' t, states h0 !! c = Some s' -> resolves h0 s' t ->
                     apart Q n t).
      { intros s' t Hs' Hres.
        assert (E : states h0 !! c = Some (set_fail (Some pw) s)).
        { subst h0. unfold registered. cbn.
          apply list_lookup_insert_eq. rewrite length_app. lia. }
        rewrite E in Hs'. injection Hs' as <-.
        destruct Hres as (q & f & Hq & Hrq & Ht). cbn in Hq.
        destruct (W c s Hs) as [Od _].
        destruct (Od q Hq) as (x & Hx & Hk).
        subst h0. unfold registered in Hrq. cbn in Hrq.
        rewrite (lookup_app_l_Some _ _ _ _ Hx) in Hrq. injection Hrq as ->.
        assert (Hres : resolves h s t) by (exists q, f; auto).
        right. split; [|now apply Hr].
        apply (wf_aims h c s t W Hs). now left. }
      specialize (H (conj HK HP)).
      destruct (State_SetValue (S k) c v h0) as [[x|t|] h']; cbn in *; tauto. }
    split; [exact HK'|].
    intros fuel' os Hos. now apply (stall_after Q c).
  - intros Hp Hd k v. subst h0.
    unfold registered, with_events, with_state, with_new_runnable, with_new_state.
    cbn [states runnables trace].
    open h s. rewrite !insert_app_l by lia. rewrite app_nil_r. run. reflexivity.
Qed.

Lemma Exception_stalls_on_fulfilment_witness :
  let os := [OpSetValue 0 [VInt 7]; OpThen 3 lambda5; OpFinally 4 lambda6;
             OpGetValue 3; OpSetException 1 (Some (TestException "late"))] in
  let h0 := registered two_chains 2
              (mk_State fulfilled None (Some 2) [VInt 100; VInt 200] None)
              recover [] in
  Promise_Exception 1 2 recover two_chains = (Done 3, h0) /\
  _st <$> states (snd (run_ops 3 os h0)) !! 3 = Some pending /\
  settlements 3 (trace (snd (run_ops 3 os h0))) = [] /\
  dispatches 2 (trace (snd (run_ops 3 os h0))) = [].
Proof.
  intros os h0.
  assert (Qc : ~ 2 < 2) by lia.
  assert (Cl : closed (fun a => a < 2) two_chains).
  { intros a s t Hs Qa Ht. destruct a as [|[|a]]; [| |lia];
      vm_compute in Hs; injection Hs as <-;
      destruct Ht as [(q & f & Hq & Hr & Ht)|(q & f & Hq & Hr & Ht)];
      try discriminate;
      injection Hq as <-; vm_compute in Hr; injection Hr as <-;
      injection Ht as <-; lia. }
  assert (Hos : Forall (leaves (fun a => a < 2) (length (states two_chains))) os).
  { assert (Ha : forall d, d < 2 ->
              apart (fun a => a < 2) (length (states two_chains)) d).
    { intros d Hd. right. split; [vm_compute; lia | exact Hd]. }
    subst os.
    repeat (constructor; [first [exact I | apply Ha; lia]|]). constructor. }
  destruct (Exception_stalls_on_fulfilment 1 (fun a => a < 2) two_chains 2
              (mk_State fulfilled None None [VInt 100; VInt 200] None)
              recover (built_wf _ _) eq_refl ltac:(discriminate) Qc Cl)
    as (E & H & _).
  split; [exact E|].
  exact (proj2 (H eq_refl) 3 os Hos).
Defined.

(** * More of the header *)

(** ** What the operators forward *)

Lemma run_call_Some {R} (x : effect R) r h :
  snd x = Some r ->
  call x h = (Done r, mk_Heap (states h) (runnables h) (trace h ++ map EvPrint (fst x))).
Proof. intros E. rewrite run_call. unfold outcome_of. now rewrite E. Qed.

Lemma bind_call_None {R B} (x : effect R) (k : R -> M B) h :
  snd x = None ->
  bind (call x) k h =
    (Trap assert_caller,
     mk_Heap (states h) (runnables h) (trace h ++ map EvPrint (fst x))).
Proof. intros E. unfold bind. rewrite run_call. unfold outcome_of. now rewrite E. Qed.

Lemma Promise_Then_fulfilled fuel h this s func lines out :
  states h !! this = Some s -> _st s = fulfilled ->
  cbody func (_value s) = (lines, out) ->
  let n := length (states h) in
  let p := length (runnables h) in
  let ran (made : list State) (evs : list event) :=
    mk_Heap
      (<[this := mk_State pending (Some p) (Some (S p))
                   (map moved_from (_value s)) (_e s)]> (states h) ++ made)
      (runnables h ++ [Some (Resolver (then_done func n));
                       Some (Rejecter (then_fail n))])
      (trace h ++ EvDispatch this (Some p) (Bundle (_value s))
               :: EvThen (cname func) (_value s)
               :: map EvPrint lines ++ evs) in
  Promise_Then (S fuel) this func h =
  match out with
  | Some (Ready v) =>
    (Done n,
     ran [mk_State fulfilled None None v None;
          mk_State pending None None (map moved_from v) None]
         [EvSettle (S n) (Bundle v); EvSettle n (Bundle v)])
  | Some (Failed e) =>
    (Done n,
     ran [mk_State rejected None None (default_tuple (cret func)) e;
          mk_State pending None None (default_tuple (cret func)) None]
         [EvSettle (S n) (Error e); EvSettle n (Error e)])
  | Some Unsettled =>
    (Done n, ran [State_default (cret func); State_default (cret func)] [])
  | None =>
    (Trap assert_caller, ran [State_default (cret func)] [])
  end.
Proof.
  intros Hs Hst Hb n p ran. subst n p ran. cbv beta.
  open h s. exec.
  destruct out as [[v|e|]|].
  - erewrite bind_run by (apply run_call_Some; rewrite Hb; reflexivity).
    rewrite Hb. exec. rewrite ?length_insert, ?app_nil_r. reflexivity.
  - erewrite bind_run by (apply run_call_Some; rewrite Hb; reflexivity).
    rewrite Hb. exec. rewrite ?length_insert, ?app_nil_r. reflexivity.
  - erewrite bind_run by (apply run_call_Some; rewrite Hb; reflexivity).
    rewrite Hb. exec. rewrite ?length_insert, ?app_nil_r. reflexivity.
  - rewrite bind_call_None by (rewrite Hb; reflexivity).
    rewrite Hb. tidy. rewrite ?app_nil_r. reflexivity.
Qed.

(** [Then(func)] on a fulfilled stage calls [func] once, with the stored
    bundle, and settles the new stage with what the promise that [func]
    returns holds: fulfilled with its bundle, rejected with its error, and
    not at all when that promise is pending, which is then dropped with
    nothing linking it to the new stage.  A failed [assert] of [func]
    aborts the call after the dispatch.  The stage itself is left
    pending, its bundle moved from. *)
Theorem Then_forwards fuel h this s func lines out :
  states h !! this = Some s -> _st s = fulfilled ->
  cbody func (_value s) = (lines, out) ->
  let n := length (states h) in
  let p := length (runnables h) in
  let ran (made : list State) (evs : list event) :=
    mk_Heap
      (<[this := mk_State pending (Some p) (Some (S p))
                   (map moved_from (_value s)) (_e s)]> (states h) ++ made)
      (runnables h ++ [Some (Resolver (then_done func n));
                       Some (Rejecter (then_fail n))])
      (trace h ++ EvDispatch this (Some p) (Bundle (_value s))
               :: EvThen (cname func) (_value s)
               :: map EvPrint lines ++ evs) in
  Promise_Then (S fuel) this func h =
  match out with
  | Some (Ready v) =>
    (Done n,
     ran [mk_State fulfilled None None v None;
          mk_State pending None None (map moved_from v) None]
         [EvSettle (S n) (Bundle v); EvSettle n (Bundle v)])
  | Some (Failed e) =>
    (Done n,
     ran [mk_State rejected None None (default_tuple (cret func)) e;
          mk_State pending None None (default_tuple (cret func)) None]
         [EvSettle (S n) (Error e); EvSettle n (Error e)])
  | Some Unsettled =>
    (Done n, ran [State_default (cret func); State_default (cret func)] [])
  | None =>
    (Trap assert_caller, ran [State_default (cret func)] [])
  end.
Proof. exact (Promise_Then_fulfilled fuel h this s func lines out). Qed.

Lemma Then_forwards_witness :
  _st <$> states (snd (Promise_Then 1 0 lambda2 ready_ints)) !! 1 = Some rejected /\
  _e <$> states (snd (Promise_Then 1 0 lambda2 ready_ints)) !! 1 =
    Some (Some (TestException "NonExcep")).
Proof.
  rewrite (Then_forwards 0 ready_ints 0
             (mk_State fulfilled None None [VInt 100; VInt 200] None)
             lambda2 [] (Some (Failed (Some (TestException "NonExcep"))))
             eq_refl eq_refl eq_refl).
  split; reflexivity.
Defined.

Lemma Promise_Exception_rejected fuel h this s func lines out :
  states h !! this = Some s -> _st s = rejected ->
  cbody func (_e s) = (lines, out) ->
  let n := length (states h) in
  let p := length (runnables h) in
  let ran (made : list State) (evs : list event) :=
    mk_Heap
      (<[this := mk_State pending (_done s) (Some p) (_value s) None]> (states h)
       ++ made)
      (runnables h ++ [Some (Rejecter (exception_fail func n))])
      (trace h ++ EvDispatch this (Some p) (Error (_e s))
               :: EvException (cname func) (_e s)
               :: map EvPrint lines ++ evs) in
  Promise_Exception (S fuel) this func h =
  match out with
  | Some (Ready v) =>
    (Done n,
     ran [mk_State fulfilled None None v None;
          mk_State pending None None (map moved_from v) None]
         [EvSettle (S n) (Bundle v); EvSettle n (Bundle v)])
  | Some (Failed e) =>
    (Done n,
     ran [mk_State rejected None None (default_tuple (cret func)) e;
          mk_State pending None None (default_tuple (cret func)) None]
         [EvSettle (S n) (Error e); EvSettle n (Error e)])
  | Some Unsettled =>
    (Done n, ran [State_default (cret func); State_default (cret func)] [])
  | None =>
    (Trap assert_caller, ran [State_default (cret func)] [])
  end.
Proof.
  intros Hs Hst Hb n p ran. subst n p ran. cbv beta.
  open h s. exec.
  destruct out as [[v|e|]|].
  - erewrite bind_run by (apply run_call_Some; rewrite Hb; reflexivity).
    rewrite Hb. exec. rewrite ?length_insert, ?app_nil_r. reflexivity.
  - erewrite bind_run by (apply run_call_Some; rewrite Hb; reflexivity).
    rewrite Hb. exec. rewrite ?length_insert, ?app_nil_r. reflexivity.
  - erewrite bind_run by (apply run_call_Some; rewrite Hb; reflexivity).
    rewrite Hb. exec. rewrite ?length_insert, ?app_nil_r. reflexivity.
  - rewrite bind_call_None by (rewrite Hb; reflexivity).
    rewrite Hb. tidy. rewrite ?app_nil_r. reflexivity.
Qed.

(** [Exception(func)] on a rejected stage calls [func] once, with the
    stored error, and settles the new stage with what the promise that
    [func] returns holds, as [Then] does with a bundle: a handler that
    returns a ready promise turns the rejection into a fulfilment, one
    that returns a rejection passes that on, and one that returns a
    pending promise leaves the new stage pending.  The stage itself is
    left pending, its error null, its success continuation as it was. *)
Theorem Exception_handles fuel h this s func lines out :
  states h !! this = Some s -> _st s = rejected ->
  cbody func (_e s) = (lines, out) ->
  let n := length (states h) in
  let p := length (runnables h) in
  let ran (made : list State) (evs : list event) :=
    mk_Heap
      (<[this := mk_State pending (_done s) (Some p) (_value s) None]> (states h)
       ++ made)
      (runnables h ++ [Some (Rejecter (exception_fail func n))])
      (trace h ++ EvDispatch this (Some p) (Error (_e s))
               :: EvException (cname func) (_e s)
               :: map EvPrint lines ++ evs) in
  Promise_Exception (S fuel) this func h =
  match out with
  | Some (Ready v) =>
    (Done n,
     ran [mk_State fulfilled None None v None;
          mk_State pending None None (map moved_from v) None]
         [EvSettle (S n) (Bundle v); EvSettle n (Bundle v)])
  | Some (Failed e) =>
    (Done n,
     ran [mk_State rejected None None (default_tuple (cret func)) e;
          mk_State pending None None (default_tuple (cret func)) None]
         [EvSettle (S n) (Error e); EvSettle n (Error e)])
  | Some Unsettled =>
    (Done n, ran [State_default (cret func); State_default (cret func)] [])
  | None =>
    (Trap assert_caller, ran [State_default (cret func)] [])
  end.
Proof. exact (Promise_Exception_rejected fuel h this s func lines out). Qed.

Lemma Exception_handles_witness :
  _st <$> states (snd (Promise_Exception 1 0 recover ready_error)) !! 1 =
    Some fulfilled /\
  exception_calls "recover" (trace (snd (Promise_Exception 1 0 recover ready_error))) =
    [Some (TestException "E")].
Proof.
  rewrite (Exception_handles 0 ready_error 0
             (mk_State rejected None None [VInt 0] (Some (TestException "E")))
             recover [] (Some (Ready [])) eq_refl eq_refl eq_refl).
  split; reflexivity.
Defined.

(** ** The factories and the reads *)

(** What a factory made is what the reads give back: the promise of
    [MakeReadyPromise(values)] is fulfilled and its value is [values];
    the promise of [MakeException(e)] is rejected and its error is [e],
    also when [e] is null; a promise that was only constructed is pending
    and reads as the value-initialised bundle and a null error.  Each is
    a new state at the end of the store, with no continuation, and the
    other states stay as they were. *)
Theorem factory_round_trip k ts values e h :
  let n := length (states h) in
  (p <- MakeReadyPromise (State_SetValue (S k)) ts values;;
   st <- Promise_GetStatus p;;
   v <- Promise_GetValue p;;
   ret (p, st, v)) h =
    (Done (n, fulfilled, values),
     mk_Heap (states h ++ [mk_State pending None None (map moved_from values) None])
       (runnables h) (trace h ++ [EvSettle n (Bundle values)])) /\
  (p <- MakeException (State_SetException (S k)) ts e;;
   st <- Promise_GetStatus p;;
   x <- Promise_GetException p;;
   ret (p, st, x)) h =
    (Done (n, rejected, e),
     mk_Heap (states h ++ [mk_State pending None None (default_tuple ts) None])
       (runnables h) (trace h ++ [EvSettle n (Error e)])) /\
  (p <- Promise_new ts;;
   st <- Promise_GetStatus p;;
   v <- Promise_GetValue p;;
   x <- Promise_GetException p;;
   ret (p, st, v, x)) h =
    (Done (n, pending, default_tuple ts, None),
     mk_Heap (states h ++ [mk_State pending None None
                             (map moved_from (default_tuple ts)) None])
       (runnables h) (trace h)).
Proof.
  intros n. subst n. destruct h as [sts rs tr]. cbn [states runnables trace].
  repeat split.
  - unfold MakeReadyPromise, Deffered_new, Deffered_SetValue, Deffered_GetPromise,
      new_State. exec. reflexivity.
  - unfold MakeException, Deffered_new, Deffered_SetException, Deffered_GetPromise,
      new_State. exec. reflexivity.
  - unfold Promise_new, new_State. exec. reflexivity.
Qed.

(** A read takes the outcome with it.  After [GetValue] or
    [GetException], whatever the status was, the state is pending, so
    that [Then], [Exception] and [Finally] called afterwards store their
    continuations and run nothing: the trace stays as it was, and the new
    stage is pending.  [GetStatus] changes nothing. *)
Theorem reads_starve_continuations fuel h this s f1 f2 f3 :
  states h !! this = Some s ->
  Promise_GetStatus this h = (Done (_st s), h) /\
  forall h', h' = snd (Promise_GetValue this h) \/
             h' = snd (Promise_GetException this h) ->
    _st <$> states h' !! this = Some pending /\
    fst (Promise_Then fuel this f1 h') = Done (length (states h)) /\
    trace (snd (Promise_Then fuel this f1 h')) = trace h /\
    fst (Promise_Exception fuel this f2 h') = Done (length (states h)) /\
    trace (snd (Promise_Exception fuel this f2 h')) = trace h /\
    fst (Promise_Finally fuel this f3 h') = Done tt /\
    trace (snd (Promise_Finally fuel this f3 h')) = trace h /\
    _st <$> states (snd (Promise_Then fuel this f1 h')) !! length (states h) =
      Some pending /\
    _st <$> states (snd (Promise_Exception fuel this f2 h')) !! length (states h) =
      Some pending.
Proof.
  intros Hs. split; [open h s; exec; reflexivity|].
  intros h' [->| ->].
  - rewrite (Promise_GetValue_run h this s Hs). cbn [snd].
    open h s. exec. unfold ret. tidy. rewrite ?length_insert. look.
    repeat split; reflexivity.
  - rewrite (Promise_GetException_run h this s Hs). cbn [snd].
    open h s. exec. unfold ret. tidy. rewrite ?length_insert. look.
    repeat split; reflexivity.
Qed.

Lemma reads_starve_continuations_witness :
  then_calls "then2"
    (trace (snd ((Promise_GetValue 0;; Promise_Then 1 0 lambda2) ready_ints))) = [].
Proof.
  destruct (reads_starve_continuations 1 ready_ints 0
              (mk_State fulfilled None None [VInt 100; VInt 200] None)
              lambda2 recover lambda6 eq_refl) as [_ H].
  destruct (H (snd (Promise_GetValue 0 ready_ints)) (or_introl eq_refl))
    as (_ & _ & E & _).
  change (then_calls "then2"
            (trace (snd (Promise_Then 1 0 lambda2 (snd (Promise_GetValue 0 ready_ints))))) = []).
  rewrite E. reflexivity.
Defined.

(** ** One chain for one fulfilment *)

Lemma registration_on_pending fuel h this s f1 f2 f3 :
  states h !! this = Some s -> _st s = pending ->
  fst (Promise_Then fuel this f1 h) = Done (length (states h)) /\
  trace (snd (Promise_Then fuel this f1 h)) = trace h /\
  fst (Promise_Exception fuel this f2 h) = Done (length (states h)) /\
  trace (snd (Promise_Exception fuel this f2 h)) = trace h /\
  fst (Promise_Finally fuel this f3 h) = Done tt /\
  trace (snd (Promise_Finally fuel this f3 h)) = trace h.
Proof.
  intros Hs Hst. open h s. exec. unfold ret. tidy. repeat split; reflexivity.
Qed.

(** The dispatch to the continuation of a first [Then] takes the
    fulfilment with it: when that call has returned, the stage is
    pending, and a second [Then], an [Exception] or a [Finally] on the
    same promise stores its continuation and runs nothing.  A fulfilled
    promise feeds the chain registered first, and no other. *)
Theorem fulfilment_feeds_one_chain fuel fuel' h this s f1 n1 f2 f3 f4 :
  states h !! this = Some s -> _st s = fulfilled ->
  fst (Promise_Then (S fuel) this f1 h) = Done n1 ->
  let h1 := snd (Promise_Then (S fuel) this f1 h) in
  then_calls (cname f1) (trace h1) =
    then_calls (cname f1) (trace h) ++ [_value s] /\
  _st <$> states h1 !! this = Some pending /\
  fst (Promise_Then fuel' this f2 h1) = Done (length (states h1)) /\
  trace (snd (Promise_Then fuel' this f2 h1)) = trace h1 /\
  fst (Promise_Exception fuel' this f3 h1) = Done (length (states h1)) /\
  trace (snd (Promise_Exception fuel' this f3 h1)) = trace h1 /\
  fst (Promise_Finally fuel' this f4 h1) = Done tt /\
  trace (snd (Promise_Finally fuel' this f4 h1)) = trace h1.
Proof.
  intros Hs Hst Hdone h1. subst h1.
  pose proof (lookup_lt_Some _ _ _ Hs) as Hlt.
  destruct (cbody f1 (_value s)) as [lines out] eqn:Hb.
  rewrite (Promise_Then_fulfilled fuel h this s f1 lines out Hs Hst Hb) in *.
  assert (Hcalls : forall evs,
            then_calls (cname f1)
              (trace h ++ EvDispatch this (Some (length (runnables h))) (Bundle (_value s))
                 :: EvThen (cname f1) (_value s) :: map EvPrint lines ++ evs) =
            then_calls (cname f1) (trace h) ++ _value s :: then_calls (cname f1) evs).
  { intros evs. unfold then_calls. rewrite omap_app. f_equal.
    cbn [omap list_omap]. rewrite String.eqb_refl. f_equal.
    rewrite omap_app. replace (omap _ (map EvPrint lines)) with (@nil tuple); [reflexivity|].
    clear. induction lines as [|l ls IH]; [reflexivity|exact IH]. }
  destruct out as [[v|e|]|]; cbn [fst snd trace states] in *; try discriminate;
    (split; [rewrite Hcalls; reflexivity|]);
    (split; [cbn [states]; rewrite lookup_app_l by (rewrite length_insert; exact Hlt);
             rewrite list_lookup_insert_eq by exact Hlt; reflexivity|]);
    eapply registration_on_pending;
    try (cbn [states]; rewrite lookup_app_l by (rewrite length_insert; exact Hlt);
         rewrite list_lookup_insert_eq by exact Hlt; reflexivity);
    reflexivity.
Qed.

Lemma fulfilment_feeds_one_chain_witness :
  then_calls "then2" (trace (snd (Promise_Then 1 0 lambda2 ready_ints))) =
    [[VInt 100; VInt 200]] /\
  trace (snd (Promise_Then 1 0 lambda3 (snd (Promise_Then 1 0 lambda2 ready_ints)))) =
    trace (snd (Promise_Then 1 0 lambda2 ready_ints)).
Proof.
  destruct (fulfilment_feeds_one_chain 0 1 ready_ints 0
              (mk_State fulfilled None None [VInt 100; VInt 200] None)
              lambda2 1 lambda3 recover lambda6 eq_refl eq_refl eq_refl)
    as (E1 & _ & _ & E2 & _).
  split; [exact E1 | exact E2].
Defined.

(** ** Settling again *)

Lemma later_frame b h h' a t : frame b h h' -> later h a t -> later h' a t.
Proof.
  intros F Hl d Hd. destruct (Hl d Hd). pose proof (frame_length _ _ _ F). lia.
Qed.

(** A continuation that ran is still registered: neither [SetValue] nor
    [SetException] clears the slot it dispatched to.  When a state that
    holds a success continuation is fulfilled, and after that call has
    returned is fulfilled again, the continuation is called twice, once
    with each bundle; likewise a failure continuation and two
    rejections. *)
Theorem continuation_stays_registered k k' h this s :
  wf h -> states h !! this = Some s ->
  (forall q f v1 v2, _done s = Some q ->
   runnables h !! q = Some (Some (Resolver f)) ->
   fst (State_SetValue (S k) this v1 h) = Done tt ->
   let h2 := snd ((State_SetValue (S k) this v1;;
                   State_SetValue (S k') this v2) h) in
   calls_of this (trace h2) =
     calls_of this (trace h) ++ [(Some q, Bundle v1); (Some q, Bundle v2)] /\
   settlements this (trace h2) =
     settlements this (trace h) ++ [Bundle v1; Bundle v2]) /\
  (forall p g e1 e2, _fail s = Some p ->
   runnables h !! p = Some (Some (Rejecter g)) ->
   fst (State_SetException (S k) this e1 h) = Done tt ->
   let h2 := snd ((State_SetException (S k) this e1;;
                   State_SetException (S k') this e2) h) in
   calls_of this (trace h2) =
     calls_of this (trace h) ++ [(Some p, Error e1); (Some p, Error e2)] /\
   settlements this (trace h2) =
     settlements this (trace h) ++ [Error e1; Error e2]).
Proof.
  intros W Hs. pose proof (lookup_lt_Some _ _ _ Hs) as Hlt. split.
  - intros q f v1 v2 Hd Hq Hdone h2. subst h2.
    pose proof (wf_later_value h this s q f W Hs Hd Hq) as Hl.
    destruct (State_SetValue_once k h this s q f v1 W Hs Hd Hq Hl) as (C1 & S1 & _).
    destruct (proj1 (settle_sound (S k)) this v1 h W Hlt) as (W1 & F1 & _).
    unfold bind.
    destruct (State_SetValue (S k) this v1 h) as [r h1]. cbn [fst snd] in *.
    subst r.
    destruct (frame_slots _ _ _ F1 this s Hs) as (s1 & Hs1 & Hd1 & _).
    assert (Hq1 : runnables h1 !! q = Some (Some (Resolver f)))
      by (rewrite (frame_runnables _ _ _ F1); exact Hq).
    destruct (State_SetValue_once k' h1 this s1 q f v2 W1 Hs1
                (eq_trans Hd1 Hd) Hq1 (later_frame _ _ _ _ _ F1 Hl)) as (C2 & S2 & _).
    rewrite C2, S2, C1, S1, <- !app_assoc. auto.
  - intros p g e1 e2 Hd Hq Hdone h2. subst h2.
    pose proof (wf_later_error h this s p g W Hs Hd Hq) as Hl.
    destruct (State_SetException_once k h this s p g e1 W Hs Hd Hq Hl) as (C1 & S1 & _).
    destruct (proj2 (settle_sound (S k)) this e1 h W Hlt) as (W1 & F1 & _).
    unfold bind.
    destruct (State_SetException (S k) this e1 h) as [r h1]. cbn [fst snd] in *.
    subst r.
    destruct (frame_slots _ _ _ F1 this s Hs) as (s1 & Hs1 & _ & Hd1).
    assert (Hq1 : runnables h1 !! p = Some (Some (Rejecter g)))
      by (rewrite (frame_runnables _ _ _ F1); exact Hq).
    destruct (State_SetException_once k' h1 this s1 p g e2 W1 Hs1
                (eq_trans Hd1 Hd) Hq1 (later_frame _ _ _ _ _ F1 Hl)) as (C2 & S2 & _).
    rewrite C2, S2, C1, S1, <- !app_assoc. auto.
Qed.

Lemma wf_finally_once : wf finally_once.
Proof.
  intros a s Hs. destruct a as [|a]; [|destruct a; discriminate].
  injection Hs as <-. split; intros r Hr; injection Hr as <-.
  - eexists. split; [reflexivity|]. intros r Hr. injection Hr as <-.
    eexists. split; [reflexivity|]. intros d Hd. discriminate.
  - eexists. split; [reflexivity|]. intros r Hr. injection Hr as <-.
    eexists. split; [reflexivity|]. intros d Hd. discriminate.
Qed.

Lemma continuation_stays_registered_witness :
  finally_calls "first"
    (trace (snd ((State_SetValue 1 0 [VInt 1];; State_SetValue 1 0 [VInt 2])
                   finally_once))) = [None; None] /\
  calls_of 0
    (trace (snd ((State_SetValue 1 0 [VInt 1];; State_SetValue 1 0 [VInt 2])
                   finally_once))) =
    [(Some 0, Bundle [VInt 1]); (Some 0, Bundle [VInt 2])].
Proof.
  split; [reflexivity|].
  exact (proj1 (proj1 (continuation_stays_registered 0 0 finally_once 0
                         (mk_State pending (Some 0) (Some 1) [VInt 0] None)
                         wf_finally_once eq_refl)
                  0 (finally_done (ignore "first")) [VInt 1] [VInt 2]
                  eq_refl eq_refl eq_refl)).
Defined.

(** ** [Reset] and what follows it *)

(** [Reset] unregisters.  After it a second [Reset] changes nothing, and
    settling the state calls nothing: the state is left fulfilled with
    the bundle, or rejected with the error, and the trace grows by the
    settlement alone.  A [Deffered] that was reset can be settled
    again, but the chain that hung on it is gone. *)
Theorem Reset_unregisters k h this s v e :
  states h !! this = Some s ->
  live (runnables h) (_done s) ->
  live (freed (_done s) (runnables h)) (_fail s) ->
  let h1 := snd (State_Reset this h) in
  State_Reset this h1 = (Done tt, h1) /\
  State_SetValue (S k) this v h1 =
    (Done tt,
     mk_Heap (<[this := mk_State fulfilled None None v None]> (states h))
       (runnables h1) (trace h ++ [EvSettle this (Bundle v)])) /\
  State_SetException (S k) this e h1 =
    (Done tt,
     mk_Heap (<[this := mk_State rejected None None (_value s) e]> (states h))
       (runnables h1) (trace h ++ [EvSettle this (Error e)])).
Proof.
  intros Hs Hd Hf h1.
  assert (HR : State_Reset this h =
    (Done tt,
     mk_Heap (<[this := mk_State pending None None (_value s) None]> (states h))
       (freed (_fail s) (freed (_done s) (runnables h))) (trace h))).
  { open h s.
    destruct _done0 as [d|], _fail0 as [f|]; cbn [live freed] in *;
      repeat match goal with H : exists _, _ |- _ => destruct H end;
      exec; reflexivity. }
  subst h1. rewrite HR. cbn [snd].
  pose proof (lookup_lt_Some _ _ _ Hs) as Hlt.
  set (rs1 := freed (_fail s) (freed (_done s) (runnables h))).
  destruct h as [sts rs tr]. cbn [states runnables trace] in *.
  repeat split.
  - unfold State_Reset, delete. run. reflexivity.
  - run. reflexivity.
  - run. reflexivity.
Qed.

Lemma Reset_unregisters_witness :
  finally_calls "first"
    (trace (snd (State_SetValue 1 0 [VInt 7] (snd (State_Reset 0 finally_once))))) = [] /\
  _st <$> states (snd (State_SetValue 1 0 [VInt 7] (snd (State_Reset 0 finally_once)))) !! 0 =
    Some fulfilled.
Proof.
  assert (Hd : live (runnables finally_once) (Some 0)) by (eexists; reflexivity).
  assert (Hf : live (freed (Some 0) (runnables finally_once)) (Some 1))
    by (eexists; reflexivity).
  destruct (Reset_unregisters 0 finally_once 0
              (mk_State pending (Some 0) (Some 1) [VInt 0] None)
              [VInt 7] None eq_refl Hd Hf) as (_ & E & _).
  rewrite E. split; reflexivity.
Defined.

(** ** Settling and registering in either order *)

Ltac call_with H :=
  first [ erewrite bind_run by (apply run_call_Some; rewrite H; reflexivity)
        | rewrite bind_call_None by (rewrite H; reflexivity) ];
  rewrite ?H; tidy; exec.

(** On a pending state that holds no continuation, settling and then
    calling an operator is the same as calling the operator and then
    settling: the same result, the same states and runnables and the same
    trace, whatever the caller's function does.  This holds for [Then],
    [Exception] and [Finally], and for a fulfilment as for a rejection. *)
Theorem settling_and_registering_commute fuel fuel' k h this s f1 f2 f3 :
  states h !! this = Some s -> _st s = pending ->
  _done s = None -> _fail s = None ->
  (forall v,
     (State_SetValue (S k) this v;; Promise_Then (S fuel) this f1) h =
     (r <- Promise_Then fuel' this f1;; State_SetValue (S (S k)) this v;; ret r) h /\
     (State_SetValue (S k) this v;; Promise_Exception (S fuel) this f2) h =
     (r <- Promise_Exception fuel' this f2;; State_SetValue (S (S k)) this v;; ret r) h /\
     (State_SetValue (S k) this v;; Promise_Finally (S fuel) this f3) h =
     (Promise_Finally fuel' this f3;; State_SetValue (S (S k)) this v) h) /\
  (forall e,
     (State_SetException (S k) this e;; Promise_Then (S fuel) this f1) h =
     (r <- Promise_Then fuel' this f1;; State_SetException (S (S k)) this e;; ret r) h /\
     (State_SetException (S k) this e;; Promise_Exception (S fuel) this f2) h =
     (r <- Promise_Exception fuel' this f2;; State_SetException (S (S k)) this e;; ret r) h /\
     (State_SetException (S k) this e;; Promise_Finally (S fuel) this f3) h =
     (Promise_Finally fuel' this f3;; State_SetException (S (S k)) this e) h).
Proof.
  intros Hs Hst Hd Hf. open h s. split.
  - intros v. split; [|split].
    + destruct (cbody f1 v) as [lines [[w|e|]|]] eqn:Hb; exec;
        repeat call_with Hb; rewrite ?length_insert; reflexivity.
    + exec. rewrite ?length_insert. reflexivity.
    + exec. rewrite !run_call.
      destruct (tbody f3 None) as [lines [[]|]] eqn:Hb; reflexivity.
  - intros e. split; [|split].
    + exec. rewrite ?length_insert. reflexivity.
    + destruct (cbody f2 e) as [lines [[w|e'|]|]] eqn:Hb; exec;
        repeat call_with Hb; rewrite ?length_insert; reflexivity.
    + exec. rewrite !run_call.
      destruct (tbody f3 e) as [lines [[]|]] eqn:Hb; reflexivity.
Qed.

Lemma settling_and_registering_commute_witness :
  (State_SetValue 1 1 [];; Promise_Then 1 1 lambda5) two_chains =
  (r <- Promise_Then 0 1 lambda5;; State_SetValue 2 1 [];; ret r) two_chains.
Proof.
  exact (proj1 (proj1 (settling_and_registering_commute 0 0 0 two_chains 1
                         (mk_State pending None None [] None)
                         lambda5 recover lambda6 eq_refl eq_refl eq_refl eq_refl)
                  [])).
Defined.

(** ** [Finally] and a null error *)

Lemma finally_calls_prints name lines :
  finally_calls name (map EvPrint lines) = [].
Proof. induction lines as [|l ls IH]; [reflexivity | exact IH]. Qed.

Lemma printed_prints lines : printed (map EvPrint lines) = lines.
Proof. induction lines as [|l ls IH]; [reflexivity | cbn; now f_equal]. Qed.

(** A rejection with a null error looks like a fulfilment to [Finally]:
    on the promise of [MakeException(nullptr)] and on the promise of
    [MakeReadyPromise(values)] the function is called once, with null,
    prints the same and ends the same. *)
Theorem Finally_null_rejection k fuel ts values func h :
  let a := (p <- MakeReadyPromise (State_SetValue (S k)) ts values;;
            Promise_Finally fuel p func) h in
  let b := (p <- MakeException (State_SetException (S k)) ts None;;
            Promise_Finally fuel p func) h in
  fst a = outcome_of (tbody func None) /\
  fst b = outcome_of (tbody func None) /\
  finally_calls (tname func) (trace (snd a)) =
    finally_calls (tname func) (trace h) ++ [None] /\
  finally_calls (tname func) (trace (snd b)) =
    finally_calls (tname func) (trace h) ++ [None] /\
  printed (trace (snd a)) = printed (trace h) ++ fst (tbody func None) /\
  printed (trace (snd b)) = printed (trace h) ++ fst (tbody func None).
Proof.
  intros a b. subst a b. destruct h as [sts rs tr].
  unfold MakeReadyPromise, MakeException, Deffered_new, Deffered_SetValue,
    Deffered_SetException, Deffered_GetPromise, new_State.
  exec. rewrite !run_call. cbn [fst snd trace].
  unfold finally_calls, printed. rewrite !omap_app.
  fold (finally_calls (tname func) (map EvPrint (fst (tbody func None)))).
  fold (printed (map EvPrint (fst (tbody func None)))).
  cbn [omap list_omap]. rewrite ?String.eqb_refl.
  rewrite finally_calls_prints, printed_prints, !app_nil_r.
  repeat split.
Qed.

(** ** What settling leaves alone *)

(** What the code of the header does in a cascade, the functions of
    the callers being bodies that print, assert and return a promise
    they have just made, without a handle on any state of the heap (a
    function that resets, settles or chains a promise of the heap while
    it runs is not covered).  Settling a state of a well-formed heap,
    with the whole cascade it starts and whether or not the cascade runs
    to its end, then allocates and deletes no runnable, leaves every
    state before the settled one as it was, leaves every state the
    continuations it holds, keeps the heap well formed and only appends
    to the trace. *)
Theorem settling_keeps_registrations k h d h' :
  wf h -> d < length (states h) ->
  (exists v, h' = snd (State_SetValue k d v h)) \/
  (exists e, h' = snd (State_SetException k d e h)) ->
  wf h' /\
  runnables h' = runnables h /\
  (forall a, a < d -> states h' !! a = states h !! a) /\
  (forall a s, states h !! a = Some s ->
     exists s', states h' !! a = Some s' /\ _done s' = _done s /\ _fail s' = _fail s) /\
  exists evs, trace h' = trace h ++ evs.
Proof.
  intros W Hd Hh'.
  assert (H : wf h' /\ frame d h h').
  { destruct Hh' as [[v ->]|[e ->]].
    - destruct (proj1 (settle_sound k) d v h W Hd) as (W' & F & _). auto.
    - destruct (proj2 (settle_sound k) d e h W Hd) as (W' & F & _). auto. }
  destruct H as [W' [_ Fr Fb Fs _ (evs & Ft & _)]].
  split; [exact W'|]. split; [exact Fr|]. split; [exact Fb|].
  split; [exact Fs|]. exists evs. exact Ft.
Qed.

Lemma settling_keeps_registrations_witness :
  runnables (snd (State_SetValue 3 0 [VInt 7] two_chains)) = runnables two_chains /\
  _st <$> states (snd (State_SetValue 3 0 [VInt 7] two_chains)) !! 1 = Some fulfilled.
Proof.
  split; [|reflexivity].
  assert (Hd : 0 < length (states two_chains)) by (vm_compute; lia).
  exact (proj1 (proj2 (settling_keeps_registrations 3 two_chains 0 _
                         (built_wf _ _) Hd
                         (or_introl (ex_intro _ [VInt 7] eq_refl))))).
Defined.

(** ** Chains do not loop *)

(** In every heap that calls of the interface build, a continuation
    that a state holds settles a stage allocated after that state (and
    before the end of the store): following continuations from stage to
    stage goes up in the store, so no chain comes back to a stage it
    started from. *)
Theorem chains_do_not_loop fuel os a s t :
  let h := snd (run_ops fuel os empty_heap) in
  states h !! a = Some s -> aims h s t -> a < t /\ t < length (states h).
Proof. intros h Hs Ht. exact (wf_aims h a s t (built_wf fuel os) Hs Ht). Qed.

Lemma chains_do_not_loop_witness :
  0 < 1 /\ 1 < length (states two_chains).
Proof.
  apply (chains_do_not_loop 1
           [OpDeffered [TInt];
            OpThen 0 (mk_continuation "next" [] (fun _ => returns (Ready [])));
            OpMakeReadyPromise [TInt; TInt] [VInt 100; VInt 200]]
           0 (mk_State pending (Some 0) (Some 1) [VInt 0] None) 1 eq_refl).
  left. eexists 0, _. repeat split; reflexivity.
Defined.

(** * Calls end well *)

(** ** Runs that stop at no bad pointer *)

Lemma total_bind {A B} fine b P (c : M A) (k : A -> M B) R Q :
  total fine b P c R -> (forall x, total fine b (R x) (k x) Q) ->
  total fine b P (x <- c;; k x) Q.
Proof.
  intros Hc Hk h Hwf HP. destruct (Hc h Hwf HP) as (W1 & F1 & O1).
  unfold bind. destruct (c h) as [[x|t|] h1]; cbn [fst snd] in *; auto.
  destruct (Hk x h1 W1 O1) as (W2 & F2 & O2).
  split; [exact W2|]. split; [|exact O2].
  eapply frame_trans; [reflexivity | exact F1 | exact F2].
Qed.

Lemma total_weaken {A} fine b (P P' : Heap -> Prop) (c : M A) (Q Q' : A -> Heap -> Prop) :
  total fine b P c Q ->
  (forall h, wf h -> P' h -> P h) ->
  (forall x h, wf h -> Q x h -> Q' x h) ->
  total fine b P' c Q'.
Proof.
  intros Hc HP HQ h Hwf Hh. destruct (Hc h Hwf (HP h Hwf Hh)) as (W & F & O).
  split; [exact W|]. split; [exact F|].
  destruct (fst (c h)); auto.
Qed.

Lemma total_pre {A} fine b (P P' : Heap -> Prop) (c : M A) (Q : A -> Heap -> Prop) :
  total fine b P c Q -> (forall h, wf h -> P' h -> P h) -> total fine b P' c Q.
Proof. intros Hc HP. eapply total_weaken; eauto. Qed.

Lemma total_lower {A} fine b b' P (c : M A) Q :
  b <= b' -> total fine b' P c Q -> total fine b P c Q.
Proof.
  intros Hb Hc h Hwf HP. destruct (Hc h Hwf HP) as (W & F & O).
  split; [exact W|]. split; [|exact O]. eapply frame_mono; eauto.
Qed.

(** Less fuel is asked for. *)
Lemma total_fine {A} (fine fine' : Prop) b P (c : M A) Q :
  (fine -> fine') -> total fine' b P c Q -> total fine b P c Q.
Proof.
  intros Hf Hc h Hwf HP. destruct (Hc h Hwf HP) as (W & F & O).
  split; [exact W|]. split; [exact F|].
  destruct (fst (c h)); auto.
Qed.

Lemma total_frame {A} fine b P (c : M A) Q F :
  stable b F -> total fine b P c Q ->
  total fine b (fun h => P h /\ F h) c (fun x h => Q x h /\ F h).
Proof.
  intros HF Hc h Hwf [HP Hh]. destruct (Hc h Hwf HP) as (W & Fr & O).
  split; [exact W|]. split; [exact Fr|].
  destruct (fst (c h)); auto. split; [exact O|].
  eapply HF; eauto.
Qed.

Lemma total_seq {A B} fine b P (c : M A) (k : A -> M B) R Q :
  stable b P -> total fine b P c R ->
  (forall x, total fine b (fun h => R x h /\ P h) (k x) Q) ->
  total fine b P (x <- c;; k x) Q.
Proof.
  intros HP Hc Hk. eapply total_bind; [|exact Hk].
  eapply total_weaken; [apply (total_frame fine b P c R P HP Hc)| |]; cbv beta; tauto.
Qed.

Lemma total_assume {A} fine b (P : Heap -> Prop) (c : M A) Q (fact : Prop) :
  (forall h, wf h -> P h -> fact) -> (fact -> total fine b P c Q) ->
  total fine b P c Q.
Proof. intros Hf Hc h Hwf HP. exact (Hc (Hf h Hwf HP) h Hwf HP). Qed.

Lemma total_ret {A} fine b (P : Heap -> Prop) (x : A) (Q : A -> Heap -> Prop) :
  (forall h, wf h -> P h -> Q x h) -> total fine b P (ret x) Q.
Proof.
  intros H h Hwf HP. cbn. split; [exact Hwf|]. split; [apply frame_refl|]. auto.
Qed.

Lemma total_out_of_fuel {A} (fine : Prop) b (P : Heap -> Prop) (Q : A -> Heap -> Prop) :
  ~ fine -> total fine b P out_of_fuel Q.
Proof.
  intros Hf h Hwf HP. cbn. split; [exact Hwf|]. split; [apply frame_refl|]. exact Hf.
Qed.

Lemma total_load fine b a :
  total fine b (fun h => a < length (states h)) (load a)
    (fun s h => states h !! a = Some s).
Proof.
  intros h Hwf Ha. unfold load.
  destruct (lookup_lt_is_Some_2 _ _ Ha) as [s E]. rewrite E. cbn.
  split; [exact Hwf|]. split; [apply frame_refl | exact E].
Qed.

Lemma total_deref fine b q :
  total fine b (fun h => exists r, runnables h !! q = Some (Some r)) (deref q)
    (fun r h => runnables h !! q = Some (Some r)).
Proof.
  intros h Hwf [r E]. unfold deref. rewrite E. cbn.
  split; [exact Hwf|]. split; [apply frame_refl | exact E].
Qed.

Lemma total_emit fine b ev :
  total fine b (fun h => legit h b ev) (emit ev) (fun _ _ => True).
Proof.
  intros h Hwf HP. cbn [emit fst snd].
  split; [now apply (wf_with_events h [ev])|]. split; [|exact I].
  apply (frame_with_events b h [ev]). now constructor.
Qed.

Lemma total_call {R} fine b (x : effect R) :
  total fine b (fun _ => True) (call x) (fun _ _ => True).
Proof.
  intros h Hwf _. rewrite run_call. cbn [fst snd].
  split; [now apply wf_with_events|]. split.
  - apply frame_with_events. apply Forall_forall.
    intros ev Hev. apply list_elem_of_fmap in Hev as (l & -> & _). exact I.
  - unfold outcome_of. destruct (snd x); auto.
Qed.

Lemma total_modify fine b a f :
  b <= a ->
  (forall s, _done (f s) = _done s /\ _fail (f s) = _fail s) ->
  total fine b (fun h => a < length (states h)) (modify a f) (fun _ _ => True).
Proof.
  intros Hb Hf h Hwf Ha. unfold modify.
  destruct (lookup_lt_is_Some_2 _ _ Ha) as [s E]. rewrite E. cbn [fst snd].
  destruct (Hf s) as [Hd Hfl]. destruct (Hwf a s E) as [Od Of].
  split; [|split; [|exact I]].
  - apply (wf_with_state h a s (f s)); auto; [now rewrite Hd | now rewrite Hfl].
  - now apply (frame_with_state b h a s (f s)).
Qed.

Lemma total_new_State fine b m ts :
  total fine b (fun h => b <= length (states h) /\ m <= length (states h))
    (new_State ts)
    (fun r h => b <= r /\ m <= r /\ r < length (states h)).
Proof.
  intros h Hwf [Hb Hm]. cbn [new_State fst snd].
  split; [now apply (wf_with_new_state h (State_default ts))|]. split.
  - now apply (frame_with_new_state b h (State_default ts)).
  - split; [exact Hb|]. split; [exact Hm|].
    cbn [with_new_state states]. rewrite length_app. cbn. lia.
Qed.

(** More stable facts. *)
Lemma stable_alive b : stable b alive.
Proof.
  intros h h' Fr H a s' q Hs' Hq. rewrite (frame_runnables _ _ _ Fr).
  destruct (states h !! a) as [s|] eqn:E.
  - destruct (frame_slots _ _ _ Fr a s E) as (s'' & Hs'' & Hd & Hf).
    rewrite Hs' in Hs''. injection Hs'' as <-.
    apply (H a s q E). unfold slot_of in *. now rewrite <- Hd, <- Hf.
  - apply lookup_ge_None in E.
    destruct (frame_fresh _ _ _ Fr a s' E Hs') as [Hd Hf].
    unfold slot_of in Hq. rewrite Hd, Hf in Hq. destruct Hq; discriminate.
Qed.

Lemma stable_bounded b L : stable b (bounded L).
Proof.
  intros h h' Fr H a s' t Hs' Ht.
  destruct (states h !! a) as [s|] eqn:E.
  - destruct (frame_slots _ _ _ Fr a s E) as (s'' & Hs'' & Hd & Hf).
    rewrite Hs' in Hs''. injection Hs'' as <-.
    apply (H a s t E).
    destruct Ht as [(q & f & Hq & Hr & Ht)|(q & f & Hq & Hr & Ht)]; [left|right];
      exists q, f; rewrite (frame_runnables _ _ _ Fr) in Hr;
      (split; [congruence | auto]).
  - apply lookup_ge_None in E.
    destruct (frame_fresh _ _ _ Fr a s' E Hs') as [Hd Hf].
    destruct Ht as [(q & f & Hq & _)|(q & f & Hq & _)]; congruence.
Qed.

Lemma stable_chain_ok b L : stable b (chain_ok L).
Proof.
  intros h h' Fr (Ha & Hb & Hl). split; [|split].
  - exact (stable_alive b h h' Fr Ha).
  - exact (stable_bounded b L h h' Fr Hb).
  - pose proof (frame_length _ _ _ Fr). lia.
Qed.

Lemma stable_resolver_in b q lo L : stable b (fun h => resolver_in h q lo L).
Proof.
  intros h h' Fr (f & Hq & Hf). exists f. rewrite (frame_runnables _ _ _ Fr).
  split; [exact Hq|]. intros d Hd. destruct (Hf d Hd) as (? & ? & ?).
  pose proof (frame_length _ _ _ Fr). lia.
Qed.

Lemma stable_rejecter_in b q lo L : stable b (fun h => rejecter_in h q lo L).
Proof.
  intros h h' Fr (f & Hq & Hf). exists f. rewrite (frame_runnables _ _ _ Fr).
  split; [exact Hq|]. intros d Hd. destruct (Hf d Hd) as (? & ? & ?).
  pose proof (frame_length _ _ _ Fr). lia.
Qed.

Lemma stable_value_target_in b lo L f :
  stable b (fun h => forall d, target_of_value f = Some d ->
                               lo <= d /\ d < L /\ d < length (states h)).
Proof.
  intros h h' Fr H d Hd. destruct (H d Hd) as (? & ? & ?).
  pose proof (frame_length _ _ _ Fr). lia.
Qed.

Lemma stable_error_target_in b lo L f :
  stable b (fun h => forall d, target_of_error f = Some d ->
                               lo <= d /\ d < L /\ d < length (states h)).
Proof.
  intros h h' Fr H d Hd. destruct (H d Hd) as (? & ? & ?).
  pose proof (frame_length _ _ _ Fr). lia.
Qed.

Ltac stab' :=
  solve [ repeat first
    [ apply stable_valid | apply stable_room | apply stable_chain_ok
    | apply stable_resolver_in | apply stable_rejecter_in
    | apply stable_value_target_in | apply stable_error_target_in
    | apply stable_holds | apply stable_pure | apply stable_and ] ].

Ltac tspec H := eapply total_pre; [apply H | side].
Ltac tuse H := eapply total_weaken; [apply H | side | side].

(** The reads. *)
Lemma modify_total fine b a f :
  b <= a ->
  (forall s, _done (f s) = _done s /\ _fail (f s) = _fail s) ->
  total fine b (fun h => a < length (states h)) (modify a f)
    (fun _ h => a < length (states h)).
Proof.
  intros Hb Hf.
  eapply total_weaken;
    [apply (total_frame fine b _ _ _ (fun h => a < length (states h))
              (stable_valid b a) (total_modify fine b a f Hb Hf)) | |];
    cbv beta; tauto.
Qed.

Lemma get_value_total fine b this :
  b <= this ->
  total fine b (fun h => this < length (states h)) (get_value this)
    (fun ref h => ref = this /\ this < length (states h)).
Proof.
  intros Hb. unfold get_value.
  eapply total_bind; [apply (modify_total fine b this); [exact Hb | now intros []]|].
  intros ?. apply total_ret. auto.
Qed.

Lemma move_tuple_total fine b ref :
  b <= ref ->
  total fine b (fun h => ref < length (states h)) (move_tuple ref) (fun _ _ => True).
Proof.
  intros Hb. unfold move_tuple.
  apply total_seq with (R := fun _ _ => True); [stab' | tuse total_load |].
  intros s.
  eapply total_bind.
  { eapply total_pre;
      [apply (total_modify fine b ref); [exact Hb | now intros []] | side]. }
  intros ?. apply total_ret. auto.
Qed.

Lemma get_exception_total fine b this :
  b <= this ->
  total fine b (fun h => this < length (states h)) (get_exception this)
    (fun _ _ => True).
Proof.
  intros Hb. unfold get_exception.
  eapply total_bind; [apply (modify_total fine b this); [exact Hb | now intros []]|].
  intros ?. apply total_seq with (R := fun _ _ => True); [stab' | tuse total_load |].
  intros s.
  eapply total_bind.
  { eapply total_pre;
      [apply (total_modify fine b this); [exact Hb | now intros []] | side]. }
  intros ?. apply total_ret. auto.
Qed.

Lemma Promise_GetValue_total fine b this :
  b <= this ->
  total fine b (fun h => this < length (states h)) (Promise_GetValue this)
    (fun _ _ => True).
Proof.
  intros Hb. unfold Promise_GetValue.
  eapply total_bind; [apply (get_value_total fine b this Hb)|].
  intros ref. apply (total_assume _ _ _ _ _ (ref = this)); [tauto|]. intros ->.
  tspec (move_tuple_total fine b this Hb).
Qed.

Ltac side' :=
  cbv beta; intros; unfold chain_ok in *;
  repeat match goal with H : _ /\ _ |- _ => destruct H end;
  repeat split;
  first [ exact I | assumption | lia | tauto | solve [eauto] | side ].
Ltac tspec' H := eapply total_pre; [apply H | side'].

(** What the lambdas run, given that settling at the next level of the
    cascade ends well when [ok] holds of the state settled. *)
Section cascade_total.
Variable L : nat.
Variable ok : addr -> Prop.
Variable SetValue_next : addr -> tuple -> M unit.
Variable SetException_next : addr -> SException -> M unit.
Hypothesis SetValue_next_total : forall a v,
  total (ok a) a (fun h => a < length (states h) /\ chain_ok L h)
    (SetValue_next a v) (fun _ _ => True).
Hypothesis SetException_next_total : forall a e,
  total (ok a) a (fun h => a < length (states h) /\ chain_ok L h)
    (SetException_next a e) (fun _ _ => True).

Lemma new_settled_total {X} (fine : Prop) b ts (settle : addr -> X -> M unit) (x : X) :
  (forall a, total (ok a) a (fun h => a < length (states h) /\ chain_ok L h)
               (settle a x) (fun _ _ => True)) ->
  (fine -> forall d, L <= d -> ok d) ->
  total fine b (fun h => b <= length (states h) /\ chain_ok L h)
    (dollar <- new_State ts;; settle dollar x;; ret dollar)
    (fun r h => b <= r /\ r < length (states h)).
Proof.
  intros Hs Hok.
  apply total_seq with (R := fun d h => b <= d /\ L <= d /\ d < length (states h)).
  - stab'.
  - tspec' (total_new_State fine b L ts).
  - intros d. apply (total_assume _ _ _ _ _ (b <= d /\ L <= d)); [side'|].
    intros [Hbd HLd].
    apply total_seq with (R := fun _ _ => True); [stab' | |].
    + apply (total_lower _ b d); [exact Hbd|].
      apply (total_fine fine (ok d)); [auto|]. tspec' Hs.
    + intros ?. apply total_ret. side'.
Qed.

Lemma make_facade_total (fine : Prop) b ts x :
  (fine -> forall d, L <= d -> ok d) ->
  total fine b (fun h => b <= length (states h) /\ chain_ok L h)
    (make_facade SetValue_next SetException_next ts x)
    (fun r h => b <= r /\ r < length (states h)).
Proof.
  intros Hok. destruct x as [v|e|]; cbn [make_facade].
  - apply (new_settled_total fine b ts SetValue_next v); auto.
  - apply (new_settled_total fine b ts SetException_next e); auto.
  - tuse (total_new_State fine b L ts); unfold chain_ok in *; tauto.
Qed.

Lemma forward_total (fine : Prop) b r dollar :
  b <= r -> b <= dollar -> (fine -> ok dollar) ->
  total fine b
    (fun h => r < length (states h) /\ dollar < length (states h) /\ chain_ok L h)
    (forward SetValue_next SetException_next r dollar)
    (fun _ _ => True).
Proof.
  intros Hr Hd Hok. unfold forward, Promise_GetStatus, Promise_GetException,
    Deffered_SetValue, Deffered_SetException.
  apply total_seq with (R := fun _ _ => True); [stab'| |].
  - eapply total_bind; [tspec' total_load|].
    intros s. apply total_ret. auto.
  - intros [| |].
    + apply total_ret. auto.
    + apply total_seq with (R := fun _ _ => True); [stab'| |].
      * tspec' (Promise_GetValue_total fine b r Hr).
      * intros v. apply (total_lower _ b dollar); [exact Hd|].
        apply (total_fine fine (ok dollar)); [exact Hok|].
        tspec' SetValue_next_total.
    + apply total_seq with (R := fun _ _ => True); [stab'| |].
      * tspec' (get_exception_total fine b r Hr).
      * intros e. apply (total_lower _ b dollar); [exact Hd|].
        apply (total_fine fine (ok dollar)); [exact Hok|].
        tspec' SetException_next_total.
Qed.

Lemma graft_total {X} (fine : Prop) b (func : continuation X) (x : X) dollar :
  b <= dollar -> dollar < L -> (fine -> forall d, dollar <= d -> ok d) ->
  total fine b (fun h => dollar < length (states h) /\ chain_ok L h)
    (y <- call (cbody func x);;
     r <- make_facade SetValue_next SetException_next (cret func) y;;
     forward SetValue_next SetException_next r dollar)
    (fun _ _ => True).
Proof.
  intros Hd HL Hok.
  apply total_seq with (R := fun _ _ => True); [stab'| |].
  - tspec' (@total_call facade fine b).
  - intros y. apply total_seq with (R := fun r h => b <= r /\ r < length (states h)).
    + stab'.
    + assert (Hok' : fine -> forall d, L <= d -> ok d).
      { intros Hf d HLd. apply Hok; [exact Hf | lia]. }
      tspec' (make_facade_total fine b (cret func) y Hok').
    + intros r. apply (total_assume _ _ _ _ _ (b <= r)); [side'|]. intros Hr.
      assert (Hok' : fine -> ok dollar).
      { intros Hf. apply Hok; [exact Hf | lia]. }
      tspec' (forward_total fine b r dollar Hr Hd Hok').
Qed.

Lemma run_value_func_total (fine : Prop) b lo f args :
  b <= lo -> (fine -> forall t d, lo <= t -> t < L -> t <= d -> ok d) ->
  total fine b
    (fun h => (forall d, target_of_value f = Some d ->
                 lo <= d /\ d < L /\ d < length (states h)) /\ chain_ok L h)
    (run_value_func SetValue_next SetException_next f args)
    (fun _ _ => True).
Proof.
  intros Hlo Hok. destruct f as [func dollar|func]; cbn [run_value_func].
  - apply (total_assume _ _ _ _ _ (lo <= dollar /\ dollar < L)).
    { intros h _ [H _]. destruct (H dollar eq_refl) as (? & ? & ?). auto. }
    intros [Hd HL].
    apply total_seq with (R := fun _ _ => True); [stab'| |].
    + tspec' total_emit.
    + intros ?.
      assert (Hok' : fine -> forall d, dollar <= d -> ok d).
      { intros Hf d Hdd. exact (Hok Hf dollar d Hd HL Hdd). }
      eapply total_pre;
        [apply (graft_total fine b func args dollar (Nat.le_trans _ _ _ Hlo Hd) HL Hok')|].
      cbv beta. intros h _ [_ [H Hc]].
      destruct (H dollar eq_refl) as (? & ? & ?). split; assumption.
  - eapply total_bind.
    + tspec' total_emit.
    + intros ?. tspec' (@total_call unit fine b).
Qed.

Lemma run_error_func_total (fine : Prop) b lo f e :
  b <= lo -> (fine -> forall t d, lo <= t -> t < L -> t <= d -> ok d) ->
  total fine b
    (fun h => (forall d, target_of_error f = Some d ->
                 lo <= d /\ d < L /\ d < length (states h)) /\ chain_ok L h)
    (run_error_func SetValue_next SetException_next f e)
    (fun _ _ => True).
Proof.
  intros Hlo Hok. destruct f as [dollar|func dollar|func]; cbn [run_error_func].
  - apply (total_assume _ _ _ _ _ (lo <= dollar /\ dollar < L)).
    { intros h _ [H _]. destruct (H dollar eq_refl) as (? & ? & ?). auto. }
    intros [Hd HL]. unfold Deffered_SetException.
    apply (total_lower _ b dollar); [lia|].
    apply (total_fine fine (ok dollar)).
    { intros Hf. exact (Hok Hf dollar dollar Hd HL (le_n _)). }
    eapply total_pre; [apply SetException_next_total|].
    cbv beta. intros h _ [H Hc].
    destruct (H dollar eq_refl) as (? & ? & ?). split; assumption.
  - apply (total_assume _ _ _ _ _ (lo <= dollar /\ dollar < L)).
    { intros h _ [H _]. destruct (H dollar eq_refl) as (? & ? & ?). auto. }
    intros [Hd HL].
    apply total_seq with (R := fun _ _ => True); [stab'| |].
    + tspec' total_emit.
    + intros ?.
      assert (Hok' : fine -> forall d, dollar <= d -> ok d).
      { intros Hf d Hdd. exact (Hok Hf dollar d Hd HL Hdd). }
      eapply total_pre;
        [apply (graft_total fine b func e dollar (Nat.le_trans _ _ _ Hlo Hd) HL Hok')|].
      cbv beta. intros h _ [_ [H Hc]].
      destruct (H dollar eq_refl) as (? & ? & ?). split; assumption.
  - eapply total_bind.
    + tspec' total_emit.
    + intros ?. tspec' (@total_call unit fine b).
Qed.

Lemma Runnable_SetValue_total (fine : Prop) b lo q ref :
  b <= ref -> b <= lo ->
  (fine -> forall t d, lo <= t -> t < L -> t <= d -> ok d) ->
  total fine b
    (fun h => ref < length (states h) /\ resolver_in h q lo L /\ chain_ok L h)
    (Runnable_SetValue SetValue_next SetException_next (Some q) ref)
    (fun _ _ => True).
Proof.
  intros Hr Hlo Hok. cbn [Runnable_SetValue].
  apply total_seq with (R := fun r h => runnables h !! q = Some (Some r)); [stab'| |].
  - eapply total_pre; [apply total_deref|].
    cbv beta. intros h _ (_ & (f & Hq & _) & _). eauto.
  - intros r.
    apply (total_assume _ _ _ _ _ (exists f, r = Resolver f)).
    { intros h _ [Hq (_ & (f & Hq' & _) & _)].
      rewrite Hq in Hq'. injection Hq' as ->. eauto. }
    intros [f ->].
    apply total_pre with
      (P := fun h => ref < length (states h) /\
              ((forall d, target_of_value f = Some d ->
                  lo <= d /\ d < L /\ d < length (states h)) /\ chain_ok L h)).
    + eapply total_bind.
      * apply total_frame; [stab' | apply (move_tuple_total fine b ref Hr)].
      * intros args.
        eapply total_pre; [apply (run_value_func_total fine b lo f args Hlo Hok)|].
        cbv beta. tauto.
    + cbv beta. intros h _ [Hq (Hv & (f' & Hq' & Hf) & Hc)].
      rewrite Hq in Hq'. injection Hq' as <-. auto.
Qed.

Lemma Runnable_SetException_total (fine : Prop) b lo q e :
  b <= lo ->
  (fine -> forall t d, lo <= t -> t < L -> t <= d -> ok d) ->
  total fine b
    (fun h => rejecter_in h q lo L /\ chain_ok L h)
    (Runnable_SetException SetValue_next SetException_next (Some q) e)
    (fun _ _ => True).
Proof.
  intros Hlo Hok. cbn [Runnable_SetException].
  apply total_seq with (R := fun r h => runnables h !! q = Some (Some r)); [stab'| |].
  - eapply total_pre; [apply total_deref|].
    cbv beta. intros h _ ((f & Hq & _) & _). eauto.
  - intros r.
    apply (total_assume _ _ _ _ _ (exists f, r = Rejecter f)).
    { intros h _ [Hq ((f & Hq' & _) & _)].
      rewrite Hq in Hq'. injection Hq' as ->. eauto. }
    intros [f ->].
    eapply total_pre; [apply (run_error_func_total fine b lo f e Hlo Hok)|].
    cbv beta. intros h _ [Hq ((f' & Hq' & Hf) & Hc)].
    rewrite Hq in Hq'. injection Hq' as <-. auto.
Qed.
(** The dispatch to the continuation a slot holds. *)
Lemma dispatch_value_total (fine : Prop) this lo q x :
  this <= lo ->
  (fine -> forall t d, lo <= t -> t < L -> t <= d -> ok d) ->
  total fine this
    (fun h => holds h this (Some q) /\ this < length (states h) /\
              resolver_in h q lo L /\ chain_ok L h)
    (ref <- get_value this;;
     emit (EvDispatch this (Some q) x);;
     Runnable_SetValue SetValue_next SetException_next (Some q) ref)
    (fun _ _ => True).
Proof.
  intros Hlo Hok.
  apply total_seq with (R := fun ref h => ref = this /\ this < length (states h));
    [stab' | |].
  { tspec' (get_value_total fine this this (le_n this)). }
  intros ref. apply (total_assume _ _ _ _ _ (ref = this)); [tauto|]. intros ->.
  apply total_seq with (R := fun _ _ => True); [stab' | |].
  { tspec' total_emit. }
  intros ?.
  eapply total_pre;
    [apply (Runnable_SetValue_total fine this lo q this (le_n this) Hlo Hok)|].
  cbv beta. tauto.
Qed.

Lemma dispatch_error_total (fine : Prop) this lo q :
  this <= lo ->
  (fine -> forall t d, lo <= t -> t < L -> t <= d -> ok d) ->
  total fine this
    (fun h => holds h this (Some q) /\ this < length (states h) /\
              rejecter_in h q lo L /\ chain_ok L h)
    (x <- get_exception this;;
     emit (EvDispatch this (Some q) (Error x));;
     Runnable_SetException SetValue_next SetException_next (Some q) x)
    (fun _ _ => True).
Proof.
  intros Hlo Hok.
  apply total_seq with (R := fun _ _ => True); [stab' | |].
  { tspec' (get_exception_total fine this this (le_n this)). }
  intros e.
  apply total_seq with (R := fun _ _ => True); [stab' | |].
  { tspec' total_emit. }
  intros ?.
  eapply total_pre;
    [apply (Runnable_SetException_total fine this lo q e Hlo Hok)|].
  cbv beta. tauto.
Qed.
End cascade_total.

(** The continuation a slot of a well-formed, bounded heap holds. *)
Lemma wf_resolver_in L h a s q :
  wf h -> chain_ok L h -> states h !! a = Some s -> _done s = Some q ->
  resolver_in h q (S a) L.
Proof.
  intros W (Ha & Hb & _) Hs Hd.
  destruct (Ha a s q Hs (or_introl Hd)) as [r Hr].
  destruct (W a s Hs) as [Od _]. destruct (Od q Hd) as (x & Hx & Hk).
  rewrite Hx in Hr. injection Hr as ->.
  destruct (Hk r eq_refl) as (f & -> & Hl). exists f. split; [exact Hx|].
  intros d Ht. destruct (Hl d Ht). split; [lia|]. split; [|assumption].
  apply (Hb a s d Hs). left. exists q, f. auto.
Qed.

Lemma wf_rejecter_in L h a s q :
  wf h -> chain_ok L h -> states h !! a = Some s -> _fail s = Some q ->
  rejecter_in h q (S a) L.
Proof.
  intros W (Ha & Hb & _) Hs Hd.
  destruct (Ha a s q Hs (or_intror Hd)) as [r Hr].
  destruct (W a s Hs) as [_ Of]. destruct (Of q Hd) as (x & Hx & Hk).
  rewrite Hx in Hr. injection Hr as ->.
  destruct (Hk r eq_refl) as (f & -> & Hl). exists f. split; [exact Hx|].
  intros d Ht. destruct (Hl d Ht). split; [lia|]. split; [|assumption].
  apply (Hb a s d Hs). right. exists q, f. auto.
Qed.

(** Settling a state of a well-formed heap in which every continuation
    held is allocated: with any fuel the run stops at no bad pointer, and
    with fuel that is not zero and not less than the number of states
    from the settled one up to [L] it does not run out of fuel. *)
Lemma settle_total L k :
  (forall a v, total (L - a <= k /\ 0 < k) a
                 (fun h => a < length (states h) /\ chain_ok L h)
                 (State_SetValue k a v) (fun _ _ => True)) /\
  (forall a e, total (L - a <= k /\ 0 < k) a
                 (fun h => a < length (states h) /\ chain_ok L h)
                 (State_SetException k a e) (fun _ _ => True)).
Proof.
  induction k as [|k [IHv IHe]]; split; intros a x;
    try (apply total_out_of_fuel; lia).
  - rewrite State_SetValue_eq.
    apply total_seq with (R := fun _ _ => True); [stab' | tspec' total_emit |].
    intros ?. apply total_seq with (R := fun _ _ => True); [stab' | |].
    { eapply total_pre; [apply (total_modify _ a a); [lia | now intros []] | side']. }
    intros ?. apply total_seq with (R := fun _ _ => True); [stab' | |].
    { eapply total_pre; [apply (total_modify _ a a); [lia | now intros []] | side']. }
    intros ?. apply total_seq with (R := fun s h => states h !! a = Some s);
      [stab' | tspec' total_load |].
    intros s. destruct (_done s) as [q|] eqn:Ed; [|apply total_ret; auto].
    apply total_pre with
      (P := fun h => holds h a (Some q) /\ a < length (states h) /\
                     resolver_in h q (S a) L /\ chain_ok L h).
    2:{ cbv beta. intros h Hwf [Hs [_ [_ [_ [Hlen Hc]]]]].
        split; [exists s, q; auto|]. split; [exact Hlen|].
        split; [eapply wf_resolver_in; eauto | exact Hc]. }
    eapply total_pre;
      [apply (dispatch_value_total L (fun d => L - d <= k /\ 0 < k) _ _ IHv IHe
                (L - a <= S k /\ 0 < S k) a (S a) q (Bundle x) (le_S _ _ (le_n a)))|].
    + intros Hf t d Ht HL Hd. lia.
    + cbv beta. tauto.
  - rewrite State_SetException_eq.
    apply total_seq with (R := fun _ _ => True); [stab' | tspec' total_emit |].
    intros ?. apply total_seq with (R := fun _ _ => True); [stab' | |].
    { eapply total_pre; [apply (total_modify _ a a); [lia | now intros []] | side']. }
    intros ?. apply total_seq with (R := fun _ _ => True); [stab' | |].
    { eapply total_pre; [apply (total_modify _ a a); [lia | now intros []] | side']. }
    intros ?. apply total_seq with (R := fun s h => states h !! a = Some s);
      [stab' | tspec' total_load |].
    intros s. destruct (_fail s) as [q|] eqn:Ed; [|apply total_ret; auto].
    apply total_pre with
      (P := fun h => holds h a (Some q) /\ a < length (states h) /\
                     rejecter_in h q (S a) L /\ chain_ok L h).
    2:{ cbv beta. intros h Hwf [Hs [_ [_ [_ [Hlen Hc]]]]].
        split; [exists s, q; auto|]. split; [exact Hlen|].
        split; [eapply wf_rejecter_in; eauto | exact Hc]. }
    eapply total_pre;
      [apply (dispatch_error_total L (fun d => L - d <= k /\ 0 < k) _ _ IHv IHe
                (L - a <= S k /\ 0 < S k) a (S a) q (le_S _ _ (le_n a)))|].
    + intros Hf t d Ht HL Hd. lia.
    + cbv beta. tauto.
Qed.

(** ** Slots own their runnables *)

Lemma alive_bound h a s q :
  alive h -> states h !! a = Some s -> slot_of s q -> q < length (runnables h).
Proof.
  intros Ha Hs Hq. destruct (Ha a s q Hs Hq) as [r Hr].
  eapply lookup_lt_Some; eauto.
Qed.

Lemma owned_frame b h h' : owned h -> frame b h h' -> owned h'.
Proof.
  intros (Ha & Hd & Hx) Fr.
  assert (Old : forall a s', states h' !! a = Some s' ->
            (exists q, slot_of s' q) ->
            exists s, states h !! a = Some s /\ _done s' = _done s /\ _fail s' = _fail s).
  { intros a s' Hs' [q Hq]. destruct (states h !! a) as [s|] eqn:E.
    - destruct (frame_slots _ _ _ Fr a s E) as (s'' & Hs'' & H1 & H2).
      rewrite Hs' in Hs''. injection Hs'' as <-. eauto.
    - apply lookup_ge_None in E.
      destruct (frame_fresh _ _ _ Fr a s' E Hs') as [H1 H2].
      unfold slot_of in Hq. rewrite H1, H2 in Hq. destruct Hq; discriminate. }
  split; [exact (stable_alive b h h' Fr Ha)|]. split.
  - intros a s' q Hs' Hq.
    destruct (Old a s' Hs' (ex_intro _ q (or_introl Hq))) as (s & Hs & H1 & H2).
    rewrite H2. apply (Hd a s q Hs). congruence.
  - intros a a' s1 s2 q Hs1 Hs2 Hq1 Hq2.
    destruct (Old a s1 Hs1 (ex_intro _ q Hq1)) as (t1 & Ht1 & H11 & H12).
    destruct (Old a' s2 Hs2 (ex_intro _ q Hq2)) as (t2 & Ht2 & H21 & H22).
    apply (Hx a a' t1 t2 q Ht1 Ht2); unfold slot_of in *; congruence.
Qed.

Lemma owned_empty : owned empty_heap.
Proof.
  split; [|split].
  - intros a s q Hs. destruct a; discriminate.
  - intros a s q Hs. destruct a; discriminate.
  - intros a a' s s' q Hs. destruct a; discriminate.
Qed.

Lemma owned_with_new_state h s :
  owned h -> _done s = None -> _fail s = None -> owned (with_new_state h s).
Proof.
  intros Ho Hd Hf. apply (owned_frame 0 h); [exact Ho|].
  apply frame_with_new_state; [lia | exact Hd | exact Hf].
Qed.

Lemma owned_with_new_runnable h r : owned h -> owned (with_new_runnable h r).
Proof.
  intros (Ha & Hd & Hx). split; [|split; [exact Hd | exact Hx]].
  intros a s q Hs Hq. destruct (Ha a s q Hs Hq) as [x Hx'].
  exists x. cbn. now apply lookup_app_l_Some.
Qed.

(** Writing a state whose slots hold allocated runnables that no other
    state holds. *)
Lemma owned_with_state h a s s' :
  owned h -> states h !! a = Some s ->
  (forall q, slot_of s' q -> exists r, runnables h !! q = Some (Some r)) ->
  (forall q, _done s' = Some q -> _fail s' <> Some q) ->
  (forall q a' s'', slot_of s' q -> a' <> a -> states h !! a' = Some s'' ->
     ~ slot_of s'' q) ->
  owned (with_state h a s').
Proof.
  intros (Ha & Hd & Hx) Hs Hl Hn Ho.
  pose proof (lookup_lt_Some _ _ _ Hs) as Hlt.
  assert (Look : forall c sc, states (with_state h a s') !! c = Some sc ->
            (c = a /\ sc = s') \/ (c <> a /\ states h !! c = Some sc)).
  { intros c sc Hc. cbn in Hc. destruct (decide (a = c)) as [<-|Hne].
    - rewrite list_lookup_insert_eq in Hc by exact Hlt. injection Hc as <-. auto.
    - rewrite list_lookup_insert_ne in Hc by exact Hne. auto. }
  split; [|split].
  - intros c sc q Hc Hq. cbn [with_state runnables].
    destruct (Look c sc Hc) as [[-> ->]|[Hne Hc']]; [now apply Hl|].
    now apply (Ha c sc q Hc').
  - intros c sc q Hc Hq.
    destruct (Look c sc Hc) as [[-> ->]|[Hne Hc']]; [now apply Hn|].
    now apply (Hd c sc q Hc').
  - intros c c' sc sc' q Hc Hc' Hq Hq'.
    destruct (Look c sc Hc) as [[-> ->]|[Hne Hc1]];
      destruct (Look c' sc' Hc') as [[-> ->]|[Hne' Hc1']].
    + reflexivity.
    + destruct (Ho q c' sc' Hq Hne' Hc1' Hq').
    + destruct (Ho q c sc Hq' Hne Hc1 Hq).
    + now apply (Hx c c' sc sc' q Hc1 Hc1').
Qed.

(** A state that keeps or drops its continuations. *)
Lemma owned_update h a s s' :
  owned h -> states h !! a = Some s ->
  (_done s' = _done s \/ _done s' = None) ->
  (_fail s' = _fail s \/ _fail s' = None) ->
  owned (with_state h a s').
Proof.
  intros Ho Hs Hd Hf. pose proof Ho as (Ha & Hdf & Hx).
  assert (Sub : forall q, slot_of s' q -> slot_of s q).
  { intros q [Hq|Hq]; [left|right].
    - destruct Hd as [E|E]; congruence.
    - destruct Hf as [E|E]; congruence. }
  apply (owned_with_state h a s); auto.
  - intros q Hq. exact (Ha a s q Hs (Sub q Hq)).
  - intros q Hq Hq'. apply (Hdf a s q Hs).
    + destruct Hd as [E|E]; congruence.
    + destruct Hf as [E|E]; congruence.
  - intros q a' s'' Hq Hne Hs'' Hq'.
    apply Hne. exact (Hx a' a s'' s q Hs'' Hs Hq' (Sub q Hq)).
Qed.

Lemma chain_ok_now h : wf h -> owned h -> chain_ok (length (states h)) h.
Proof.
  intros W (Ha & _). split; [exact Ha|]. split; [|lia].
  intros a s t Hs Ht. exact (proj2 (wf_aims h a s t W Hs Ht)).
Qed.

(** ** The calls of the interface end well *)

(** Where registering starts to dispatch. *)
Lemma State_SetFunc_start fuel h this s done fail :
  states h !! this = Some s ->
  State_SetFunc fuel this done fail h =
  match _st s with
  | fulfilled =>
    ref <- get_value this;;
    emit (EvDispatch this done (Bundle (_value s)));;
    Runnable_SetValue (State_SetValue fuel) (State_SetException fuel) done ref
  | rejected =>
    x <- get_exception this;;
    emit (EvDispatch this fail (Error x));;
    Runnable_SetException (State_SetValue fuel) (State_SetException fuel) fail x
  | pending => ret tt
  end (with_state h this (set_fail fail (set_done done s))).
Proof.
  intros Hs. pose proof (lookup_lt_Some _ _ _ Hs) as Hlt. unfold State_SetFunc.
  erewrite bind_run by (apply run_modify; exact Hs).
  erewrite bind_run
    by (apply run_modify; cbn [states]; now apply list_lookup_insert_eq).
  erewrite bind_run
    by (apply run_load; cbn [states]; apply list_lookup_insert_eq;
        now rewrite length_insert).
  cbn [states runnables trace]. rewrite list_insert_insert_eq.
  destruct s; reflexivity.
Qed.

Lemma State_SetFail_start fuel h this s fail :
  states h !! this = Some s ->
  State_SetFail fuel this fail h =
  match _st s with
  | rejected =>
    x <- get_exception this;;
    emit (EvDispatch this fail (Error x));;
    Runnable_SetException (State_SetValue fuel) (State_SetException fuel) fail x
  | _ => ret tt
  end (with_state h this (set_fail fail s)).
Proof.
  intros Hs. pose proof (lookup_lt_Some _ _ _ Hs) as Hlt. unfold State_SetFail.
  erewrite bind_run by (apply run_modify; exact Hs).
  erewrite bind_run
    by (apply run_load; cbn [states]; now apply list_lookup_insert_eq).
  destruct s; reflexivity.
Qed.

(** A dispatch to a runnable that settles, if anything, the state
    allocated last. *)
Lemma dispatch_value_lands (fine : Prop) fuel known h this s p f x :
  (fine -> 0 < fuel) ->
  kept known h ->
  states h !! this = Some s -> _done s = Some p ->
  runnables h !! p = Some (Some (Resolver f)) ->
  (forall d, target_of_value f = Some d -> S d = length (states h)) ->
  ends_well fine (fun _ h' => kept known h')
    ((ref <- get_value this;;
      emit (EvDispatch this (Some p) x);;
      Runnable_SetValue (State_SetValue fuel) (State_SetException fuel) (Some p) ref) h).
Proof.
  intros Hf (W & O & Hk) Hs Hd Hp Ht.
  pose proof (lookup_lt_Some _ _ _ Hs) as Hlt.
  set (L := length (states h)) in *.
  destruct (settle_total L fuel) as [IHv IHe].
  assert (Hlo : this <= L - 1) by lia.
  assert (Hok : fine -> forall t d, L - 1 <= t -> t < L -> t <= d ->
                  L - d <= fuel /\ 0 < fuel).
  { intros F t d H1 H2 H3. specialize (Hf F). lia. }
  destruct (dispatch_value_total L (fun d => L - d <= fuel /\ 0 < fuel) _ _ IHv IHe
              fine this (L - 1) p x Hlo Hok h W) as (W' & Fr & E).
  { split; [exists s, p; auto|]. split; [exact Hlt|]. split.
    - exists f. split; [exact Hp|]. intros d Hd'. specialize (Ht d Hd'). lia.
    - now apply chain_ok_now. }
  match goal with |- ends_well _ _ ?c => destruct c as [[u|t|] h'] end;
    cbn [fst snd ends_well] in *; auto.
  split; [exact W'|]. split; [exact (owned_frame this h h' O Fr)|].
  pose proof (frame_length _ _ _ Fr). lia.
Qed.

Lemma dispatch_error_lands (fine : Prop) fuel known h this s q g :
  (fine -> 0 < fuel) ->
  kept known h ->
  states h !! this = Some s -> _fail s = Some q ->
  runnables h !! q = Some (Some (Rejecter g)) ->
  (forall d, target_of_error g = Some d -> S d = length (states h)) ->
  ends_well fine (fun _ h' => kept known h')
    ((x <- get_exception this;;
      emit (EvDispatch this (Some q) (Error x));;
      Runnable_SetException (State_SetValue fuel) (State_SetException fuel) (Some q) x) h).
Proof.
  intros Hf (W & O & Hk) Hs Hd Hp Ht.
  pose proof (lookup_lt_Some _ _ _ Hs) as Hlt.
  set (L := length (states h)) in *.
  destruct (settle_total L fuel) as [IHv IHe].
  assert (Hlo : this <= L - 1) by lia.
  assert (Hok : fine -> forall t d, L - 1 <= t -> t < L -> t <= d ->
                  L - d <= fuel /\ 0 < fuel).
  { intros F t d H1 H2 H3. specialize (Hf F). lia. }
  destruct (dispatch_error_total L (fun d => L - d <= fuel /\ 0 < fuel) _ _ IHv IHe
              fine this (L - 1) q Hlo Hok h W) as (W' & Fr & E).
  { split; [exists s, q; auto|]. split; [exact Hlt|]. split.
    - exists g. split; [exact Hp|]. intros d Hd'. specialize (Ht d Hd'). lia.
    - now apply chain_ok_now. }
  match goal with |- ends_well _ _ ?c => destruct c as [[u|t|] h'] end;
    cbn [fst snd ends_well] in *; auto.
  split; [exact W'|]. split; [exact (owned_frame this h h' O Fr)|].
  pose proof (frame_length _ _ _ Fr). lia.
Qed.

Lemma done_ok_live_resolver h a p f :
  runnables h !! p = Some (Some (Resolver f)) ->
  later h a (target_of_value f) -> done_ok h a (Some p).
Proof.
  intros Hp Hl q Hq. injection Hq as <-. exists (Some (Resolver f)).
  split; [exact Hp|]. intros r Hr. injection Hr as <-. eauto.
Qed.

Lemma fail_ok_live_rejecter h a q g :
  runnables h !! q = Some (Some (Rejecter g)) ->
  later h a (target_of_error g) -> fail_ok h a (Some q).
Proof.
  intros Hp Hl p Hq. injection Hq as <-. exists (Some (Rejecter g)).
  split; [exact Hp|]. intros r Hr. injection Hr as <-. eauto.
Qed.

Lemma State_SetFunc_lands (fine : Prop) fuel known h this s p q f g :
  (fine -> 0 < fuel) ->
  kept known h ->
  states h !! this = Some s ->
  runnables h !! p = Some (Some (Resolver f)) ->
  runnables h !! q = Some (Some (Rejecter g)) ->
  p <> q ->
  (forall a s0, states h !! a = Some s0 -> ~ slot_of s0 p /\ ~ slot_of s0 q) ->
  (forall d, target_of_value f = Some d -> this < d /\ S d = length (states h)) ->
  (forall d, target_of_error g = Some d -> this < d /\ S d = length (states h)) ->
  ends_well fine (fun _ h' => kept known h')
    (State_SetFunc fuel this (Some p) (Some q) h).
Proof.
  intros Hf (W & O & Hk) Hs Hp Hq Hne Hun Tf Tg.
  pose proof (lookup_lt_Some _ _ _ Hs) as Hlt.
  rewrite (State_SetFunc_start fuel h this s _ _ Hs).
  set (s' := set_fail (Some q) (set_done (Some p) s)).
  assert (Hd' : _done s' = Some p) by (destruct s; reflexivity).
  assert (Hf' : _fail s' = Some q) by (destruct s; reflexivity).
  assert (Hst : _st s = _st s') by (destruct s; reflexivity).
  assert (Hs' : states (with_state h this s') !! this = Some s')
    by now apply (lookup_with_state h this s).
  assert (K : kept known (with_state h this s')).
  { split; [|split].
    - apply (wf_with_state h this s); [exact W | exact Hs | |].
      + rewrite Hd'. apply (done_ok_live_resolver h this p f Hp).
        intros d Hd. specialize (Tf d Hd). lia.
      + rewrite Hf'. apply (fail_ok_live_rejecter h this q g Hq).
        intros d Hd. specialize (Tg d Hd). lia.
    - apply (owned_with_state h this s); [exact O | exact Hs | | |].
      + intros x [Hx|Hx]; [rewrite Hd' in Hx | rewrite Hf' in Hx];
          injection Hx as <-; eauto.
      + intros x Hx Hx'. rewrite Hd' in Hx. rewrite Hf' in Hx'. congruence.
      + intros x a s0 [Hx|Hx] _ Ha H0;
          [rewrite Hd' in Hx | rewrite Hf' in Hx]; injection Hx as <-;
          destruct (Hun a s0 Ha); tauto.
    - cbn. now rewrite length_insert. }
  assert (Hlen : length (states (with_state h this s')) = length (states h))
    by (cbn; now rewrite length_insert).
  destruct (_st s).
  - exact K.
  - apply (dispatch_value_lands fine fuel known _ this s' p f); auto.
    intros d Hd. rewrite Hlen. now apply Tf.
  - apply (dispatch_error_lands fine fuel known _ this s' q g); auto.
    intros d Hd. rewrite Hlen. now apply Tg.
Qed.

Lemma State_SetFail_lands (fine : Prop) fuel known h this s q g :
  (fine -> 0 < fuel) ->
  kept known h ->
  states h !! this = Some s ->
  runnables h !! q = Some (Some (Rejecter g)) ->
  (forall a s0, states h !! a = Some s0 -> ~ slot_of s0 q) ->
  (forall d, target_of_error g = Some d -> this < d /\ S d = length (states h)) ->
  ends_well fine (fun _ h' => kept known h')
    (State_SetFail fuel this (Some q) h).
Proof.
  intros Hf (W & O & Hk) Hs Hq Hun Tg.
  pose proof (lookup_lt_Some _ _ _ Hs) as Hlt.
  rewrite (State_SetFail_start fuel h this s _ Hs).
  set (s' := set_fail (Some q) s).
  assert (Hd' : _done s' = _done s) by (destruct s; reflexivity).
  assert (Hf' : _fail s' = Some q) by (destruct s; reflexivity).
  assert (Hs' : states (with_state h this s') !! this = Some s')
    by now apply (lookup_with_state h this s).
  pose proof O as (Ha & Hdf & Hx).
  assert (K : kept known (with_state h this s')).
  { split; [|split].
    - apply (wf_with_state h this s); [exact W | exact Hs | |].
      + rewrite Hd'. exact (proj1 (W this s Hs)).
      + rewrite Hf'. apply (fail_ok_live_rejecter h this q g Hq).
        intros d Hd. specialize (Tg d Hd). lia.
    - apply (owned_with_state h this s); [exact O | exact Hs | | |].
      + intros x [Hx'|Hx']; [rewrite Hd' in Hx' | rewrite Hf' in Hx'].
        * exact (Ha this s x Hs (or_introl Hx')).
        * injection Hx' as <-. eauto.
      + intros x Hx1 Hx2. rewrite Hd' in Hx1. rewrite Hf' in Hx2.
        injection Hx2 as <-. apply (Hun this s Hs). now left.
      + intros x a s0 [Hx'|Hx'] Hne Ha0 H0;
          [rewrite Hd' in Hx' | rewrite Hf' in Hx'].
        * apply Hne. exact (Hx a this s0 s x Ha0 Hs H0 (or_introl Hx')).
        * injection Hx' as <-. now apply (Hun a s0 Ha0).
    - cbn. now rewrite length_insert. }
  assert (Hlen : length (states (with_state h this s')) = length (states h))
    by (cbn; now rewrite length_insert).
  destruct (_st s); try exact K.
  apply (dispatch_error_lands fine fuel known _ this s' q g); auto.
  intros d Hd. rewrite Hlen. now apply Tg.
Qed.

(** A pointer that is not allocated yet is in no slot. *)
Lemma fresh_unheld h a s q :
  owned h -> states h !! a = Some s -> length (runnables h) <= q -> ~ slot_of s q.
Proof.
  intros (Ha & _) Hs Hq Hx. pose proof (alive_bound h a s q Ha Hs Hx). lia.
Qed.

Lemma ends_well_then_ret {A B} (fine : Prop) (Q : Heap -> Prop) (c : M A) (y : B) h :
  ends_well fine (fun _ h' => Q h') (c h) ->
  ends_well fine (fun _ h' => Q h') ((c;; ret y) h).
Proof. unfold bind. destruct (c h) as [[x|t|] h']; cbn; auto. Qed.

Lemma kept_with_new_state known h s :
  kept known h -> _done s = None -> _fail s = None ->
  kept (S known) (with_new_state h s).
Proof.
  intros (W & O & Hk) Hd Hf. split; [|split].
  - now apply wf_with_new_state.
  - now apply owned_with_new_state.
  - cbn. rewrite length_app. cbn. lia.
Qed.

Lemma kept_with_new_runnable known h r :
  kept known h -> kept known (with_new_runnable h r).
Proof.
  intros (W & O & Hk). split; [|split].
  - now apply wf_with_new_runnable.
  - now apply owned_with_new_runnable.
  - exact Hk.
Qed.

Lemma kept_mono known known' h : known' <= known -> kept known h -> kept known' h.
Proof. intros Hle (W & O & Hk). split; [exact W|]. split; [exact O | lia]. Qed.

Lemma Promise_Then_lands (fine : Prop) fuel known h this func :
  (fine -> 0 < fuel) -> kept known h -> this < length (states h) ->
  ends_well fine (fun _ h' => kept (S known) h') (Promise_Then fuel this func h).
Proof.
  intros Hf K Hv. pose proof K as (W & O & Hk).
  destruct (lookup_lt_is_Some_2 _ _ Hv) as [s Hs].
  set (n := length (states h)).
  set (p := length (runnables h)).
  set (h1 := with_new_state h (State_default (cret func))).
  set (h2 := with_new_runnable h1 (Resolver (then_done func n))).
  set (h3 := with_new_runnable h2 (Rejecter (then_fail n))).
  set (q := length (runnables h2)).
  assert (Hq : q = S p) by (subst q p; cbn; rewrite length_app; cbn; lia).
  assert (E : Promise_Then fuel this func h =
              (State_SetFunc fuel this (Some p) (Some q);; ret n) h3) by reflexivity.
  rewrite E. apply ends_well_then_ret.
  assert (K3 : kept (S known) h3).
  { apply kept_with_new_runnable, kept_with_new_runnable.
    now apply kept_with_new_state. }
  assert (Hlen : length (states h3) = S n) by (cbn; rewrite length_app; cbn; lia).
  assert (O1 : owned h1) by now apply owned_with_new_state.
  apply (State_SetFunc_lands fine fuel (S known) h3 this s p q
           (then_done func n) (then_fail n)); auto.
  - cbn. now apply lookup_app_l_Some.
  - cbn. apply lookup_app_l_Some. now apply list_lookup_middle.
  - cbn. now apply list_lookup_middle.
  - lia.
  - intros a s0 Ha. split; apply (fresh_unheld h1 a s0 _ O1 Ha);
      change (length (runnables h1)) with p; lia.
  - intros d Hd. injection Hd as <-. rewrite Hlen. split; [exact Hv | reflexivity].
  - intros d Hd. injection Hd as <-. rewrite Hlen. split; [exact Hv | reflexivity].
Qed.

Lemma Promise_Exception_lands (fine : Prop) fuel known h this func :
  (fine -> 0 < fuel) -> kept known h -> this < length (states h) ->
  ends_well fine (fun _ h' => kept (S known) h') (Promise_Exception fuel this func h).
Proof.
  intros Hf K Hv. pose proof K as (W & O & Hk).
  destruct (lookup_lt_is_Some_2 _ _ Hv) as [s Hs].
  set (n := length (states h)).
  set (q := length (runnables h)).
  set (h1 := with_new_state h (State_default (cret func))).
  set (h2 := with_new_runnable h1 (Rejecter (exception_fail func n))).
  assert (E : Promise_Exception fuel this func h =
              (State_SetFail fuel this (Some q);; ret n) h2) by reflexivity.
  rewrite E. apply ends_well_then_ret.
  assert (K2 : kept (S known) h2).
  { apply kept_with_new_runnable. now apply kept_with_new_state. }
  assert (Hlen : length (states h2) = S n) by (cbn; rewrite length_app; cbn; lia).
  assert (O1 : owned h1) by now apply owned_with_new_state.
  apply (State_SetFail_lands fine fuel (S known) h2 this s q
           (exception_fail func n)); auto.
  - cbn. now apply lookup_app_l_Some.
  - cbn. now apply list_lookup_middle.
  - intros a s0 Ha. apply (fresh_unheld h1 a s0 _ O1 Ha).
    change (length (runnables h1)) with q. lia.
  - intros d Hd. injection Hd as <-. rewrite Hlen. split; [exact Hv | reflexivity].
Qed.

Lemma Promise_Finally_lands (fine : Prop) fuel known h this func :
  (fine -> 0 < fuel) -> kept known h -> this < length (states h) ->
  ends_well fine (fun _ h' => kept known h') (Promise_Finally fuel this func h).
Proof.
  intros Hf K Hv. pose proof K as (W & O & Hk).
  destruct (lookup_lt_is_Some_2 _ _ Hv) as [s Hs].
  set (p := length (runnables h)).
  set (h2 := with_new_runnable h (Resolver (finally_done func))).
  set (h3 := with_new_runnable h2 (Rejecter (finally_fail func))).
  set (q := length (runnables h2)).
  assert (Hq : q = S p) by (subst q p; cbn; rewrite length_app; cbn; lia).
  assert (E : Promise_Finally fuel this func h =
              State_SetFunc fuel this (Some p) (Some q) h3) by reflexivity.
  rewrite E.
  assert (K3 : kept known h3).
  { now apply kept_with_new_runnable, kept_with_new_runnable. }
  apply (State_SetFunc_lands fine fuel known h3 this s p q
           (finally_done func) (finally_fail func)); auto.
  - cbn. apply lookup_app_l_Some. now apply list_lookup_middle.
  - cbn. now apply list_lookup_middle.
  - lia.
  - intros a s0 Ha. split; apply (fresh_unheld h a s0 _ O Ha); fold p; lia.
  - intros d Hd. discriminate.
  - intros d Hd. discriminate.
Qed.

Lemma State_Reset_run h this s :
  states h !! this = Some s ->
  live (runnables h) (_done s) ->
  live (freed (_done s) (runnables h)) (_fail s) ->
  State_Reset this h =
    (Done tt,
     mk_Heap (<[this := mk_State pending None None (_value s) None]> (states h))
       (freed (_fail s) (freed (_done s) (runnables h))) (trace h)).
Proof.
  intros Hs Hd Hf. destruct h as [sts rs tr]. destruct s as [st d f v e].
  cbn [states runnables trace _st _done _fail _value _e] in *.
  pose proof (lookup_lt_Some _ _ _ Hs).
  destruct d as [d|], f as [f|]; cbn [live freed] in *;
    repeat match goal with H : exists _, _ |- _ => destruct H end;
    exec; reflexivity.
Qed.

Lemma freed_other slot rs x : slot <> Some x -> freed slot rs !! x = rs !! x.
Proof.
  intros Hne. destruct slot as [q|]; cbn [freed]; [|reflexivity].
  apply list_lookup_insert_ne. congruence.
Qed.

Lemma State_Reset_lands (fine : Prop) known h this :
  kept known h -> this < length (states h) ->
  ends_well fine (fun _ h' => kept known h') (State_Reset this h).
Proof.
  intros K Hv. pose proof K as (W & O & Hk). pose proof O as (Ha & Hdf & Hx).
  destruct (lookup_lt_is_Some_2 _ _ Hv) as [s Hs].
  assert (Ld : live (runnables h) (_done s)).
  { destruct (_done s) as [d|] eqn:E; cbn [live]; [|exact I].
    exact (Ha this s d Hs (or_introl E)). }
  assert (Lf : live (freed (_done s) (runnables h)) (_fail s)).
  { destruct (_fail s) as [f|] eqn:E; cbn [live]; [|exact I].
    destruct (Ha this s f Hs (or_intror E)) as [r Hr]. exists r.
    rewrite freed_other; [exact Hr|].
    intros Hd. exact (Hdf this s f Hs Hd E). }
  pose proof (State_Reset_wf this h W) as T.
  rewrite (State_Reset_run h this s Hs Ld Lf) in T |- *. cbn [ends ends_well] in *.
  split; [exact T|]. split; [|cbn; now rewrite length_insert].
  set (s' := mk_State pending None None (_value s) None).
  assert (Look : forall c sc,
            <[this := s']> (states h) !! c = Some sc ->
            (c = this /\ sc = s') \/ (c <> this /\ states h !! c = Some sc)).
  { intros c sc Hc. destruct (decide (this = c)) as [<-|Hne].
    - rewrite list_lookup_insert_eq in Hc by exact Hv. injection Hc as <-. auto.
    - rewrite list_lookup_insert_ne in Hc by exact Hne. auto. }
  assert (No : forall x, ~ slot_of s' x) by (intros x [Hq|Hq]; discriminate).
  split; [|split].
  - intros c sc x Hc Hq. cbn [states runnables] in *.
    destruct (Look c sc Hc) as [[-> ->]|[Hne Hc']]; [destruct (No x Hq)|].
    rewrite !freed_other; [exact (Ha c sc x Hc' Hq)| |];
      intros Hy; apply Hne; apply (Hx c this sc s x Hc' Hs Hq); [now left | now right].
  - intros c sc x Hc Hq. cbn [states] in Hc.
    destruct (Look c sc Hc) as [[-> ->]|[Hne Hc']]; [discriminate|].
    exact (Hdf c sc x Hc' Hq).
  - intros c c' sc sc' x Hc Hc' Hq Hq'. cbn [states] in Hc, Hc'.
    destruct (Look c sc Hc) as [[-> ->]|[Hne Hc1]]; [destruct (No x Hq)|].
    destruct (Look c' sc' Hc') as [[-> ->]|[Hne' Hc1']]; [destruct (No x Hq')|].
    exact (Hx c c' sc sc' x Hc1 Hc1' Hq Hq').
Qed.

Lemma reads_land (fine : Prop) known h this :
  kept known h -> this < length (states h) ->
  ends_well fine (fun _ h' => kept known h') (Promise_GetStatus this h) /\
  ends_well fine (fun _ h' => kept known h') (Promise_GetValue this h) /\
  ends_well fine (fun _ h' => kept known h') (Promise_GetException this h).
Proof.
  intros K Hv. pose proof K as (W & O & Hk).
  destruct (lookup_lt_is_Some_2 _ _ Hv) as [s Hs].
  destruct (W this s Hs) as [Od Of].
  split; [|split].
  - unfold Promise_GetStatus. erewrite bind_run by (apply run_load; exact Hs).
    exact K.
  - rewrite (Promise_GetValue_run h this s Hs). cbn [ends_well].
    split; [|split].
    + apply (wf_with_state h this s); destruct s; auto.
    + apply (owned_update h this s); destruct s; auto.
    + cbn. now rewrite length_insert.
  - rewrite (Promise_GetException_run h this s Hs). cbn [ends_well].
    split; [|split].
    + apply (wf_with_state h this s); destruct s; auto.
    + apply (owned_update h this s); destruct s; auto.
    + cbn. now rewrite length_insert.
Qed.

(** Settling through a handle. *)
Lemma settling_lands (fine : Prop) fuel known h a :
  (fine -> Nat.max 1 (length (states h) - a) <= fuel) ->
  kept known h -> a < length (states h) ->
  (forall v, ends_well fine (fun _ h' => kept known h') (State_SetValue fuel a v h)) /\
  (forall e, ends_well fine (fun _ h' => kept known h') (State_SetException fuel a e h)).
Proof.
  intros Hf (W & O & Hk) Hv.
  destruct (settle_total (length (states h)) fuel) as [Tv Te].
  assert (C : a < length (states h) /\ chain_ok (length (states h)) h)
    by (split; [exact Hv | now apply chain_ok_now]).
  split; intros x.
  - destruct (Tv a x h W C) as (W' & Fr & E).
    destruct (State_SetValue fuel a x h) as [[u|t|] h'];
      cbn [fst snd ends_well] in *; auto.
    + split; [exact W'|]. split; [exact (owned_frame a h h' O Fr)|].
      pose proof (frame_length _ _ _ Fr). lia.
    + intros F. apply E. specialize (Hf F). lia.
  - destruct (Te a x h W C) as (W' & Fr & E).
    destruct (State_SetException fuel a x h) as [[u|t|] h'];
      cbn [fst snd ends_well] in *; auto.
    + split; [exact W'|]. split; [exact (owned_frame a h h' O Fr)|].
      pose proof (frame_length _ _ _ Fr). lia.
    + intros F. apply E. specialize (Hf F). lia.
Qed.

Lemma handle_run {B} h a (c : M B) :
  a < length (states h) -> (handle a;; c) h = c h.
Proof.
  intros Hv. destruct (lookup_lt_is_Some_2 _ _ Hv) as [s Hs].
  unfold handle. rewrite bind_assoc.
  erewrite bind_run by (apply run_load; exact Hs). reflexivity.
Qed.

Lemma run_op_lands (fine : Prop) fuel known h o :
  (fine -> fuel_for h o <= fuel) ->
  kept known h -> valid_handle h o ->
  ends_well fine (fun _ h' => kept (known + makes o) h') (run_op fuel o h).
Proof.
  intros Hf K Hv. pose proof K as (W & O & Hk).
  destruct o; cbn [run_op makes fuel_for valid_handle handle_of] in *;
    rewrite ?Nat.add_0_r, ?Nat.add_1_r; try rewrite (handle_run h _ _ Hv).
  - change (kept (S known) (with_new_state h (State_default ts))).
    now apply kept_with_new_state.
  - change (ends_well fine (fun _ h' => kept (S known) h')
              (((State_SetValue fuel (length (states h)) values;;
                 ret (length (states h)));; ret tt)
                 (with_new_state h (State_default ts)))).
    apply ends_well_then_ret, ends_well_then_ret.
    apply settling_lands.
    + intros F. specialize (Hf F). cbn. rewrite length_app. cbn. lia.
    + now apply kept_with_new_state.
    + cbn. rewrite length_app. cbn. lia.
  - change (ends_well fine (fun _ h' => kept (S known) h')
              (((State_SetException fuel (length (states h)) e;;
                 ret (length (states h)));; ret tt)
                 (with_new_state h (State_default ts)))).
    apply ends_well_then_ret, ends_well_then_ret.
    apply settling_lands.
    + intros F. specialize (Hf F). cbn. rewrite length_app. cbn. lia.
    + now apply kept_with_new_state.
    + cbn. rewrite length_app. cbn. lia.
  - now apply settling_lands.
  - now apply settling_lands.
  - now apply State_Reset_lands.
  - apply ends_well_then_ret. now apply reads_land.
  - apply ends_well_then_ret. now apply reads_land.
  - apply ends_well_then_ret. now apply reads_land.
  - apply ends_well_then_ret. now apply Promise_Then_lands.
  - apply ends_well_then_ret. now apply Promise_Exception_lands.
  - now apply Promise_Finally_lands.
Qed.

Lemma run_ops_lands fuel os :
  forall known h, handles_ok known os = true -> kept known h ->
  ends_well False (fun _ h' => kept known h') (run_ops fuel os h).
Proof.
  induction os as [|o os IH]; intros known h Hok K; cbn [run_ops].
  - exact K.
  - cbn [handles_ok] in Hok. apply andb_prop in Hok as [Hh Hrest].
    assert (Hv : valid_handle h o).
    { unfold valid_handle. destruct (handle_of o) as [d|]; [|exact I].
      apply Nat.ltb_lt in Hh. destruct K as (_ & _ & Hk). lia. }
    pose proof (run_op_lands False fuel known h o (fun F => False_ind _ F) K Hv) as H1.
    unfold bind. destruct (run_op fuel o h) as [[u|t|] h1]; cbn [ends_well] in *; auto.
    specialize (IH _ h1 Hrest H1).
    destruct (run_ops fuel os h1) as [[u'|t'|] h2]; cbn [ends_well] in *; auto.
    apply (kept_mono (known + makes o)); [lia | exact IH].
Qed.

Lemma kept_empty : kept 0 empty_heap.
Proof. split; [exact wf_empty|]. split; [exact owned_empty | cbn; lia]. Qed.






